(** * Enrichment batch jobs [ot_google.py] and [ot_insta.py]

    A shallow embedding of the two scripts and the properties of their
    filter, extraction, counters and persistence.

    Conventions.
    - A Python [str] is the list of its code points ([pystr]).
    - A value produced by [json.load] / [json.loads] is a [value]; a
      Python [dict] is an association list, which keeps insertion order.
    - Code that can raise returns a [result]; code under [try] runs in the
      monad [M], whose state survives a raise, so that a partial update
      made before an exception would be visible.
    - The network is a function ([urlopen] for the API script, [fetch]
      for the scrape script) and so is the encoding of [sys.stdout];
      everything a script prints, requests, sleeps or writes is appended
      to a trace of [event]s. *)

From Stdlib Require Import List ZArith NArith Bool String Ascii Lia SpecFloat.
From Stdlib Require Import DecimalString.
Import ListNotations.
Local Open Scope list_scope.

(* ================================================================== *)
(** ** Python values *)

Module Py.

Set Warnings "-register-all".

Definition pystr := list N.

Definition str (s : string) : pystr :=
  map N_of_ascii (list_ascii_of_string s).
Arguments str : simpl never.

Fixpoint str_eqb (a b : pystr) : bool :=
  match a, b with
  | [], [] => true
  | x :: a', y :: b' => N.eqb x y && str_eqb a' b'
  | _, _ => false
  end.

Inductive value : Type :=
| VNone
| VBool (b : bool)
| VInt (z : Z)
| VFloat (f : spec_float)
| VStr (s : pystr)
| VList (l : list value)
| VDict (d : list (pystr * value)).

Definition dict := list (pystr * value).

(** [bool(x)]: the truth value Python gives an object. *)
Definition truthy (v : value) : bool :=
  match v with
  | VNone => false
  | VBool b => b
  | VInt z => negb (Z.eqb z 0)
  | VFloat (S754_zero _) => false
  | VFloat _ => true
  | VStr s => negb (Nat.eqb (List.length s) 0)
  | VList l => negb (Nat.eqb (List.length l) 0)
  | VDict d => negb (Nat.eqb (List.length d) 0)
  end.

Inductive exn : Type :=
| AttributeError
| TypeError
| KeyError
| IndexError
| UnicodeEncodeError
| FetchError (msg : pystr).

Inductive result (A : Type) : Type :=
| Ok (a : A)
| Raise (e : exn).
Arguments Ok {A} a.
Arguments Raise {A} e.

Definition rbind {A B} (r : result A) (k : A -> result B) : result B :=
  match r with
  | Ok a => k a
  | Raise e => Raise e
  end.

(** *** dict *)

Fixpoint dict_get (k : pystr) (d : dict) : option value :=
  match d with
  | [] => None
  | (k', v) :: d' => if str_eqb k k' then Some v else dict_get k d'
  end.

(** [d[k] = v]: an existing key keeps its position, a new key goes last. *)
Fixpoint dict_set (k : pystr) (v : value) (d : dict) : dict :=
  match d with
  | [] => [(k, v)]
  | (k', v') :: d' =>
      if str_eqb k k' then (k', v) :: d' else (k', v') :: dict_set k v d'
  end.

Definition keys (d : dict) : list pystr := map fst d.

(** [x.get(k, dflt)]; only a dict has [get]. *)
Definition py_get (x : value) (k : pystr) (dflt : value) : result value :=
  match x with
  | VDict d => Ok (match dict_get k d with Some v => v | None => dflt end)
  | _ => Raise AttributeError
  end.

(** [x[k]] for a string key. *)
Definition py_getitem (x : value) (k : pystr) : result value :=
  match x with
  | VDict d => match dict_get k d with Some v => Ok v | None => Raise KeyError end
  | _ => Raise TypeError
  end.

(** [len(x)] *)
Definition py_len (x : value) : result nat :=
  match x with
  | VStr s => Ok (List.length s)
  | VList l => Ok (List.length l)
  | VDict d => Ok (List.length d)
  | _ => Raise TypeError
  end.

(** [x[0]]; the keys of a decoded JSON object are strings, so [0] is never
    one of them. *)
Definition py_index0 (x : value) : result value :=
  match x with
  | VList (v :: _) => Ok v
  | VList [] => Raise IndexError
  | VStr (c :: _) => Ok (VStr [c])
  | VStr [] => Raise IndexError
  | VDict _ => Raise KeyError
  | _ => Raise TypeError
  end.

(** *** str *)

Fixpoint startswith (p s : pystr) : bool :=
  match p, s with
  | [], _ => true
  | x :: p', y :: s' => N.eqb x y && startswith p' s'
  | _ :: _, [] => false
  end.

(** [needle in hay] for two strings. *)
Fixpoint contains (needle hay : pystr) : bool :=
  startswith needle hay ||
  match hay with
  | [] => false
  | _ :: hay' => contains needle hay'
  end.

Definition is_str (s : pystr) (v : value) : bool :=
  match v with
  | VStr s' => str_eqb s s'
  | _ => false
  end.

(** A surrogate code point: on its own it has no UTF-8 encoding. *)
Definition surrogate (c : N) : bool :=
  N.leb 0xD800 c && N.leb c 0xDFFF.

(** [s in x] for a string [s]: substring of a str, element of a list, key
    of a dict; anything else is not iterable. *)
Definition py_in (s : pystr) (x : value) : result bool :=
  match x with
  | VStr h => Ok (contains s h)
  | VList l => Ok (existsb (is_str s) l)
  | VDict d => Ok (existsb (str_eqb s) (keys d))
  | _ => Raise TypeError
  end.

End Py.

Export Py.

Notation "x <- r ;; k" := (rbind r (fun x => k))
  (at level 61, r at next level, right associativity).

(* ================================================================== *)
(** ** The candidate filter (both scripts, lines 7-10) *)

Module Filter.

(** ['opentable' in v.get('url', '') and not v.get(target)] *)
Definition needs (target : pystr) (v : value) : result bool :=
  u <- py_get v (str "url") (VStr []) ;;
  b <- py_in (str "opentable") u ;;
  if b then
    t <- py_get v target VNone ;;
    Ok (negb (truthy t))
  else Ok false.

End Filter.

(* ================================================================== *)
(** ** Effects: the trace and the monad for code under [try] *)

Module Eff.

(** What a run does to the outside world, in order.  [L] is the type of
    the lines a script prints. *)
Inductive event (L : Type) : Type :=
| EvRead (path : pystr)                        (* json.load(open(path)) *)
| EvFetch (request : value)                    (* urlopen(...) *)
| EvPrint (l : L)                              (* print(...) *)
| EvSleep (ms : N)                             (* time.sleep(ms / 1000) *)
| EvWrite (path : pystr) (doc : value) (indent : nat).
                                               (* json.dump(doc, open(path,'w'), indent=indent) *)
Arguments EvRead {L} path.
Arguments EvFetch {L} request.
Arguments EvPrint {L} l.
Arguments EvSleep {L} ms.
Arguments EvWrite {L} path doc indent.

(** The requests made, the files read and the files written, in order. *)
Definition requests {L} (t : list (event L)) : list value :=
  flat_map (fun ev => match ev with EvFetch r => [r] | _ => [] end) t.

Definition reads {L} (t : list (event L)) : list pystr :=
  flat_map (fun ev => match ev with EvRead p => [p] | _ => [] end) t.

Definition writes {L} (t : list (event L)) : list (pystr * value * nat) :=
  flat_map (fun ev => match ev with
                      | EvWrite p doc n => [(p, doc, n)]
                      | _ => []
                      end) t.

(** The pauses made, in milliseconds, in order. *)
Definition sleeps {L} (t : list (event L)) : list N :=
  flat_map (fun ev => match ev with EvSleep ms => [ms] | _ => [] end) t.

(** A computation over a state [S] that may raise; the state reached when
    it raises is returned too. *)
Definition M (S A : Type) : Type := S -> result A * S.

Definition ret {S A} (a : A) : M S A := fun s => (Ok a, s).

Definition bind {S A B} (m : M S A) (k : A -> M S B) : M S B :=
  fun s =>
    match m s with
    | (Ok a, s') => k a s'
    | (Raise e, s') => (Raise e, s')
    end.

Definition lift {S A} (r : result A) : M S A := fun s => (r, s).

Definition modify {S} (f : S -> S) : M S unit := fun s => (Ok tt, f s).

End Eff.

Export Eff.

Notation "x <~ m ;; k" := (bind m (fun x => k))
  (at level 61, m at next level, right associativity).
Notation "m ;;; k" := (bind m (fun _ => k))
  (at level 61, right associativity).

(* ================================================================== *)
(** ** [ot_google.py] *)

Module Google.

Definition path : pystr := str "bfull.json".

(** The lines the script prints. *)
Inductive line : Type :=
| LNeeding (n : nat)
    (* OT restaurants needing Google data: {n} *)
| LProgress (index total hits errors : nat) (e : option exn)
    (* [{index}/{total}] {hits} found, {errors} errors      (and  - {e}) *)
| LDone (hits total : nat)
    (* DONE! {hits} Google results out of {total} *)
| LErrors (errors : nat)
    (* Errors: {errors} *)
| LUpdated.
    (* Updated bfull.json with coords + ratings *)

Record state : Type := mkState {
  lookup : dict;
  hits : nat;
  errors : nat;
  out : list (event line)
}.

Definition emit (ev : event line) (st : state) : state :=
  mkState (lookup st) (hits st) (errors st) (out st ++ [ev]).

(** Lines 7-10. *)
Fixpoint filter_loop (items : dict) (ot_entries : list pystr)
  : result (list pystr) :=
  match items with
  | [] => Ok ot_entries
  | (name, v) :: rest =>
      b <- Filter.needs (str "lat") v ;;
      filter_loop rest (if b then ot_entries ++ [name] else ot_entries)
  end.

(** [f'{name} restaurant NYC'] *)
Definition query (name : pystr) : pystr := name ++ str " restaurant NYC".

(** Line 19: [urllib.parse.quote] encodes its argument as UTF-8, which
    fails on a lone surrogate.  The escaped text is not modelled: a
    request is told by the name it is made for. *)
Definition quote (s : pystr) : result unit :=
  if existsb surrogate s then Raise UnicodeEncodeError else Ok tt.

Section Run.

(** The outcome of lines 20-23 for a restaurant name whose query line 19
    could escape: the decoded body, or the exception of [urlopen], [read]
    or [json.loads].  The text of such an exception is taken to be one
    that [sys.stdout] can encode, so that line 43 prints it. *)
Variable urlopen : pystr -> result value.

(** What lines 19-23 give as a whole. *)
Definition fetch (name : pystr) : result value :=
  _ <- quote (query name) ;; urlopen name.

(** Lines 19-23: the request is made once line 19 has not raised. *)
Definition do_fetch (name : pystr) : M state value :=
  _ <~ lift (quote (query name)) ;;
  fun st => (urlopen name, emit (EvFetch (VStr name)) st).

(** [entry = lookup[name]] *)
Definition get_entry (name : pystr) : M state unit :=
  fun st =>
    match dict_get name (lookup st) with
    | Some _ => (Ok tt, st)
    | None => (Raise KeyError, st)
    end.

(** [entry[k] = v], where [entry] is the object stored at [lookup[name]]. *)
Definition set_entry (name k : pystr) (v : value) : M state unit :=
  fun st =>
    match dict_get name (lookup st) with
    | Some (VDict rd) =>
        (Ok tt, mkState (dict_set name (VDict (dict_set k v rd)) (lookup st))
                        (hits st) (errors st) (out st))
    | Some _ => (Raise TypeError, st)
    | None => (Raise KeyError, st)
    end.

Definition incr_hits : M state unit :=
  modify (fun st => mkState (lookup st) (S (hits st)) (errors st) (out st)).

Definition incr_errors : M state unit :=
  modify (fun st => mkState (lookup st) (hits st) (S (errors st)) (out st)).

(** [if (i+1) % 50 == 0: print(...)] *)
Definition progress (i total : nat) (e : option exn) : M state unit :=
  modify (fun st =>
    if Nat.eqb ((i + 1) mod 50) 0
    then emit (EvPrint (LProgress (i + 1) total (hits st) (errors st) e)) st
    else st).

(** Lines 19-39, the body of [try]. *)
Definition try_body (i total : nat) (name : pystr) : M state unit :=
  d <~ do_fetch name ;;
  cands <~ lift (py_get d (str "candidates") VNone) ;;
  found <~ (if truthy cands
            then n <~ lift (c <- py_getitem d (str "candidates") ;; py_len c) ;;
                 ret (Nat.ltb 0 n)
            else ret false) ;;
  if found then
    c <~ lift (cs <- py_getitem d (str "candidates") ;; py_index0 cs) ;;
    loc <~ lift (g <- py_get c (str "geometry") (VDict []) ;;
                 py_get g (str "location") (VDict [])) ;;
    get_entry name ;;;
    lat <~ lift (py_get loc (str "lat") VNone) ;;
    set_entry name (str "lat") lat ;;;
    lng <~ lift (py_get loc (str "lng") VNone) ;;
    set_entry name (str "lng") lng ;;;
    rating <~ lift (py_get c (str "rating") VNone) ;;
    set_entry name (str "google_rating") rating ;;;
    reviews <~ lift (py_get c (str "user_ratings_total") VNone) ;;
    set_entry name (str "google_reviews") reviews ;;;
    pid <~ lift (py_get c (str "place_id") VNone) ;;
    set_entry name (str "place_id") pid ;;;
    incr_hits ;;;
    progress i total None
  else
    progress i total None.

(** Lines 18-45: one turn of the loop. *)
Definition iteration (total i : nat) (name : pystr) (st : state) : state :=
  let st' :=
    match try_body i total name st with
    | (Ok _, st1) => st1
    | (Raise e, st1) => snd ((incr_errors ;;; progress i total (Some e)) st1)
    end in
  emit (EvSleep 200) st'.

(** [for i, name in enumerate(ot_entries)], from index [i] on. *)
Fixpoint loop (total i : nat) (names : list pystr) (st : state) : state :=
  match names with
  | [] => st
  | name :: rest => loop total (S i) rest (iteration total i name st)
  end.

(** The whole script, given the document [json.load] read from [path]. *)
Definition main (doc : dict) : result state :=
  ot_entries <- filter_loop doc [] ;;
  let total := List.length ot_entries in
  let st0 := mkState doc 0 0 [EvRead path; EvPrint (LNeeding total)] in
  let st1 := loop total 0 ot_entries st0 in
  let st2 := emit (EvWrite path (VDict (lookup st1)) 2) st1 in
  Ok (emit (EvPrint LUpdated)
       (emit (EvPrint (LErrors (errors st2)))
         (emit (EvPrint (LDone (hits st2) total)) st2))).

End Run.

End Google.

(* ================================================================== *)
(** ** The fragment of [re] used by [ot_insta.py] *)

Module Re.

Local Open Scope N_scope.

Definition chr (a : ascii) : N := N_of_ascii a.

(** The whitespace of [\s] and of [str.strip()]. *)
Definition isspace (c : N) : bool :=
  ((9 <=? c) && (c <=? 13)) || ((28 <=? c) && (c <=? 32))
  || (c =? 0x85) || (c =? 0xA0) || (c =? 0x1680)
  || ((0x2000 <=? c) && (c <=? 0x200A))
  || (c =? 0x2028) || (c =? 0x2029) || (c =? 0x202F)
  || (c =? 0x205F) || (c =? 0x3000).

(** Simple lower-casing, on the code points whose lower case is an ASCII
    letter.  Other code points are left as they are: none of them has a
    lower case that occurs in the patterns below, so matching does not
    depend on them. *)
Definition lower (c : N) : N :=
  if (65 <=? c) && (c <=? 90) then c + 32
  else if c =? 0x130 then 0x69
  else if c =? 0x212A then 0x6B
  else c.

(** The extra code points that match a lower-case letter when case is
    ignored: dotless i, long s, Kelvin sign. *)
Definition fixes (lo : N) : list N :=
  if lo =? 0x69 then [0x131]
  else if lo =? 0x73 then [0x17F]
  else if lo =? 0x6B then [0x212A]
  else [].

(** Does the pattern character [c] match the text character [x]? *)
Definition char_eq (ignorecase : bool) (c x : N) : bool :=
  if ignorecase
  then existsb (N.eqb (lower x)) (lower c :: fixes (lower c))
  else N.eqb c x.

Inductive item : Type :=
| IChar (c : N)
| IRange (lo hi : N)
| ISpace.

Record charset : Type := mkSet { negate : bool; items : list item }.

Definition range (lo hi : N) : list N :=
  map N.of_nat (seq (N.to_nat lo) (S (N.to_nat hi) - N.to_nat lo)%nat).

Definition item_match (ignorecase : bool) (x : N) (it : item) : bool :=
  match it with
  | IChar c => char_eq ignorecase c x
  | IRange lo hi => existsb (fun c => char_eq ignorecase c x) (range lo hi)
  | ISpace => isspace x
  end.

Definition set_match (ignorecase : bool) (cs : charset) (x : N) : bool :=
  xorb (negate cs) (existsb (item_match ignorecase x) (items cs)).

(** Patterns: a quantifier applies to one character set, the optional
    group to any pattern; [RGroup] is capture group 1. *)
Inductive regex : Type :=
| REps
| RLit (c : N)
| RSet (cs : charset)
| RStar (cs : charset)
| RPlus (cs : charset)
| ROpt (r : regex)
| RGroup (r : regex)
| RSeq (r1 r2 : regex).

Definition lits (s : string) : regex :=
  fold_right (fun c r => RSeq (RLit c) r) REps (str s).

Section Exec.

Variable ignorecase : bool.
Variable A : Type.

(** Greedy repetition of a set: take as many characters as match, then
    give them back one at a time while the rest fails. *)
Fixpoint repeat_one (cs : charset) (s : pystr) (k : pystr -> option A)
  : option A :=
  match s with
  | x :: s' =>
      if set_match ignorecase cs x
      then match repeat_one cs s' k with
           | Some a => Some a
           | None => k s
           end
      else k s
  | [] => k s
  end.

(** Backtracking match of [r] at the head of [s]; [g] is group 1 so far
    and [k] matches what follows. *)
Fixpoint exec (r : regex) (s : pystr) (g : option pystr)
  (k : pystr -> option pystr -> option A) : option A :=
  match r with
  | REps => k s g
  | RLit c =>
      match s with
      | x :: s' => if char_eq ignorecase c x then k s' g else None
      | [] => None
      end
  | RSet cs =>
      match s with
      | x :: s' => if set_match ignorecase cs x then k s' g else None
      | [] => None
      end
  | RStar cs => repeat_one cs s (fun s' => k s' g)
  | RPlus cs =>
      match s with
      | x :: s' =>
          if set_match ignorecase cs x
          then repeat_one cs s' (fun s'' => k s'' g)
          else None
      | [] => None
      end
  | ROpt r' =>
      match exec r' s g k with
      | Some a => Some a
      | None => k s g
      end
  | RGroup r' =>
      exec r' s g
        (fun s' _ => k s' (Some (firstn (List.length s - List.length s')%nat s)))
  | RSeq r1 r2 => exec r1 s g (fun s' g' => exec r2 s' g' k)
  end.

End Exec.

(** A match object: what group 1 captured, if it took part. *)
Definition match_ := option pystr.

(** [re.search(r, s, flags)]: the match at the leftmost position that has
    one. *)
Fixpoint search (ignorecase : bool) (r : regex) (s : pystr) : option match_ :=
  match exec ignorecase match_ r s None (fun _ g => Some g) with
  | Some m => Some m
  | None =>
      match s with
      | [] => None
      | _ :: s' => search ignorecase r s'
      end
  end.

(** [m.group(1).strip()]: a group that took no part is [None], which has
    no [strip]. *)
Definition group1 (m : match_) : result pystr :=
  match m with
  | Some g => Ok g
  | None => Raise AttributeError
  end.

Fixpoint lstrip (p : N -> bool) (s : pystr) : pystr :=
  match s with
  | x :: s' => if p x then lstrip p s' else s
  | [] => []
  end.

Definition rstrip (p : N -> bool) (s : pystr) : pystr :=
  rev (lstrip p (rev s)).

(** [s.strip()] *)
Definition strip (s : pystr) : pystr := rstrip isspace (lstrip isspace s).

(** [s.split(sep)] for a one-character separator. *)
Fixpoint split (sep : N) (s : pystr) : list pystr :=
  match s with
  | [] => [[]]
  | x :: s' =>
      if N.eqb x sep then [] :: split sep s'
      else match split sep s' with
           | h :: t => (x :: h) :: t
           | [] => [[x]]
           end
  end.

End Re.

(* ================================================================== *)
(** ** [ot_insta.py] *)

Module Insta.

Import Re.

Definition path : pystr := str "booking_lookup_full.json".
Definition results_path : pystr := str "ot-instagram-results.json".

(** [[A-Za-z0-9_.]] *)
Definition handle_chars : charset :=
  mkSet false [IRange (chr "A") (chr "Z"); IRange (chr "a") (chr "z");
               IRange (chr "0") (chr "9"); IChar (chr "_"); IChar (chr ".")].

(** [\s] *)
Definition space : charset := mkSet false [ISpace].

(** The double quote, written Q in the comments below, and [[^Q]]. *)
Definition quote : N := 34.
Definition not_quote : charset := mkSet true [IChar quote].

(** Lines 29-33. *)
Definition patterns : list regex :=
  [ (* instagram\.com/([A-Za-z0-9_.]+) *)
    RSeq (lits "instagram.com/") (RGroup (RPlus handle_chars));
    (* QinstagramQ\s*:\s*Q([^Q]+)Q *)
    RSeq (RLit quote) (RSeq (lits "instagram") (RSeq (RLit quote)
      (RSeq (RStar space) (RSeq (RLit (chr ":")) (RSeq (RStar space)
        (RSeq (RLit quote) (RSeq (RGroup (RPlus not_quote)) (RLit quote))))))));
    (* @([A-Za-z0-9_.]+)\s*(?:on\s+)?instagram *)
    RSeq (RLit (chr "@")) (RSeq (RGroup (RPlus handle_chars))
      (RSeq (RStar space) (RSeq (ROpt (RSeq (lits "on") (RPlus space)))
        (lits "instagram")))) ].

Definition blocklist : list pystr :=
  map str ["p"; "reel"; "explore"; "accounts"; "stories"]%string.

(** [ig and ig not in [...]] *)
Definition accepted (ig : pystr) : bool :=
  truthy (VStr ig) && negb (existsb (str_eqb ig) blocklist).

(** Lines 34-40: [for p in patterns], with [ig] as it stands. *)
Fixpoint for_patterns (ps : list regex) (html ig : pystr) : result pystr :=
  match ps with
  | [] => Ok ig
  | p :: rest =>
      match search true p html with
      | Some m =>
          g <- group1 m ;;
          let ig := rstrip (N.eqb (chr "/")) (strip g) in
          if accepted ig then Ok ig                      (* break *)
          else for_patterns rest html []                 (* ig = '' *)
      | None => for_patterns rest html ig
      end
  end.

(** Lines 28-40. *)
Definition extract (html : pystr) : result pystr :=
  for_patterns patterns html [].

(** An element of [ot_entries]: the dict built on line 10. *)
Record cand : Type := mkCand { c_name : pystr; c_url : value; c_slug : value }.

(** The lines the script prints. *)
Inductive line : Type :=
| LNeeding (n : nat)
    (* OT restaurants needing Instagram: {n} *)
| LHit (index total : nat) (name ig : pystr)
    (* [{index}/{total}] IG: {name} -> @{ig} *)
| LSoFar (index total found : nat)
    (* [{index}/{total}] ... {found} found so far *)
| LFoundErrors (index total found errors : nat)
    (* [{index}/{total}] ... {found} found, {errors} errors *)
| LDone (found total : nat)
    (* DONE! {found} Instagram handles found out of {total} *)
| LErrors (errors : nat)
    (* Errors: {errors} *)
| LSaved.
    (* Saved: ot-instagram-results.json *)

(** The part of a line that comes from the store or from a page; the rest
    of a line is ASCII text and decimal numbers. *)
Definition free_text (l : line) : pystr :=
  match l with
  | LHit _ _ name ig => name ++ ig
  | _ => []
  end.

(** Can [sys.stdout] encode [s]?  It encodes ASCII, and of the other code
    points those for which [stdout] holds. *)
Definition encodable (stdout : N -> bool) (s : pystr) : bool :=
  forallb (fun c => N.ltb c 128 || stdout c) s.

(** [lookup] is the Record Store as loaded, [hits] the Results List of
    name / instagram pairs. *)
Record state : Type := mkState {
  lookup : dict;
  hits : list (pystr * pystr);
  errors : nat;
  out : list (event line)
}.

Definition emit (ev : event line) (st : state) : state :=
  mkState (lookup st) (hits st) (errors st) (out st ++ [ev]).

(** Lines 7-10. *)
Fixpoint filter_loop (items : dict) (ot_entries : list cand)
  : result (list cand) :=
  match items with
  | [] => Ok ot_entries
  | (name, v) :: rest =>
      b <- Filter.needs (str "instagram") v ;;
      if b then
        url <- py_getitem v (str "url") ;;
        slug <- py_get v (str "slug") (VStr []) ;;
        filter_loop rest (ot_entries ++ [mkCand name url slug])
      else filter_loop rest ot_entries
  end.

(** Line 18: [r['slug'] or r['url'].split('/')[-1]]. *)
Definition slug_of (r : cand) : result value :=
  if truthy (c_slug r) then Ok (c_slug r)
  else match c_url r with
       | VStr u => Ok (VStr (last (split (chr "/") u) []))
       | _ => Raise AttributeError
       end.

(** The document written at the end: a list of two-key objects. *)
Definition hits_doc (hs : list (pystr * pystr)) : value :=
  VList (map (fun h => VDict [(str "name", VStr (fst h));
                              (str "instagram", VStr (snd h))]) hs).

Section Run.

(** The outcome of lines 20-25 for a slug: the decoded page, or the
    exception of [urlopen] or [read]. *)
Variable fetch : value -> result pystr.

(** The code points beyond ASCII that the encoding of [sys.stdout] has. *)
Variable stdout : N -> bool.

Definition do_fetch (slug : value) : M state pystr :=
  fun st => (fetch slug, emit (EvFetch slug) st).

Definition append_hit (name ig : pystr) : M state unit :=
  modify (fun st =>
    mkState (lookup st) (hits st ++ [(name, ig)]) (errors st) (out st)).

Definition incr_errors : M state unit :=
  modify (fun st => mkState (lookup st) (hits st) (S (errors st)) (out st)).

(** [print(...)]: a line that [sys.stdout] cannot encode raises, and
    nothing of it is printed. *)
Definition print (l : state -> line) : M state unit :=
  fun st =>
    if encodable stdout (free_text (l st))
    then (Ok tt, emit (EvPrint (l st)) st)
    else (Raise UnicodeEncodeError, st).

(** [if (i+1) % 100 == 0: print(...)] *)
Definition every100 (i : nat) (l : state -> line) : M state unit :=
  if Nat.eqb ((i + 1) mod 100) 0 then print l else ret tt.

(** Lines 20-47, the body of [try]. *)
Definition try_body (i total : nat) (r : cand) (slug : value)
  : M state unit :=
  html <~ do_fetch slug ;;
  ig <~ lift (extract html) ;;
  if truthy (VStr ig) then
    append_hit (c_name r) ig ;;;
    print (fun _ => LHit (i + 1) total (c_name r) ig)
  else
    every100 i (fun st => LSoFar (i + 1) total (List.length (hits st))).

(** Lines 18-53: one turn of the loop.  Line 18 is outside [try], and so
    is the [except] clause: what raises there is not caught. *)
Definition iteration (total i : nat) (r : cand) (st : state) : result state :=
  slug <- slug_of r ;;
  st' <- match try_body i total r slug st with
         | (Ok _, st1) => Ok st1
         | (Raise _, st1) =>
             match (incr_errors ;;;
                    every100 i (fun st => LFoundErrors (i + 1) total
                                            (List.length (hits st))
                                            (errors st))) st1 with
             | (Ok _, st2) => Ok st2
             | (Raise e, _) => Raise e
             end
         end ;;
  Ok (emit (EvSleep 500) st').

(** [for i, r in enumerate(ot_entries)], from index [i] on. *)
Fixpoint loop (total i : nat) (rs : list cand) (st : state) : result state :=
  match rs with
  | [] => Ok st
  | r :: rest =>
      st' <- iteration total i r st ;;
      loop total (S i) rest st'
  end.

(** The whole script, given the document [json.load] read from [path]. *)
Definition main (doc : dict) : result state :=
  ot_entries <- filter_loop doc [] ;;
  let total := List.length ot_entries in
  let st0 := mkState doc [] 0 [EvRead path; EvPrint (LNeeding total)] in
  st1 <- loop total 0 ot_entries st0 ;;
  let st2 := emit (EvWrite results_path (hits_doc (hits st1)) 2) st1 in
  Ok (emit (EvPrint LSaved)
       (emit (EvPrint (LErrors (errors st2)))
         (emit (EvPrint (LDone (List.length (hits st2)) total)) st2))).

End Run.

End Insta.

(* ================================================================== *)
(** ** Vocabulary of the specification *)

Module Spec.

(** The shape the input file gives a record: an object whose [url], when
    present, is a string. *)
Definition record_shape (v : value) : bool :=
  match v with
  | VDict rd =>
      match dict_get (str "url") rd with
      | None | Some (VStr _) => true
      | Some _ => false
      end
  | _ => false
  end.

Definition store_shape (doc : dict) : bool :=
  forallb (fun kv => record_shape (snd kv)) doc.

Definition is_dict (v : value) : bool :=
  match v with VDict _ => true | _ => false end.

Definition is_list (v : value) : bool :=
  match v with VList _ => true | _ => false end.

(** A record on which line 9 raises: it is not an object, or its [url] is
    [None], a boolean or a number. *)
Definition breaks_filter (v : value) : bool :=
  match v with
  | VDict rd =>
      match dict_get (str "url") rd with
      | Some (VNone | VBool _ | VInt _ | VFloat _) => true
      | _ => false
      end
  | _ => true
  end.

(** The origin marker is a substring of the record's [url] field. *)
Definition marker_in_url (v : value) : Prop :=
  exists rd u before after,
    v = VDict rd /\ dict_get (str "url") rd = Some (VStr u) /\
    u = before ++ str "opentable" ++ after.

(** The target field is absent or falsy. *)
Definition target_missing (target : pystr) (v : value) : Prop :=
  exists rd,
    v = VDict rd /\
    (dict_get target rd = None \/
     exists t, dict_get target rd = Some t /\ truthy t = false).

Definition selected (target : pystr) (v : value) : Prop :=
  marker_in_url v /\ target_missing target v.

(** [Kept P doc kept]: [kept] lists, in the order of [doc], exactly the
    entries of [doc] whose record satisfies [P]. *)
Inductive Kept (P : value -> Prop) : dict -> dict -> Prop :=
| Kept_nil : Kept P [] []
| Kept_take k v doc kept :
    P v -> Kept P doc kept -> Kept P ((k, v) :: doc) ((k, v) :: kept)
| Kept_skip k v doc kept :
    ~ P v -> Kept P doc kept -> Kept P ((k, v) :: doc) kept.

(** [d.get(k)] *)
Definition get_or_none (k : pystr) (d : dict) : value :=
  match dict_get k d with
  | Some v => v
  | None => VNone
  end.

(** The [location] of a candidate match of the documented shape: an object
    whose [geometry], when it has one, is an object whose [location], when
    it has one, is an object.  A missing level reads as the empty
    object. *)
Definition location_of (c : value) : option dict :=
  match c with
  | VDict cd =>
      match dict_get (str "geometry") cd with
      | None => Some []
      | Some (VDict gd) =>
          match dict_get (str "location") gd with
          | None => Some []
          | Some (VDict ld) => Some ld
          | Some _ => None
          end
      | Some _ => None
      end
  | _ => None
  end.

Definition five_fields : list pystr :=
  map str ["lat"; "lng"; "google_rating"; "google_reviews"; "place_id"]%string.

(** The record [rd] after lines 29-33, for the first match [cd] and its
    location [ld]. *)
Definition enriched (ld cd rd : dict) : dict :=
  dict_set (str "place_id") (get_or_none (str "place_id") cd)
    (dict_set (str "google_reviews") (get_or_none (str "user_ratings_total") cd)
      (dict_set (str "google_rating") (get_or_none (str "rating") cd)
        (dict_set (str "lng") (get_or_none (str "lng") ld)
          (dict_set (str "lat") (get_or_none (str "lat") ld) rd)))).

(** How a candidate ends. *)
Inductive outcome : Type := Hit | NoHit | Error.

Definition outcome_eqb (a b : outcome) : bool :=
  match a, b with
  | Hit, Hit | NoHit, NoHit | Error, Error => true
  | _, _ => false
  end.

Definition count (o : outcome) (l : list outcome) : nat :=
  List.length (filter (outcome_eqb o) l).

End Spec.

(** Reading of a response of the places API. *)
Module GSpec.

Import Spec.

(** How the candidate ends, from what lines 19-23 gave: an exception, a body
    that is not an object, a truthy [candidates] that is not a list, or a
    first match that is not of the documented shape, all end in the
    [except] clause. *)
Definition outcome_of (r : result value) : outcome :=
  match r with
  | Raise _ => Error
  | Ok (VDict dd) =>
      match dict_get (str "candidates") dd with
      | None => NoHit
      | Some cands =>
          if truthy cands then
            match cands with
            | VList (c :: _) =>
                match location_of c with
                | Some _ => Hit
                | None => Error
                end
            | _ => Error
            end
          else NoHit
      end
  | Ok _ => Error
  end.

(** The requests a turn makes for [name]: one, or none when line 19
    raises. *)
Definition sent (name : pystr) : list value :=
  match Google.quote (Google.query name) with
  | Ok _ => [VStr name]
  | Raise _ => []
  end.

(** The state once lines 19-23 have run for [name]. *)
Definition fetched (name : pystr) (st : Google.state) : Google.state :=
  Google.mkState (Google.lookup st) (Google.hits st) (Google.errors st)
    (Google.out st ++ map EvFetch (sent name)).

(** What one turn of the loop appends to the trace, given the counters
    [hits] and [errors] it leaves and the exception it caught, if any. *)
Definition turn_events (total i : nat) (name : pystr) (hits errors : nat)
  (e : option exn) : list (event Google.line) :=
  map EvFetch (sent name) ++
  (if Nat.eqb ((i + 1) mod 50) 0
   then [EvPrint (Google.LProgress (i + 1) total hits errors e)]
   else []) ++
  [EvSleep 200].

(** The record [rd] already holds what a hit on the answer [r] would
    write. *)
Definition settled (r : result value) (rd : dict) : Prop :=
  forall dd cd rest ld,
    r = Ok (VDict dd) ->
    dict_get (str "candidates") dd = Some (VList (VDict cd :: rest)) ->
    location_of (VDict cd) = Some ld ->
    enriched ld cd rd = rd.

(** The test of line 9 on an entry of the store; an entry on which it
    raises is not kept. *)
Definition sel (kv : pystr * value) : bool :=
  match Filter.needs (str "lat") (snd kv) with
  | Ok true => true
  | _ => false
  end.

(** Every name still to be processed is the key of an object. *)
Definition entries (names : list pystr) (st : Google.state) : Prop :=
  forall n, In n names ->
    exists rd, dict_get n (Google.lookup st) = Some (VDict rd).

End GSpec.

(** Reading of a fetched page. *)
Module ISpec.

Import Spec.

(** How the candidate ends, from what [fetch] gave: a handle, no handle,
    or an exception of the fetch or of the extraction. *)
Definition outcome_of (r : result pystr) : outcome :=
  match r with
  | Raise _ => Error
  | Ok html =>
      match Insta.extract html with
      | Ok ig => if truthy (VStr ig) then Hit else NoHit
      | Raise _ => Error
      end
  end.

(** How the candidate [r] ends; line 18 comes first. *)
Definition cand_outcome (fetch : value -> result pystr) (r : Insta.cand)
  : outcome :=
  match Insta.slug_of r with
  | Ok slug => outcome_of (fetch slug)
  | Raise _ => Error
  end.

(** Can line 44 print the hit line of the candidate [r] for the handle
    [ig]? *)
Definition printable (stdout : N -> bool) (r : Insta.cand) (ig : pystr)
  : bool :=
  Insta.encodable stdout (Insta.c_name r ++ ig).

(** Does the candidate [r] end in the [except] clause?  It does when the
    fetch or the extraction raises, and when line 44 cannot print the hit
    it has just appended. *)
Definition caught (fetch : value -> result pystr) (stdout : N -> bool)
  (r : Insta.cand) : bool :=
  match Insta.slug_of r with
  | Ok slug =>
      match fetch slug with
      | Ok html =>
          match Insta.extract html with
          | Ok ig => truthy (VStr ig) && negb (printable stdout r ig)
          | Raise _ => true
          end
      | Raise _ => true
      end
  | Raise _ => false
  end.

Definition url_is_str (r : Insta.cand) : Prop :=
  exists u, Insta.c_url r = VStr u.

(** What one turn of the loop appends to the trace: [line] is the line it
    prints, if any. *)
Definition turn_events (slug : value) (line : option Insta.line)
  : list (event Insta.line) :=
  [EvFetch slug] ++
  match line with
  | Some l => [EvPrint l]
  | None => []
  end ++
  [EvSleep 500].

(** The line due at every hundredth candidate. *)
Definition at100 (i : nat) (l : Insta.line) : option Insta.line :=
  if Nat.eqb ((i + 1) mod 100) 0 then Some l else None.

(** The entry a candidate adds to the Results List, if any. *)
Definition hit_of (fetch : value -> result pystr) (r : Insta.cand)
  : list (pystr * pystr) :=
  match Insta.slug_of r with
  | Ok slug =>
      match fetch slug with
      | Ok html =>
          match Insta.extract html with
          | Ok ig => if truthy (VStr ig) then [(Insta.c_name r, ig)] else []
          | Raise _ => []
          end
      | Raise _ => []
      end
  | Raise _ => []
  end.

(** [sep.join(segs)] for a one-character separator. *)
Fixpoint join (sep : N) (segs : list pystr) : pystr :=
  match segs with
  | [] => []
  | [s] => s
  | s :: rest => s ++ sep :: join sep rest
  end.

(** The one line of the loop that shows the error counter. *)
Definition shows_errors (ev : event Insta.line) : bool :=
  match ev with
  | EvPrint (Insta.LFoundErrors _ _ _ _) => true
  | _ => false
  end.

(** The capture a pattern yields on a page: group 1 of its leftmost match,
    stripped of blanks and then of trailing slashes. *)
Definition yields (p : Re.regex) (html : pystr) : option pystr :=
  match Re.search true p html with
  | Some (Some g) => Some (Re.rstrip (N.eqb (Re.chr "/")) (Re.strip g))
  | _ => None
  end.

(** A pattern that puts something in group 1 whenever it matches. *)
Fixpoint sets_group (r : Re.regex) : bool :=
  match r with
  | Re.RGroup _ => true
  | Re.RSeq r1 r2 => sets_group r1 || sets_group r2
  | _ => false
  end.

(** [Matches ic r w]: the pattern [r] can consume exactly [w]. *)
Inductive Matches (ic : bool) : Re.regex -> pystr -> Prop :=
| M_eps : Matches ic Re.REps []
| M_lit c x : Re.char_eq ic c x = true -> Matches ic (Re.RLit c) [x]
| M_set cs x : Re.set_match ic cs x = true -> Matches ic (Re.RSet cs) [x]
| M_star cs w :
    Forall (fun x => Re.set_match ic cs x = true) w ->
    Matches ic (Re.RStar cs) w
| M_plus cs x w :
    Forall (fun x => Re.set_match ic cs x = true) (x :: w) ->
    Matches ic (Re.RPlus cs) (x :: w)
| M_opt_none r : Matches ic (Re.ROpt r) []
| M_opt_some r w : Matches ic r w -> Matches ic (Re.ROpt r) w
| M_group r w : Matches ic r w -> Matches ic (Re.RGroup r) w
| M_seq r1 r2 w1 w2 :
    Matches ic r1 w1 -> Matches ic r2 w2 ->
    Matches ic (Re.RSeq r1 r2) (w1 ++ w2).

(** [c] occurs in [w]. *)
Definition infix (c w : pystr) : Prop :=
  exists before after, w = before ++ c ++ after.

(** [word] occurs in [text], case ignored. *)
Definition mentions (word text : pystr) : Prop :=
  exists before m after,
    text = before ++ m ++ after /\
    Forall2 (fun c x => Re.char_eq true c x = true) word m.

End ISpec.

(* ================================================================== *)
(** ** Test data *)

Module Examples.

(** The binary64 values of 40.7, -74.0 and 4.8. *)
Definition f40_7 : spec_float := S754_finite false 5728015776061850 (-47).
Definition fm74_0 : spec_float := S754_finite true 5207287069147136 (-46).
Definition f4_8 : spec_float := S754_finite false 5404319552844595 (-50).

Definition carbone_url : value := VStr (str "https://opentable.com/carbone").

Definition carbone_doc : dict :=
  [(str "Carbone", VDict [(str "url", carbone_url)])].

Definition carbone_body : value :=
  VDict [(str "candidates", VList [VDict [
    (str "geometry", VDict [(str "location", VDict [
       (str "lat", VFloat f40_7); (str "lng", VFloat fm74_0)])]);
    (str "rating", VFloat f4_8);
    (str "user_ratings_total", VInt 500);
    (str "place_id", VStr (str "abc123"))]])].

Definition carbone_fetch (name : pystr) : result value := Ok carbone_body.

Definition carbone_enriched : dict :=
  [(str "Carbone", VDict [
     (str "url", carbone_url);
     (str "lat", VFloat f40_7);
     (str "lng", VFloat fm74_0);
     (str "google_rating", VFloat f4_8);
     (str "google_reviews", VInt 500);
     (str "place_id", VStr (str "abc123"))])].

(** A match with no sub-fields at all. *)
Definition bare_body : value :=
  VDict [(str "candidates", VList [VDict []])].

Definition bare_fetch (name : pystr) : result value := Ok bare_body.

Definition carbone_bare : dict :=
  [(str "Carbone", VDict [
     (str "url", carbone_url);
     (str "lat", VNone);
     (str "lng", VNone);
     (str "google_rating", VNone);
     (str "google_reviews", VNone);
     (str "place_id", VNone)])].

(** A store of four records: two to enrich, one already enriched, one
    from another source. *)
Definition mixed_doc : dict :=
  [(str "Carbone", VDict [(str "url", carbone_url)]);
   (str "Le Bernardin",
      VDict [(str "url", VStr (str "https://www.opentable.com/r/le-bernardin"));
             (str "lat", VFloat f40_7);
             (str "instagram", VStr (str "lebernardin"))]);
   (str "Lucali", VDict [(str "url", VStr (str "https://resy.com/lucali"))]);
   (str "Via Carota",
      VDict [(str "url", VStr (str "https://opentable.com/via-carota"));
             (str "slug", VStr (str "via-carota"));
             (str "lat", VInt 0);
             (str "instagram", VStr [])])].

(** A fetch that times out. *)
Definition bad_slug_doc : dict :=
  [(str "Bad Slug",
      VDict [(str "url", VStr (str "https://opentable.com/bad-slug"))])].

Definition timeout : exn := FetchError (str "timed out").

(** A store whose only record has a list for [url] and no [slug]. *)
Definition list_url_doc : dict :=
  [(str "Odd", VDict [(str "url", VList [VStr (str "opentable")])])].

(** A store with a record that is not an object. *)
Definition null_record_doc : dict :=
  [(str "Carbone", VDict [(str "url", carbone_url)]); (str "Gone", VNone)].

Definition timeout_fetch_api (name : pystr) : result value := Raise timeout.
Definition timeout_fetch_page (slug : value) : result pystr := Raise timeout.

(** Pages.  [dq] is the double quote. *)
Definition dq : pystr := [34%N].

(** A reserved path first, a handle in the page data after it. *)
Definition page_explore_then_json : pystr :=
  str "<a href=https://instagram.com/explore>Explore</a> {" ++
  dq ++ str "instagram" ++ dq ++ str ": " ++ dq ++ str "lebernardin" ++ dq ++
  str "}".

(** A handle in the page data first, a link after it. *)
Definition page_json_then_link : pystr :=
  str "{" ++ dq ++ str "instagram" ++ dq ++ str ":" ++ dq ++ str "first" ++ dq ++
  str "} <a href=https://instagram.com/second>".

(** A reserved path first, a link to a handle after it. *)
Definition page_explore_then_link : pystr :=
  str "instagram.com/explore instagram.com/lebernardin".

Definition page_capital_explore : pystr := str "instagram.com/Explore".
Definition page_explore : pystr := str "instagram.com/explore".

Definition page_le_bernardin : pystr :=
  dq ++ str "instagram" ++ dq ++ str ":" ++ dq ++ str "lebernardin" ++ dq.

(** A handle followed by a slash, a blank and a slash. *)
Definition page_slash_blank_slash : pystr :=
  dq ++ str "instagram" ++ dq ++ str ":" ++ dq ++ str "a/ /" ++ dq.

(** A match on the equator. *)
Definition equator_body : value :=
  VDict [(str "candidates", VList [VDict [
    (str "geometry", VDict [(str "location", VDict [
       (str "lat", VFloat (S754_zero false)); (str "lng", VFloat fm74_0)])]);
    (str "place_id", VStr (str "abc123"))]])].

(** A hundred records to enrich, [Restaurant 1] to [Restaurant 100]. *)
Definition numbered (n : nat) : pystr :=
  str "Restaurant " ++ str (NilEmpty.string_of_uint (Nat.to_uint n)).

Definition hundred_doc : dict :=
  map (fun n => (numbered n, VDict [(str "url", carbone_url)])) (seq 1 100).

Definition page_fetch (page : pystr) (slug : value) : result pystr := Ok page.

(** A standard output in UTF-8: every code point but the surrogates. *)
Definition utf8 (c : N) : bool := negb (surrogate c).

(** A store whose only key is a lone surrogate, as [json.load] gives it
    for the escape [\ud800]. *)
Definition surrogate_doc : dict :=
  [([0xD800%N], VDict [(str "url", carbone_url)])].

End Examples.

(* ================================================================== *)
(** ** Facts about strings and dicts *)

Section PyFacts.

Lemma str_eqb_refl s : str_eqb s s = true.
Proof.
  induction s as [|x s IH]; simpl; [reflexivity|].
  now rewrite N.eqb_refl, IH.
Qed.

Lemma str_eqb_eq a b : str_eqb a b = true <-> a = b.
Proof.
  split; [|intros ->; apply str_eqb_refl].
  revert b; induction a as [|x a IH]; intros [|y b]; simpl;
    try discriminate; [reflexivity|].
  rewrite andb_true_iff, N.eqb_eq. intros [-> H]. f_equal. now apply IH.
Qed.

Lemma str_eqb_neq a b : str_eqb a b = false <-> a <> b.
Proof.
  rewrite <- str_eqb_eq. destruct (str_eqb a b); split; congruence.
Qed.

Lemma startswith_spec p s :
  startswith p s = true <-> exists t, s = p ++ t.
Proof.
  revert s; induction p as [|x p IH]; intros s; simpl.
  - split; [intros _; now exists s | reflexivity].
  - destruct s as [|y s].
    + split; [discriminate | intros [t H]; discriminate].
    + rewrite andb_true_iff, N.eqb_eq, IH. split.
      * intros [-> [t ->]]. now exists t.
      * intros [t H]. injection H as -> ->. split; [reflexivity | now exists t].
Qed.

(** [contains] decides the substring relation. *)
Lemma contains_spec needle hay :
  contains needle hay = true <->
  exists before after, hay = before ++ needle ++ after.
Proof.
  induction hay as [|y hay IH].
  - simpl. rewrite orb_false_r, startswith_spec. split.
    + intros [t H]. now exists [], t.
    + intros [b [a H]]. destruct b; [now exists a | discriminate].
  - cbn [contains]. rewrite orb_true_iff, startswith_spec, IH. split.
    + intros [[t H] | [b [a H]]].
      * now exists [], t.
      * exists (y :: b), a. simpl. now rewrite H.
    + intros [[|x b] [a H]].
      * left. now exists a.
      * right. injection H as _ H. now exists b, a.
Qed.

Lemma dict_get_set_same k v d : dict_get k (dict_set k v d) = Some v.
Proof.
  induction d as [|[k' v'] d IH]; simpl.
  - now rewrite str_eqb_refl.
  - destruct (str_eqb k k') eqn:E; simpl; now rewrite E.
Qed.

Lemma dict_get_set_other k k' v d :
  k' <> k -> dict_get k' (dict_set k v d) = dict_get k' d.
Proof.
  intros Hne. induction d as [|[k0 v0] d IH]; simpl.
  - apply str_eqb_neq in Hne. now rewrite Hne.
  - destruct (str_eqb k k0) eqn:E; simpl.
    + apply str_eqb_eq in E. subst k0.
      apply str_eqb_neq in Hne. now rewrite Hne.
    + destruct (str_eqb k' k0); [reflexivity | exact IH].
Qed.

Lemma keys_dict_set_present k v d x :
  dict_get k d = Some x -> keys (dict_set k v d) = keys d.
Proof.
  induction d as [|[k0 v0] d IH]; simpl; [discriminate|].
  destruct (str_eqb k k0) eqn:E; simpl; [reflexivity|].
  intros H. f_equal. now apply IH.
Qed.

(** Storing the value a key already has changes nothing. *)
Lemma dict_set_same k v d : dict_get k d = Some v -> dict_set k v d = d.
Proof.
  induction d as [|[k0 v0] d IH]; simpl; [discriminate|].
  destruct (str_eqb k k0) eqn:E.
  - now intros [= ->].
  - intros H. f_equal. now apply IH.
Qed.

Lemma dict_get_In k d v : dict_get k d = Some v -> In (k, v) d.
Proof.
  induction d as [|[k0 v0] d IH]; simpl; [discriminate|].
  destruct (str_eqb k k0) eqn:E.
  - apply str_eqb_eq in E. subst k0. intros [= ->]. now left.
  - intros H. right. now apply IH.
Qed.

Lemma dict_get_keys k d : In k (keys d) -> exists v, dict_get k d = Some v.
Proof.
  induction d as [|[k0 v0] d IH]; simpl; [intros []|].
  destruct (str_eqb k k0) eqn:E.
  - intros _. now exists v0.
  - intros [H | H]; [|now apply IH].
    subst k0. now rewrite str_eqb_refl in E.
Qed.

Lemma dict_get_NoDup k v d :
  NoDup (keys d) -> In (k, v) d -> dict_get k d = Some v.
Proof.
  induction d as [|[k0 v0] d IH]; simpl; [intros _ []|].
  intros Hnd [H | H].
  - injection H as -> ->. now rewrite str_eqb_refl.
  - inversion Hnd as [|? ? Hnotin Hnd']; subst.
    destruct (str_eqb k k0) eqn:E.
    + apply str_eqb_eq in E. subst k0. exfalso. apply Hnotin.
      change k with (fst (k, v)). now apply in_map.
    + now apply IH.
Qed.

End PyFacts.

(* ================================================================== *)
(** ** The filter *)

Section FilterFacts.

Import Spec.

Variable target : pystr.

(** On a record of the expected shape the test of line 9 does not raise,
    and it holds exactly when the record is selected. *)
Lemma needs_selected v :
  record_shape v = true ->
  exists b, Filter.needs target v = Ok b /\ (b = true <-> selected target v).
Proof.
  destruct v as [| | | | |l|rd]; simpl; try discriminate.
  unfold Filter.needs, py_get, rbind.
  destruct (dict_get (str "url") rd) as [u|] eqn:Eu.
  - destruct u as [| | | |u| |]; try discriminate. intros _.
    cbn [py_in]. destruct (contains (str "opentable") u) eqn:Ec.
    + eexists; split; [reflexivity|].
      rewrite negb_true_iff. split.
      * intros Ht. split.
        -- apply contains_spec in Ec. destruct Ec as [b [a Hu]].
           now exists rd, u, b, a.
        -- exists rd. split; [reflexivity|].
           destruct (dict_get target rd) as [t|]; [right; now exists t | now left].
      * intros [_ [rd' [[= <-] [Hn | [t [Ht Hf]]]]]].
        -- now rewrite Hn.
        -- now rewrite Ht.
    + exists false. split; [reflexivity|]. split; [discriminate|].
      intros [[rd' [u' [b [a [[= <-] [Hu Hs]]]]]] _].
      rewrite Eu in Hu. injection Hu as <-.
      assert (contains (str "opentable") u = true) as Hc
        by (apply contains_spec; now exists b, a).
      congruence.
  - intros _. exists false. split; [reflexivity|]. split; [discriminate|].
    intros [[rd' [u' [b [a [[= <-] [Hu _]]]]]] _]. congruence.
Qed.

Lemma Kept_In P doc kept :
  Kept P doc kept ->
  forall name v, In (name, v) kept -> In (name, v) doc /\ P v.
Proof.
  induction 1 as [|k v doc kept Hp _ IH|k v doc kept Hp _ IH];
    intros name v0; simpl.
  - intros [].
  - intros [[= -> ->] | H]; [now split; [left|] |].
    destruct (IH _ _ H). split; [now right | assumption].
  - intros H. destruct (IH _ _ H). split; [now right | assumption].
Qed.

Lemma Kept_In_conv P doc kept :
  Kept P doc kept ->
  forall name v, In (name, v) doc -> P v -> In (name, v) kept.
Proof.
  induction 1 as [|k v doc kept Hp _ IH|k v doc kept Hp _ IH];
    intros name v0; simpl.
  - intros [].
  - intros [[= -> ->] | H] Hv; [now left | right; now apply IH].
  - intros [[= -> ->] | H] Hv; [contradiction | now apply IH].
Qed.

End FilterFacts.

Section FilterLoops.

Import Spec.

Lemma google_filter_loop_kept doc :
  store_shape doc = true ->
  exists kept,
    Kept (selected (str "lat")) doc kept /\
    forall acc, Google.filter_loop doc acc = Ok (acc ++ keys kept).
Proof.
  unfold store_shape.
  induction doc as [|[name v] doc IH]; simpl.
  - intros _. exists []. split; [constructor|]. intros acc.
    now rewrite app_nil_r.
  - rewrite andb_true_iff. intros [Hv Hdoc].
    destruct (IH Hdoc) as [kept [HK Hloop]].
    destruct (needs_selected (str "lat") v Hv) as [b [Hb Hiff]].
    rewrite Hb. cbn [rbind]. destruct b.
    + exists ((name, v) :: kept). split.
      * constructor; [now apply Hiff | assumption].
      * intros acc. rewrite Hloop. simpl. now rewrite <- app_assoc.
    + exists kept. split.
      * apply Kept_skip; [|assumption]. intros Hs. apply Hiff in Hs.
        discriminate.
      * intros acc. apply Hloop.
Qed.

Lemma insta_filter_loop_kept doc :
  store_shape doc = true ->
  exists kept,
    Kept (selected (str "instagram")) doc kept /\
    forall acc, exists cands,
      Insta.filter_loop doc acc = Ok (acc ++ cands) /\
      map Insta.c_name cands = keys kept.
Proof.
  unfold store_shape.
  induction doc as [|[name v] doc IH]; simpl.
  - intros _. exists []. split; [constructor|]. intros acc. exists [].
    now rewrite app_nil_r.
  - rewrite andb_true_iff. intros [Hv Hdoc].
    destruct (IH Hdoc) as [kept [HK Hloop]].
    destruct (needs_selected (str "instagram") v Hv) as [b [Hb Hiff]].
    rewrite Hb. cbn [rbind]. destruct b.
    + exists ((name, v) :: kept). split.
      * constructor; [now apply Hiff | assumption].
      * intros acc.
        destruct (proj1 Hiff eq_refl) as [[rd [u [bf [af [-> [Hu _]]]]]] _].
        cbn [py_getitem py_get rbind]. rewrite Hu.
        cbn [rbind].
        match goal with
        | |- context [Insta.mkCand name (VStr u) ?sl] =>
            set (c := Insta.mkCand name (VStr u) sl)
        end.
        destruct (Hloop (acc ++ [c])) as [cands [Hl Hn]].
        exists (c :: cands). split.
        -- rewrite Hl. now rewrite <- app_assoc.
        -- simpl. now rewrite Hn.
    + exists kept. split.
      * apply Kept_skip; [|assumption]. intros Hs. apply Hiff in Hs.
        discriminate.
      * intros acc. apply Hloop.
Qed.

(** C1.  On a store whose records have the shape of the input file, both
    filter loops succeed, and the candidates they return are, in the
    iteration order of the store, exactly the entries whose [url] contains
    ['opentable'] and whose target field ([lat], resp. [instagram]) is
    absent or falsy.  In particular an entry whose target field is truthy
    is not a candidate, whatever its [url]. *)
Theorem filter_correctness doc :
  store_shape doc = true ->
  exists kept_lat kept_ig cands,
    Google.filter_loop doc [] = Ok (keys kept_lat) /\
    Insta.filter_loop doc [] = Ok cands /\
    map Insta.c_name cands = keys kept_ig /\
    Kept (selected (str "lat")) doc kept_lat /\
    Kept (selected (str "instagram")) doc kept_ig /\
    (forall name v, In (name, v) doc ->
       (In (name, v) kept_lat <-> selected (str "lat") v) /\
       (In (name, v) kept_ig <-> selected (str "instagram") v)) /\
    (forall name rd t, In (name, VDict rd) doc -> truthy t = true ->
       (dict_get (str "lat") rd = Some t -> ~ In (name, VDict rd) kept_lat) /\
       (dict_get (str "instagram") rd = Some t ->
        ~ In (name, VDict rd) kept_ig)).
Proof.
  intros Hshape.
  destruct (google_filter_loop_kept doc Hshape) as [kl [HKl Hl]].
  destruct (insta_filter_loop_kept doc Hshape) as [ki [HKi Hi]].
  destruct (Hi []) as [cands [Hc Hn]].
  exists kl, ki, cands.
  split; [apply Hl|]. do 4 (split; [assumption|]). split.
  - intros name v Hdoc. split; split; intros H.
    + now apply (Kept_In _ _ _ HKl) in H.
    + now apply (Kept_In_conv _ _ _ HKl).
    + now apply (Kept_In _ _ _ HKi) in H.
    + now apply (Kept_In_conv _ _ _ HKi).
  - intros name rd t Hdoc Ht. split; intros Hg Hin.
    + apply (Kept_In _ _ _ HKl) in Hin.
      destruct Hin as [_ [_ [rd' [[= <-] [Hnone | [t' [Ht' Hf]]]]]]];
        congruence.
    + apply (Kept_In _ _ _ HKi) in Hin.
      destruct Hin as [_ [_ [rd' [[= <-] [Hnone | [t' [Ht' Hf]]]]]]];
        congruence.
Qed.

End FilterLoops.

(* ================================================================== *)
(** ** [ot_google.py]: one turn of the loop *)

Section GoogleFacts.

Import Spec GSpec Google.

Variable urlopen : pystr -> result value.

Lemma dict_set_set k v w d : dict_set k v (dict_set k w d) = dict_set k v d.
Proof.
  induction d as [|[k0 v0] d IH]; simpl.
  - now rewrite str_eqb_refl.
  - destruct (str_eqb k k0) eqn:E; simpl; rewrite E; [reflexivity|].
    now rewrite IH.
Qed.

Lemma set_entry_ok name k v st rd :
  dict_get name (lookup st) = Some (VDict rd) ->
  set_entry name k v st =
  (Ok tt, mkState (dict_set name (VDict (dict_set k v rd)) (lookup st))
                  (hits st) (errors st) (out st)).
Proof. intros H. unfold set_entry. now rewrite H. Qed.

Lemma location_of_get cd ld :
  location_of (VDict cd) = Some ld ->
  (g <- py_get (VDict cd) (str "geometry") (VDict []) ;;
   py_get g (str "location") (VDict [])) = Ok (VDict ld).
Proof.
  cbn [location_of py_get rbind].
  destruct (dict_get (str "geometry") cd) as [[| | | | | |gd]|];
    try discriminate.
  - cbn [py_get].
    destruct (dict_get (str "location") gd) as [[| | | | | |ld']|];
      try discriminate; now intros [= ->].
  - now intros [= <-].
Qed.

(** Line 19 raises exactly on a name that holds a surrogate. *)
Lemma quote_query name :
  quote (query name)
  = if existsb surrogate name then Raise UnicodeEncodeError else Ok tt.
Proof.
  unfold quote, query. rewrite existsb_app.
  change (existsb surrogate (str " restaurant NYC")) with false.
  now rewrite orb_false_r.
Qed.

(** A request is made unless the name holds a surrogate. *)
Lemma sent_eq name :
  sent name = if existsb surrogate name then [] else [VStr name].
Proof.
  unfold sent. rewrite quote_query. now destruct (existsb surrogate name).
Qed.

Lemma fetch_eq name :
  fetch urlopen name
  = if existsb surrogate name then Raise UnicodeEncodeError
    else urlopen name.
Proof.
  unfold fetch. rewrite quote_query. now destruct (existsb surrogate name).
Qed.

(** Lines 19-23 give what [fetch] says and log the request they made. *)
Lemma do_fetch_eq name st :
  do_fetch urlopen name st = (fetch urlopen name, fetched name st).
Proof.
  unfold do_fetch, fetch, fetched, sent, bind, lift, emit.
  destruct (quote (query name)) as [[]|e]; cbn [rbind map]; [reflexivity|].
  rewrite app_nil_r. now destruct st.
Qed.

(** A body was received only if the request was made. *)
Lemma fetch_ok_sent name d :
  fetch urlopen name = Ok d -> sent name = [VStr name].
Proof.
  unfold fetch, sent. now destruct (quote (query name)).
Qed.

Lemma try_body_hit i total name st dd cd rest ld rd :
  fetch urlopen name = Ok (VDict dd) ->
  dict_get (str "candidates") dd = Some (VList (VDict cd :: rest)) ->
  location_of (VDict cd) = Some ld ->
  dict_get name (lookup st) = Some (VDict rd) ->
  try_body urlopen i total name st =
  progress i total None
    (mkState (dict_set name (VDict (enriched ld cd rd)) (lookup st))
             (S (hits st)) (errors st) (out st ++ [EvFetch (VStr name)])).
Proof.
  intros Hf Hc Hl Hn.
  unfold try_body, bind, lift. rewrite do_fetch_eq, Hf.
  unfold fetched. rewrite (fetch_ok_sent _ _ Hf).
  cbn [py_get py_getitem rbind map]. rewrite Hc.
  cbn [truthy List.length Nat.eqb negb py_len rbind ret Nat.ltb Nat.leb
       py_index0].
  rewrite (location_of_get _ _ Hl).
  unfold get_entry. cbn [emit lookup]. rewrite Hn. cbn [py_get].
  rewrite (set_entry_ok _ _ _ _ rd) by exact Hn.
  repeat (erewrite set_entry_ok by (cbn [lookup]; apply dict_get_set_same);
          cbn [lookup hits errors out]; rewrite dict_set_set).
  reflexivity.
Qed.

Lemma location_of_none cd :
  location_of (VDict cd) = None ->
  (exists e, (g <- py_get (VDict cd) (str "geometry") (VDict []) ;;
              py_get g (str "location") (VDict [])) = Raise e) \/
  (exists v, (g <- py_get (VDict cd) (str "geometry") (VDict []) ;;
              py_get g (str "location") (VDict [])) = Ok v /\
             forall k dflt, py_get v k dflt = Raise AttributeError).
Proof.
  cbn [location_of py_get rbind].
  destruct (dict_get (str "geometry") cd) as [[| | | | | |gd]|];
    try discriminate; try (intros _; left; now eexists).
  cbn [py_get].
  destruct (dict_get (str "location") gd) as [[| | | | | |ld']|];
    try discriminate; intros _; right; eexists; split; reflexivity.
Qed.

Ltac run_try Hf :=
  unfold try_body, bind, lift; rewrite do_fetch_eq, Hf; unfold fetched;
  cbn [py_get py_getitem rbind].

Ltac run_cands Hc :=
  rewrite ?Hc;
  cbn [truthy List.length Nat.eqb negb py_len rbind ret Nat.ltb Nat.leb
       py_index0].

Lemma try_body_cases i total name st :
  (exists e, try_body urlopen i total name st = (Raise e, fetched name st))
  \/ try_body urlopen i total name st = progress i total None (fetched name st)
  \/ (exists dd cd rest ld rd,
        fetch urlopen name = Ok (VDict dd) /\
        dict_get (str "candidates") dd = Some (VList (VDict cd :: rest)) /\
        location_of (VDict cd) = Some ld /\
        dict_get name (lookup st) = Some (VDict rd)).
Proof.
  destruct (fetch urlopen name) as [d|e] eqn:Hf;
    [| left; exists e; now run_try Hf].
  destruct d as [| | | | | |dd];
    try (left; eexists; now run_try Hf).
  destruct (dict_get (str "candidates") dd) as [cs|] eqn:Hc;
    [| right; left; run_try Hf; now run_cands Hc].
  destruct cs as [|b|z|f|s|l|cds].
  - right; left. run_try Hf. now run_cands Hc.
  - destruct b; [left; eexists | right; left]; run_try Hf; now run_cands Hc.
  - destruct (Z.eqb z 0) eqn:Hz; [right; left | left; eexists];
      run_try Hf; rewrite Hc; cbn [truthy]; rewrite Hz; reflexivity.
  - destruct f; [right; left | left; eexists ..]; run_try Hf; now run_cands Hc.
  - destruct s; [right; left | left; eexists]; run_try Hf; now run_cands Hc.
  - destruct l as [|c rest]; [right; left; run_try Hf; now run_cands Hc|].
    destruct c as [| | | | | |cd];
      try (left; eexists; run_try Hf; now run_cands Hc).
    destruct (location_of (VDict cd)) as [ld|] eqn:Hl.
    + destruct (dict_get name (lookup st)) as [entry|] eqn:Hn.
      * destruct entry as [| | | | | |rd];
          try (left; eexists; run_try Hf; run_cands Hc;
               rewrite (location_of_get _ _ Hl);
               unfold get_entry, set_entry;
               repeat (cbn [emit lookup py_get]; rewrite Hn);
               reflexivity).
        right; right. now exists dd, cd, rest, ld, rd.
      * left; eexists. run_try Hf. run_cands Hc.
        rewrite (location_of_get _ _ Hl).
        unfold get_entry; cbn [emit lookup]; rewrite Hn. reflexivity.
    + left. destruct (location_of_none _ Hl) as [[e He] | [v [He Hv]]].
      * exists e. run_try Hf. run_cands Hc. now rewrite He.
      * destruct (dict_get name (lookup st)) as [entry|] eqn:Hn;
          eexists; run_try Hf; run_cands Hc; rewrite He;
          unfold get_entry; cbn [emit lookup]; rewrite Hn, ?Hv; reflexivity.
  - destruct cds; [right; left | left; eexists]; run_try Hf; now run_cands Hc.
Qed.


(** With the entry in place, the branch taken is the one [outcome_of]
    names. *)
Lemma try_body_outcome i total name st rd :
  dict_get name (lookup st) = Some (VDict rd) ->
  match outcome_of (fetch urlopen name) with
  | Error => exists e, try_body urlopen i total name st = (Raise e, fetched name st)
  | NoHit => try_body urlopen i total name st = progress i total None (fetched name st)
  | Hit => exists dd cd rest ld,
      fetch urlopen name = Ok (VDict dd) /\
      dict_get (str "candidates") dd = Some (VList (VDict cd :: rest)) /\
      location_of (VDict cd) = Some ld
  end.
Proof.
  intros Hn. unfold outcome_of.
  destruct (fetch urlopen name) as [d|e] eqn:Hf; [| exists e; now run_try Hf].
  destruct d as [| | | | | |dd]; try (eexists; now run_try Hf).
  destruct (dict_get (str "candidates") dd) as [cs|] eqn:Hc;
    [| run_try Hf; now run_cands Hc].
  destruct cs as [|b|z|f|s|l|cds].
  - run_try Hf. now run_cands Hc.
  - destruct b; [eexists|]; run_try Hf; now run_cands Hc.
  - cbn [truthy]. destruct (Z.eqb z 0) eqn:Hz; cbn [negb]; [|eexists];
      run_try Hf; rewrite Hc; cbn [truthy]; rewrite Hz; reflexivity.
  - destruct f; cbn [truthy]; [|eexists ..]; run_try Hf; now run_cands Hc.
  - destruct s; cbn [truthy List.length Nat.eqb negb]; [|eexists];
      run_try Hf; now run_cands Hc.
  - destruct l as [|c rest]; cbn [truthy List.length Nat.eqb negb];
      [run_try Hf; now run_cands Hc|].
    destruct c as [| | | | | |cd];
      try (cbn [location_of]; eexists; run_try Hf; now run_cands Hc).
    destruct (location_of (VDict cd)) as [ld|] eqn:Hl.
    + now exists dd, cd, rest, ld.
    + destruct (location_of_none _ Hl) as [[e He] | [v [He Hv]]].
      * exists e. run_try Hf. run_cands Hc. now rewrite He.
      * eexists; run_try Hf; run_cands Hc; rewrite He;
          unfold get_entry; cbn [emit lookup]; rewrite Hn, ?Hv; reflexivity.
  - destruct cds; cbn [truthy List.length Nat.eqb negb]; [|eexists];
      run_try Hf; now run_cands Hc.
Qed.

(** *** One turn of the loop *)

Lemma progress_eq i total e st :
  progress i total e st =
  (Ok tt, mkState (lookup st) (hits st) (errors st)
     (out st ++ if Nat.eqb ((i + 1) mod 50) 0
                then [EvPrint (LProgress (i + 1) total (hits st) (errors st) e)]
                else [])).
Proof.
  unfold progress, modify. destruct (Nat.eqb ((i + 1) mod 50) 0).
  - reflexivity.
  - rewrite app_nil_r. now destruct st.
Qed.

(** A turn that ends in the [except] clause. *)
Lemma iteration_error total i name st e st1 :
  try_body urlopen i total name st = (Raise e, st1) ->
  iteration urlopen total i name st =
  mkState (lookup st) (hits st) (S (errors st))
    (out st ++ turn_events total i name (hits st) (S (errors st)) (Some e)).
Proof.
  intros Hr. unfold iteration. rewrite Hr.
  destruct (try_body_cases i total name st)
    as [[e' Ha] | [Hb | [dd [cd [rest [ld [rd [Hf [Hc [Hl Hn]]]]]]]]]].
  - rewrite Ha in Hr. injection Hr as -> <-.
    unfold bind, incr_errors, modify. cbn [snd]. rewrite progress_eq.
    unfold fetched, emit, turn_events. cbn [lookup hits errors out snd].
    now rewrite <- !app_assoc.
  - rewrite Hb, progress_eq in Hr. discriminate.
  - rewrite (try_body_hit _ _ _ _ _ _ _ _ _ Hf Hc Hl Hn), progress_eq in Hr.
    discriminate.
Qed.

Lemma iteration_outcome total i name st rd :
  dict_get name (lookup st) = Some (VDict rd) ->
  let st' := iteration urlopen total i name st in
  match outcome_of (fetch urlopen name) with
  | Error =>
      lookup st' = lookup st /\ hits st' = hits st /\
      errors st' = S (errors st) /\
      exists e, out st' =
        out st ++ turn_events total i name (hits st') (errors st') (Some e)
  | NoHit =>
      lookup st' = lookup st /\ hits st' = hits st /\
      errors st' = errors st /\
      out st' = out st ++ turn_events total i name (hits st') (errors st') None
  | Hit =>
      hits st' = S (hits st) /\ errors st' = errors st /\
      out st' = out st ++ turn_events total i name (hits st') (errors st') None /\
      exists dd cd rest ld,
        fetch urlopen name = Ok (VDict dd) /\
        dict_get (str "candidates") dd = Some (VList (VDict cd :: rest)) /\
        location_of (VDict cd) = Some ld /\
        lookup st' = dict_set name (VDict (enriched ld cd rd)) (lookup st)
  end.
Proof.
  intros Hn st'. pose proof (try_body_outcome i total name st rd Hn) as H.
  destruct (outcome_of (fetch urlopen name)).
  - destruct H as [dd [cd [rest [ld [Hf [Hc Hl]]]]]].
    subst st'. unfold iteration.
    rewrite (try_body_hit _ _ _ _ _ _ _ _ _ Hf Hc Hl Hn), progress_eq.
    unfold emit, turn_events. rewrite (fetch_ok_sent _ _ Hf).
    cbn [lookup hits errors out map].
    repeat split; [now rewrite <- !app_assoc|].
    now exists dd, cd, rest, ld.
  - subst st'. unfold iteration. rewrite H, progress_eq.
    unfold fetched, emit, turn_events. cbn [lookup hits errors out].
    repeat split. now rewrite <- !app_assoc.
  - destruct H as [e H]. subst st'.
    rewrite (iteration_error _ _ _ _ _ _ H). cbn [lookup hits errors out].
    repeat split. now exists e.
Qed.

End GoogleFacts.

(* ================================================================== *)
(** ** [ot_google.py]: the loop *)

Section GoogleLoop.

Import Spec GSpec Google.

Variable urlopen : pystr -> result value.

Lemma count_cons o x l :
  count o (x :: l) = (if outcome_eqb o x then 1 else 0) + count o l.
Proof. unfold count. simpl. now destruct (outcome_eqb o x). Qed.

Lemma count_total l : count Hit l + count NoHit l + count Error l = List.length l.
Proof.
  induction l as [|x l IH]; [reflexivity|].
  rewrite !count_cons. destruct x; simpl; lia.
Qed.

Lemma dict_get_set_dict name x n d :
  (exists rd, dict_get n d = Some (VDict rd)) ->
  exists rd, dict_get n (dict_set name (VDict x) d) = Some (VDict rd).
Proof.
  intros H. destruct (str_eqb n name) eqn:E.
  - apply str_eqb_eq in E. subst n. exists x. apply dict_get_set_same.
  - apply str_eqb_neq in E. now rewrite dict_get_set_other.
Qed.

Lemma iteration_entries total i name st names :
  entries (name :: names) st ->
  entries names (iteration urlopen total i name st).
Proof.
  intros He n Hn.
  destruct (He name (or_introl eq_refl)) as [rd Hrd].
  pose proof (iteration_outcome urlopen total i name st rd Hrd) as H.
  cbv zeta in H.
  destruct (outcome_of (fetch urlopen name)).
  - destruct H as [_ [_ [_ [dd [cd [rest [ld [_ [_ [_ ->]]]]]]]]]].
    apply dict_get_set_dict. apply He. now right.
  - destruct H as [-> _]. apply He. now right.
  - destruct H as [-> _]. apply He. now right.
Qed.

Lemma iteration_keys total i name st rd :
  dict_get name (lookup st) = Some (VDict rd) ->
  keys (lookup (iteration urlopen total i name st)) = keys (lookup st).
Proof.
  intros Hrd.
  pose proof (iteration_outcome urlopen total i name st rd Hrd) as H.
  cbv zeta in H.
  destruct (outcome_of (fetch urlopen name)).
  - destruct H as [_ [_ [_ [dd [cd [rest [ld [_ [_ [_ ->]]]]]]]]]].
    eapply keys_dict_set_present. eassumption.
  - now destruct H as [-> _].
  - now destruct H as [-> _].
Qed.

(** The counters after the loop: one hit per [Hit], one error per
    [Error]; the keys of the store are as before. *)
Lemma loop_counters names : forall total i st,
  entries names st ->
  let os := map (fun n => outcome_of (fetch urlopen n)) names in
  let st' := loop urlopen total i names st in
  hits st' = hits st + count Hit os /\
  errors st' = errors st + count Error os /\
  keys (lookup st') = keys (lookup st).
Proof.
  induction names as [|name names IH]; intros total i st He; cbn zeta.
  - simpl. unfold count. simpl. repeat split; lia.
  - cbn [loop map]. rewrite !count_cons.
    destruct (He name (or_introl eq_refl)) as [rd Hrd].
    pose proof (iteration_entries total i name st names He) as He'.
    destruct (IH total (S i) _ He') as [Hh [Herr Hk]].
    rewrite Hh, Herr, Hk. clear Hh Herr Hk.
    rewrite (iteration_keys total i name st rd Hrd).
    pose proof (iteration_outcome urlopen total i name st rd Hrd) as H.
    cbv zeta in H.
    destruct (outcome_of (fetch urlopen name)); cbn [outcome_eqb].
    + destruct H as [-> [-> _]]. repeat split; lia.
    + destruct H as [_ [-> [-> _]]]. repeat split; lia.
    + destruct H as [_ [-> [-> _]]]. repeat split; lia.
Qed.

(** A turn leaves the records of the other names alone. *)
Lemma iteration_other total i name st rd n :
  dict_get name (lookup st) = Some (VDict rd) -> n <> name ->
  dict_get n (lookup (iteration urlopen total i name st))
  = dict_get n (lookup st).
Proof.
  intros Hrd Hne.
  pose proof (iteration_outcome urlopen total i name st rd Hrd) as H.
  cbv zeta in H.
  destruct (outcome_of (fetch urlopen name)).
  - destruct H as [_ [_ [_ [dd [cd [rest [ld [_ [_ [_ ->]]]]]]]]]].
    now apply dict_get_set_other.
  - now destruct H as [-> _].
  - now destruct H as [-> _].
Qed.

(** The store after the loop, name by name. *)
Lemma loop_final names : forall total i st,
  NoDup names -> entries names st ->
  let st' := loop urlopen total i names st in
  (forall n, In n names ->
     exists rd0,
       dict_get n (lookup st) = Some (VDict rd0) /\
       match outcome_of (fetch urlopen n) with
       | Hit =>
           exists dd cd rest ld,
             fetch urlopen n = Ok (VDict dd) /\
             dict_get (str "candidates") dd
               = Some (VList (VDict cd :: rest)) /\
             location_of (VDict cd) = Some ld /\
             dict_get n (lookup st') = Some (VDict (enriched ld cd rd0))
       | _ => dict_get n (lookup st') = Some (VDict rd0)
       end) /\
  (forall n, ~ In n names -> dict_get n (lookup st') = dict_get n (lookup st)).
Proof.
  induction names as [|name names IH]; intros total i st Hnd He; cbv zeta;
    cbn [loop].
  - split; [intros n [] | reflexivity].
  - apply NoDup_cons_iff in Hnd. destruct Hnd as [Hnotin Hnd'].
    destruct (He name (or_introl eq_refl)) as [rd Hrd].
    pose proof (iteration_entries total i name st names He) as He'.
    destruct (IH total (S i) _ Hnd' He') as [H1 H2].
    split.
    + intros n [<- | Hn].
      * exists rd. split; [assumption|]. rewrite (H2 _ Hnotin).
        pose proof (iteration_outcome urlopen total i name st rd Hrd) as H.
        cbv zeta in H.
        destruct (outcome_of (fetch urlopen name)).
        -- destruct H as [_ [_ [_ [dd [cd [rest [ld [Hf [Hc [Hl ->]]]]]]]]]].
           exists dd, cd, rest, ld. repeat split; try assumption.
           apply dict_get_set_same.
        -- destruct H as [-> _]. assumption.
        -- destruct H as [-> _]. assumption.
      * assert (n <> name) as Hne by (intros ->; contradiction).
        destruct (H1 n Hn) as [rd0 [Ha Hb]]. exists rd0.
        rewrite (iteration_other total i name st rd n Hrd Hne) in Ha.
        split; assumption.
    + intros n Hn. rewrite H2 by (intros Hin; apply Hn; now right).
      apply (iteration_other total i name st rd n Hrd).
      intros ->. apply Hn. now left.
Qed.

Lemma needs_dict target v b :
  Filter.needs target v = Ok b -> exists rd, v = VDict rd.
Proof.
  destruct v; try discriminate. intros _. now eexists.
Qed.

Lemma filter_loop_names doc : forall acc names,
  filter_loop doc acc = Ok names ->
  Forall (fun kv => exists rd, snd kv = VDict rd) doc /\
  forall n, In n names -> In n acc \/ In n (keys doc).
Proof.
  induction doc as [|[name v] doc IH]; intros acc names; simpl.
  - intros [= <-]. split; [constructor | now left].
  - destruct (Filter.needs (str "lat") v) as [b|e] eqn:Hb; [|discriminate].
    cbn [rbind]. intros Hl. apply IH in Hl. destruct Hl as [Hf Hin].
    split.
    + constructor; [|assumption]. exact (needs_dict _ _ _ Hb).
    + intros n Hn. destruct (Hin n Hn) as [H | H]; [|now right; right].
      destruct b; [|now left].
      apply in_app_or in H. destruct H as [H | [-> | []]];
        [now left | right; now left].
Qed.

Lemma filter_loop_entries doc names hs es o :
  filter_loop doc [] = Ok names ->
  entries names (mkState doc hs es o).
Proof.
  intros Hl n Hn. apply filter_loop_names in Hl. destruct Hl as [Hf Hin].
  destruct (Hin n Hn) as [[] | Hk].
  destruct (dict_get_keys _ _ Hk) as [v Hv]. cbn [lookup]. rewrite Hv.
  apply dict_get_In in Hv. rewrite Forall_forall in Hf.
  destruct (Hf _ Hv) as [rd Hrd]. cbn [snd] in Hrd. subst v. now exists rd.
Qed.

End GoogleLoop.

(* ================================================================== *)
(** ** [ot_insta.py]: matching and extraction *)

Section ReFacts.

Import Re.

Variable ignorecase : bool.
Variable A : Type.

Lemma repeat_one_inv cs s (k : pystr -> option A) a :
  repeat_one ignorecase A cs s k = Some a -> exists s', k s' = Some a.
Proof.
  induction s as [|x s IH]; simpl.
  - intros H. now exists [].
  - destruct (set_match ignorecase cs x); [|intros H; now exists (x :: s)].
    destruct (repeat_one ignorecase A cs s k) as [a'|] eqn:E.
    + intros [= ->]. now apply IH.
    + intros H. now exists (x :: s).
Qed.

(** Whatever a match hands to what follows has group 1 set, once the
    pattern holds a group or the group was set before. *)
Lemma exec_group r : forall s g k a,
  exec ignorecase A r s g k = Some a ->
  exists s' g', k s' g' = Some a /\
    (ISpec.sets_group r = true \/ g <> None -> g' <> None).
Proof.
  induction r as [|c|cs|cs|cs|r IH|r IH|r1 IH1 r2 IH2]; intros s g k a; simpl.
  - intros H. exists s, g. split; [assumption|]. now intros [|].
  - destruct s as [|x s]; [discriminate|].
    destruct (char_eq ignorecase c x); [|discriminate].
    intros H. exists s, g. split; [assumption|]. now intros [|].
  - destruct s as [|x s]; [discriminate|].
    destruct (set_match ignorecase cs x); [|discriminate].
    intros H. exists s, g. split; [assumption|]. now intros [|].
  - intros H. apply repeat_one_inv in H. destruct H as [s' H].
    exists s', g. split; [assumption|]. now intros [|].
  - destruct s as [|x s]; [discriminate|].
    destruct (set_match ignorecase cs x); [|discriminate].
    intros H. apply repeat_one_inv in H. destruct H as [s' H].
    exists s', g. split; [assumption|]. now intros [|].
  - destruct (exec ignorecase A r s g k) as [a'|] eqn:E.
    + intros [= ->]. destruct (IH _ _ _ _ E) as [s' [g' [Hk Hg]]].
      exists s', g'. split; [assumption|].
      intros [|Hn]; [discriminate | apply Hg; now right].
    + intros H. exists s, g. split; [assumption|]. now intros [|].
  - intros H. destruct (IH _ _ _ _ H) as [s' [g' [Hk _]]].
    eexists s', _. split; [exact Hk | discriminate].
  - intros H. destruct (IH1 _ _ _ _ H) as [s1 [g1 [H1 Hg1]]].
    destruct (IH2 _ _ _ _ H1) as [s2 [g2 [H2 Hg2]]].
    exists s2, g2. split; [assumption|].
    rewrite orb_true_iff. intros [[Hs | Hs] | Hn]; apply Hg2.
    + right. apply Hg1. now left.
    + now left.
    + right. apply Hg1. now right.
Qed.

End ReFacts.

Section ExtractFacts.

Import Re Insta ISpec.

Lemma search_group ic r s m :
  sets_group r = true -> search ic r s = Some m -> m <> None.
Proof.
  intros Hs. induction s as [|x s IH]; simpl.
  - destruct (exec ic match_ r [] None _) as [m'|] eqn:E; [|discriminate].
    intros [= ->]. apply exec_group in E.
    destruct E as [s' [g' [[= ->] Hg]]]. apply Hg. now left.
  - destruct (exec ic match_ r (x :: s) None _) as [m'|] eqn:E; [|exact IH].
    intros [= ->]. apply exec_group in E.
    destruct E as [s' [g' [[= ->] Hg]]]. apply Hg. now left.
Qed.

Lemma patterns_set_group : forallb sets_group patterns = true.
Proof. reflexivity. Qed.

(** What the loop over the patterns returns, from [ig] empty: the capture
    of the first pattern, in order, that yields an accepted one; the empty
    string when none does. *)
Lemma for_patterns_spec html : forall ps,
  forallb sets_group ps = true ->
  (for_patterns ps html [] = Ok [] /\
   forall p, In p ps ->
     yields p html = None \/
     exists c, yields p html = Some c /\ accepted c = false)
  \/
  (exists before p after ig,
     ps = before ++ p :: after /\
     for_patterns ps html [] = Ok ig /\
     yields p html = Some ig /\ accepted ig = true /\
     forall q, In q before ->
       yields q html = None \/
       exists c, yields q html = Some c /\ accepted c = false).
Proof.
  induction ps as [|p ps IH]; cbn [forallb]; intros Hs.
  - left. split; [reflexivity | intros p []].
  - apply andb_true_iff in Hs. destruct Hs as [Hp Hps].
    specialize (IH Hps). cbn [for_patterns]. unfold yields at 1 3 5.
    destruct (search true p html) as [m|] eqn:Em.
    + pose proof (search_group _ _ _ _ Hp Em) as Hm.
      destruct m as [g|]; [clear Hm | congruence]. cbn [group1 rbind].
      set (c := rstrip (N.eqb (chr "/")) (strip g)).
      destruct (accepted c) eqn:Ea.
      * right. exists [], p, ps, c. repeat split; try assumption.
        -- unfold yields. now rewrite Em.
        -- intros q [].
      * destruct IH as [[Hr Hall] | [bf [q [af [ig [-> [Hr [Hy [Hacc Hbf]]]]]]]]].
        -- left. split; [assumption|]. intros q [<- | Hq]; [|now apply Hall].
           right. exists c. unfold yields. rewrite Em. now split.
        -- right. exists (p :: bf), q, af, ig. repeat split; try assumption.
           intros q' [<- | Hq]; [|now apply Hbf].
           right. exists c. unfold yields. rewrite Em. now split.
    + destruct IH as [[Hr Hall] | [bf [q [af [ig [-> [Hr [Hy [Hacc Hbf]]]]]]]]].
      * left. split; [assumption|]. intros q [<- | Hq]; [|now apply Hall].
        left. unfold yields. now rewrite Em.
      * right. exists (p :: bf), q, af, ig. repeat split; try assumption.
        intros q' [<- | Hq]; [|now apply Hbf].
        left. unfold yields. now rewrite Em.
Qed.

Lemma extract_ok html : exists ig, extract html = Ok ig.
Proof.
  destruct (for_patterns_spec html patterns patterns_set_group)
    as [[H _] | [_ [_ [_ [ig [_ [H _]]]]]]]; eauto.
Qed.

End ExtractFacts.

(* ================================================================== *)
(** ** [ot_insta.py]: the loop *)

Section InstaFacts.

Import Spec ISpec Insta.

Variable fetch : value -> result pystr.
Variable stdout : N -> bool.

(** A line of numbers is printed whatever the encoding. *)
Lemma insta_every100_eq i l st :
  free_text (l st) = [] ->
  every100 stdout i l st =
  (Ok tt, mkState (lookup st) (hits st) (errors st)
     (out st ++ match at100 i (l st) with
                | Some x => [EvPrint x]
                | None => []
                end)).
Proof.
  intros Hl. unfold every100, at100, print, ret, emit.
  destruct (Nat.eqb ((i + 1) mod 100) 0).
  - rewrite Hl. reflexivity.
  - rewrite app_nil_r. now destruct st.
Qed.

(** One turn of the loop, once line 18 has given the slug.  A hit is
    appended before its line is printed: when the line cannot be printed
    the turn ends in the [except] clause with the hit in the Results
    List. *)
Lemma insta_iteration_outcome total i r st slug :
  slug_of r = Ok slug ->
  exists st', iteration fetch stdout total i r st = Ok st' /\
  lookup st' = lookup st /\
  match outcome_of (fetch slug) with
  | Hit =>
      exists html ig,
        fetch slug = Ok html /\ extract html = Ok ig /\
        truthy (VStr ig) = true /\
        hits st' = hits st ++ [(c_name r, ig)] /\
        if printable stdout r ig then
          errors st' = errors st /\
          out st' = out st ++
            turn_events slug (Some (LHit (i + 1) total (c_name r) ig))
        else
          errors st' = S (errors st) /\
          out st' = out st ++
            turn_events slug
              (at100 i (LFoundErrors (i + 1) total (List.length (hits st'))
                          (errors st')))
  | NoHit =>
      hits st' = hits st /\ errors st' = errors st /\
      out st' = out st ++
        turn_events slug
          (at100 i (LSoFar (i + 1) total (List.length (hits st))))
  | Error =>
      hits st' = hits st /\ errors st' = S (errors st) /\
      out st' = out st ++
        turn_events slug
          (at100 i (LFoundErrors (i + 1) total (List.length (hits st))
                      (S (errors st))))
  end.
Proof.
  intros Hs. unfold iteration. rewrite Hs. cbn [rbind].
  unfold try_body, bind, do_fetch, lift, outcome_of.
  destruct (fetch slug) as [html|e].
  - destruct (extract html) as [ig|e] eqn:Ex.
    + destruct (truthy (VStr ig)) eqn:Ht.
      * unfold append_hit, print, modify, printable. cbn [free_text].
        destruct (encodable stdout (c_name r ++ ig)) eqn:Hp.
        -- cbn [rbind]. eexists. split; [reflexivity|].
           unfold emit, turn_events. cbn [lookup hits errors out].
           split; [reflexivity|].
           exists html, ig. rewrite Hp. repeat split; try assumption.
           now rewrite <- !app_assoc.
        -- unfold incr_errors, modify. cbv beta iota.
           rewrite insta_every100_eq by reflexivity. cbn [rbind].
           eexists. split; [reflexivity|].
           unfold emit, turn_events. cbn [lookup hits errors out].
           split; [reflexivity|].
           exists html, ig. rewrite Hp. repeat split; try assumption.
           now rewrite <- !app_assoc.
      * rewrite insta_every100_eq by reflexivity. cbn [rbind].
        eexists. split; [reflexivity|]. unfold emit, turn_events.
        cbn [lookup hits errors out]. repeat split.
        now rewrite <- !app_assoc.
    + unfold incr_errors, modify. cbv beta iota.
      rewrite insta_every100_eq by reflexivity. cbn [rbind].
      eexists. split; [reflexivity|].
      unfold emit, turn_events. cbn [lookup hits errors out].
      repeat split. now rewrite <- !app_assoc.
  - unfold incr_errors, modify. cbv beta iota.
    rewrite insta_every100_eq by reflexivity. cbn [rbind].
    eexists. split; [reflexivity|].
    unfold emit, turn_events. cbn [lookup hits errors out].
    repeat split. now rewrite <- !app_assoc.
Qed.

End InstaFacts.

Section InstaLoop.

Import Spec ISpec Insta.

Variable fetch : value -> result pystr.
Variable stdout : N -> bool.

Lemma slug_of_str r : url_is_str r -> exists slug, slug_of r = Ok slug.
Proof.
  intros [u Hu]. unfold slug_of. rewrite Hu.
  destruct (truthy (c_slug r)); eauto.
Qed.

(** The loop ends normally when line 18 does for every candidate. *)
Lemma insta_loop_total rs : forall total i st,
  Forall url_is_str rs -> exists st', loop fetch stdout total i rs st = Ok st'.
Proof.
  induction rs as [|r rs IH]; intros total i st Hrs; cbn [loop].
  - now exists st.
  - inversion Hrs as [|? ? Hr Hrs']; subst.
    destruct (slug_of_str r Hr) as [slug Hs].
    destruct (insta_iteration_outcome fetch stdout total i r st slug Hs)
      as [st1 [H1 _]].
    rewrite H1. cbn [rbind]. apply IH. assumption.
Qed.

(** A candidate ends in the [except] clause when its fetch or extraction
    raises, and when it is a hit whose line cannot be printed. *)
Lemma caught_cases r :
  caught fetch stdout r = true <->
  cand_outcome fetch r = Error /\ (exists slug, slug_of r = Ok slug) \/
  exists slug html ig,
    slug_of r = Ok slug /\ fetch slug = Ok html /\ extract html = Ok ig /\
    truthy (VStr ig) = true /\ printable stdout r ig = false.
Proof.
  unfold caught, cand_outcome, outcome_of.
  destruct (slug_of r) as [slug|e] eqn:Hs.
  - destruct (fetch slug) as [html|e] eqn:Hf.
    + destruct (extract html) as [ig|e] eqn:He.
      * destruct (truthy (VStr ig)) eqn:Ht; cbn [andb].
        -- rewrite negb_true_iff. split.
           ++ intros Hp. right. now exists slug, html, ig.
           ++ intros [[H _] | [s [h [g [[= <-] [Hf' [He' [_ Hp]]]]]]]];
                [discriminate|].
              rewrite Hf in Hf'. injection Hf' as <-.
              rewrite He in He'. injection He' as <-. exact Hp.
        -- split; [discriminate|].
           intros [[H _] | [s [h [g [[= <-] [Hf' [He' [H _]]]]]]]];
             [discriminate|].
           rewrite Hf in Hf'. injection Hf' as <-.
           rewrite He in He'. injection He' as <-. congruence.
      * split; [|reflexivity]. intros _. left. split; [reflexivity|].
        now exists slug.
    + split; [|reflexivity]. intros _. left. split; [reflexivity|].
      now exists slug.
  - split; [discriminate|].
    intros [[_ [s H]] | [s [h [g [H _]]]]]; discriminate.
Qed.

(** The Results List and the error counter after the loop; the store is
    never touched. *)
Lemma insta_loop_counters rs : forall total i st st',
  loop fetch stdout total i rs st = Ok st' ->
  let os := map (cand_outcome fetch) rs in
  List.length (hits st') = List.length (hits st) + count Hit os /\
  errors st' = errors st + List.length (filter (caught fetch stdout) rs) /\
  lookup st' = lookup st.
Proof.
  induction rs as [|r rs IH]; intros total i st st'; cbn [loop map filter].
  - intros [= <-]. unfold count. simpl. repeat split; lia.
  - cbv zeta. rewrite !count_cons. unfold cand_outcome at 1.
    destruct (iteration fetch stdout total i r st) as [st1|e] eqn:Hit1;
      [|discriminate].
    cbn [rbind]. intros Hl. apply IH in Hl. cbv zeta in Hl.
    destruct Hl as [-> [-> ->]].
    destruct (slug_of r) as [slug|e] eqn:Hs.
    + destruct (insta_iteration_outcome fetch stdout total i r st slug Hs)
        as [st1' [H1 [Hlk H]]].
      rewrite Hit1 in H1. injection H1 as <-.
      pose proof (eq_refl (caught fetch stdout r)) as Hc.
      unfold caught at 2 in Hc. rewrite Hs in Hc. unfold outcome_of in *.
      destruct (fetch slug) as [html|e] eqn:Ef.
      * destruct (extract html) as [ig|e] eqn:Ee.
        -- destruct (truthy (VStr ig)); cbn [outcome_eqb andb] in *.
           ++ destruct H as [html' [ig' [Ef' [Ee' [_ [-> H]]]]]].
              assert (html' = html) by congruence. subst html'.
              assert (ig' = ig) by congruence. subst ig'.
              rewrite length_app, Hc. cbn [List.length].
              destruct (printable stdout r ig); cbn [negb List.length];
                destruct H as [-> _]; repeat split; try lia; assumption.
           ++ destruct H as [-> [-> _]]. rewrite Hc.
              repeat split; try lia. assumption.
        -- destruct H as [-> [-> _]]. rewrite Hc.
           cbn [outcome_eqb List.length].
           repeat split; try lia. assumption.
      * destruct H as [-> [-> _]]. rewrite Hc. cbn [outcome_eqb List.length].
        repeat split; try lia. assumption.
    + unfold iteration in Hit1. rewrite Hs in Hit1. discriminate.
Qed.

(** A loop that ends normally got a slug from line 18 every time. *)
Lemma insta_loop_slugs rs : forall total i st st',
  loop fetch stdout total i rs st = Ok st' ->
  Forall (fun r => exists slug, slug_of r = Ok slug) rs.
Proof.
  induction rs as [|r rs IH]; intros total i st st'; cbn [loop];
    [constructor|].
  destruct (iteration fetch stdout total i r st) as [st1|e] eqn:Hi;
    [|discriminate].
  cbn [rbind]. intros Hl. constructor; [|exact (IH _ _ _ _ Hl)].
  unfold iteration in Hi. destruct (slug_of r) as [slug|e]; [|discriminate].
  now exists slug.
Qed.

Lemma insta_filter_loop_urls doc : forall acc cands,
  filter_loop doc acc = Ok cands ->
  store_shape doc = true ->
  Forall url_is_str acc -> Forall url_is_str cands.
Proof.
  unfold store_shape.
  induction doc as [|[name v] doc IH]; intros acc cands; cbn [filter_loop forallb].
  - now intros [= <-].
  - destruct (Filter.needs (str "instagram") v) as [b|e] eqn:Hb;
      [|discriminate].
    cbn [rbind]. rewrite andb_true_iff. destruct b.
    + destruct (py_getitem v (str "url")) as [url|e] eqn:Hu; [|discriminate].
      cbn [rbind].
      destruct (py_get v (str "slug") (VStr [])) as [slug|e]; [|discriminate].
      cbn [rbind]. intros Hl [Hv Hdoc] Hacc.
      apply (IH _ _ Hl Hdoc). apply Forall_app. split; [assumption|].
      constructor; [|constructor]. unfold url_is_str. cbn [c_url snd] in *.
      destruct v as [| | | | | |rd]; try discriminate.
      cbn [record_shape py_getitem] in *.
      destruct (dict_get (str "url") rd) as [[| | | |u| |]|];
        try discriminate.
      injection Hu as <-. now exists u.
    + intros Hl [_ Hdoc]. now apply IH.
Qed.

End InstaLoop.

(* ================================================================== *)
(** ** The filter and the extraction on test data; pattern order *)

Section FilterExamples.

Import Spec Examples.

Example google_filter_mixed :
  Google.filter_loop mixed_doc [] = Ok [str "Carbone"; str "Via Carota"].
Proof. reflexivity. Qed.

Example insta_filter_mixed :
  Insta.filter_loop mixed_doc [] =
  Ok [Insta.mkCand (str "Carbone") carbone_url (VStr []);
      Insta.mkCand (str "Via Carota")
        (VStr (str "https://opentable.com/via-carota"))
        (VStr (str "via-carota"))].
Proof. reflexivity. Qed.

Lemma filter_correctness_witness :
  store_shape mixed_doc = true /\
  exists kept_lat kept_ig cands,
    Google.filter_loop mixed_doc [] = Ok (keys kept_lat) /\
    Insta.filter_loop mixed_doc [] = Ok cands /\
    map Insta.c_name cands = keys kept_ig /\
    Kept (selected (str "lat")) mixed_doc kept_lat /\
    Kept (selected (str "instagram")) mixed_doc kept_ig.
Proof.
  split; [reflexivity|].
  destruct (filter_correctness mixed_doc eq_refl)
    as [kl [ki [cands [H1 [H2 [H3 [H4 [H5 _]]]]]]]].
  now exists kl, ki, cands.
Defined.

End FilterExamples.

Section Extraction.

Import Re Insta ISpec Examples.

Example extract_le_bernardin :
  extract page_le_bernardin = Ok (str "lebernardin").
Proof. reflexivity. Qed.

Example extract_explore_then_link :
  extract page_explore_then_link = Ok [].
Proof. reflexivity. Qed.

Example extract_unicode_case :
  extract ([0x130] ++ str "nstagram.com/a" ++ [0x131; 0x17F; 0x212A] ++ str "b")%N
  = Ok (str "a" ++ [0x131; 0x17F; 0x212A] ++ str "b")%N.
Proof. reflexivity. Qed.

Example extract_at_handle :
  extract (str "follow @foo.bar  on   Instagram") = Ok (str "foo.bar") /\
  extract (str "follow @fooinstagram") = Ok (str "foo").
Proof. split; reflexivity. Qed.

(** C2.  For every page, extraction tries the patterns in order, each on
    its leftmost match: it returns the capture of the first pattern that
    yields an accepted one, going on to the next pattern when a capture is
    blocklisted or empty, and returns the empty string, no hit, exactly
    when no pattern yields an accepted capture.  So a page with
    [instagram.com/explore] first and a handle in the page data later gives
    the handle, and a page with a handle in the page data first and a link
    later gives the link, which the first pattern matches. *)
Theorem pattern_precedence :
  (forall html, exists ig,
     extract html = Ok ig /\
     ((ig = [] /\
       forall p, In p patterns ->
         yields p html = None \/
         exists c, yields p html = Some c /\ accepted c = false)
      \/
      (exists before p after,
         patterns = before ++ p :: after /\
         yields p html = Some ig /\ accepted ig = true /\
         forall q, In q before ->
           yields q html = None \/
           exists c, yields q html = Some c /\ accepted c = false))) /\
  extract page_explore_then_json = Ok (str "lebernardin") /\
  extract page_json_then_link = Ok (str "second").
Proof.
  split; [|split; reflexivity].
  intros html.
  destruct (for_patterns_spec html patterns patterns_set_group)
    as [[Hr Hall] | [bf [p [af [ig [Hps [Hr [Hy [Ha Hbf]]]]]]]]].
  - exists []. split; [exact Hr|]. left. now split.
  - exists ig. split; [exact Hr|]. right. now exists bf, p, af.
Qed.

(** C9.  Matching ignores case, the blocklist does not: its tokens are
    the lower-case [p], [reel], [explore], [accounts], [stories], and a
    capture is rejected only when it is empty or equal to one of them.  So
    the page [instagram.com/Explore] gives the handle [Explore], while
    [instagram.com/explore] gives no hit; the upper-case
    [INSTAGRAM.COM/Explore] matches the first pattern only because case is
    ignored. *)
Theorem blocklist_case_sensitive :
  blocklist = map str ["p"; "reel"; "explore"; "accounts"; "stories"]%string /\
  (forall ig, accepted ig = true <-> ig <> [] /\ ~ In ig blocklist) /\
  extract page_capital_explore = Ok (str "Explore") /\
  extract page_explore = Ok [] /\
  search true (nth 0 patterns REps) (str "INSTAGRAM.COM/Explore")
    = Some (Some (str "Explore")) /\
  search false (nth 0 patterns REps) (str "INSTAGRAM.COM/Explore") = None.
Proof.
  split; [reflexivity|]. split; [|repeat split; reflexivity].
  intros ig. unfold accepted. rewrite andb_true_iff, negb_true_iff. split.
  - intros [Ht Hb]. split.
    + intros ->. discriminate.
    + intros Hin.
      assert (existsb (str_eqb ig) blocklist = true) as E; [|congruence].
      apply existsb_exists. exists ig.
      split; [assumption | apply str_eqb_refl].
  - intros [Hne Hnot]. split.
    + destruct ig; [contradiction | reflexivity].
    + destruct (existsb (str_eqb ig) blocklist) eqn:E; [|reflexivity].
      apply existsb_exists in E. destruct E as [x [Hx Heq]].
      apply str_eqb_eq in Heq. subst x. contradiction.
Qed.

End Extraction.

(* ================================================================== *)
(** ** [ot_google.py]: what a hit writes *)

Section Enrichment.

Import Spec GSpec Google Examples.

Variable urlopen : pystr -> result value.

Ltac str_neq := let H := fresh in intros H; vm_compute in H; discriminate.

(** The five fields of an enriched record, and the rest of it. *)
Lemma enriched_fields ld cd rd :
  let rd' := enriched ld cd rd in
  dict_get (str "lat") rd' = Some (get_or_none (str "lat") ld) /\
  dict_get (str "lng") rd' = Some (get_or_none (str "lng") ld) /\
  dict_get (str "google_rating") rd' = Some (get_or_none (str "rating") cd) /\
  dict_get (str "google_reviews") rd'
    = Some (get_or_none (str "user_ratings_total") cd) /\
  dict_get (str "place_id") rd' = Some (get_or_none (str "place_id") cd) /\
  forall k, ~ In k five_fields -> dict_get k rd' = dict_get k rd.
Proof.
  cbv zeta. unfold enriched. repeat split.
  - rewrite !dict_get_set_other by str_neq. apply dict_get_set_same.
  - rewrite !dict_get_set_other by str_neq. apply dict_get_set_same.
  - rewrite !dict_get_set_other by str_neq. apply dict_get_set_same.
  - rewrite !dict_get_set_other by str_neq. apply dict_get_set_same.
  - apply dict_get_set_same.
  - intros k Hk. unfold five_fields in Hk. cbn [map In] in Hk.
    rewrite !dict_get_set_other; [reflexivity | ..];
      intros ->; apply Hk; tauto.
Qed.

(** A turn that finds a first match of the documented shape. *)
Lemma iteration_hit total i name st rd dd cd rest ld :
  dict_get name (lookup st) = Some (VDict rd) ->
  fetch urlopen name = Ok (VDict dd) ->
  dict_get (str "candidates") dd = Some (VList (VDict cd :: rest)) ->
  location_of (VDict cd) = Some ld ->
  let st' := iteration urlopen total i name st in
  lookup st' = dict_set name (VDict (enriched ld cd rd)) (lookup st) /\
  dict_get name (lookup st') = Some (VDict (enriched ld cd rd)) /\
  (forall other, other <> name ->
     dict_get other (lookup st') = dict_get other (lookup st)) /\
  keys (lookup st') = keys (lookup st) /\
  hits st' = S (hits st) /\ errors st' = errors st.
Proof.
  intros Hn Hf Hc Hl st'. subst st'. unfold iteration.
  rewrite (try_body_hit urlopen _ _ _ _ _ _ _ _ _ Hf Hc Hl Hn), progress_eq.
  cbn [emit lookup hits errors].
  split; [reflexivity|]. split; [apply dict_get_set_same|].
  split; [|split; [|split; reflexivity]].
  - intros other Hne. now apply dict_get_set_other.
  - eapply keys_dict_set_present. eassumption.
Qed.

(** C3.  When the fetch for a candidate returns a body whose [candidates]
    is a non-empty list headed by a match of the documented shape, the turn
    writes onto the candidate's record the five fields [lat], [lng],
    [google_rating], [google_reviews], [place_id], read from
    [geometry.location.lat], [geometry.location.lng], [rating],
    [user_ratings_total], [place_id] of that first match; no other field
    and no other record changes, the hit counter grows by one and the error
    counter stays.  When [candidates] is absent or empty nothing changes:
    store, hits and errors are as before.  On the one-record store
    [Carbone] with the stubbed response, the run ends with exactly the five
    fields added, one hit and no error. *)
Theorem first_match_written total i name st rd dd :
  dict_get name (lookup st) = Some (VDict rd) ->
  fetch urlopen name = Ok (VDict dd) ->
  let st' := iteration urlopen total i name st in
  (forall cd rest ld,
     dict_get (str "candidates") dd = Some (VList (VDict cd :: rest)) ->
     location_of (VDict cd) = Some ld ->
     exists rd',
       dict_get name (lookup st') = Some (VDict rd') /\
       dict_get (str "lat") rd' = Some (get_or_none (str "lat") ld) /\
       dict_get (str "lng") rd' = Some (get_or_none (str "lng") ld) /\
       dict_get (str "google_rating") rd'
         = Some (get_or_none (str "rating") cd) /\
       dict_get (str "google_reviews") rd'
         = Some (get_or_none (str "user_ratings_total") cd) /\
       dict_get (str "place_id") rd'
         = Some (get_or_none (str "place_id") cd) /\
       (forall k, ~ In k five_fields -> dict_get k rd' = dict_get k rd) /\
       (forall other, other <> name ->
          dict_get other (lookup st') = dict_get other (lookup st)) /\
       keys (lookup st') = keys (lookup st) /\
       hits st' = S (hits st) /\ errors st' = errors st) /\
  (dict_get (str "candidates") dd = None \/
   dict_get (str "candidates") dd = Some (VList []) ->
   lookup st' = lookup st /\ hits st' = hits st /\ errors st' = errors st) /\
  (exists final,
     main carbone_fetch carbone_doc = Ok final /\
     lookup final = carbone_enriched /\ hits final = 1 /\ errors final = 0).
Proof.
  intros Hn Hf st'. split; [|split].
  - intros cd rest ld Hc Hl. subst st'.
    destruct (iteration_hit total i name st rd dd cd rest ld Hn Hf Hc Hl)
      as [_ [Hrd' [Hother [Hkeys [Hh He]]]]].
    exists (enriched ld cd rd).
    destruct (enriched_fields ld cd rd) as [H1 [H2 [H3 [H4 [H5 H6]]]]].
    split; [assumption|]. do 6 (split; [assumption|]).
    repeat split; assumption.
  - intros Hc. subst st'.
    pose proof (iteration_outcome urlopen total i name st rd Hn) as H.
    cbv zeta in H. unfold outcome_of in H. rewrite Hf in H.
    destruct Hc as [Hc | Hc]; rewrite Hc in H;
      cbn [truthy List.length Nat.eqb negb] in H;
      now destruct H as [? [? [? _]]].
  - eexists. split; [reflexivity|]. repeat split.
Qed.

End Enrichment.

Lemma first_match_written_witness :
  dict_get (str "Carbone") Examples.carbone_doc = Some (VDict [(str "url", Examples.carbone_url)]) /\
  exists rd',
    dict_get (str "Carbone")
      (Google.lookup (Google.iteration Examples.carbone_fetch 1 0 (str "Carbone")
                 (Google.mkState Examples.carbone_doc 0 0 []))) = Some (VDict rd') /\
    dict_get (str "lat") rd' = Some (VFloat Examples.f40_7).
Proof.
  split; [reflexivity|].
  destruct (first_match_written Examples.carbone_fetch 1 0 (str "Carbone") (Google.mkState Examples.carbone_doc 0 0 [])
              _ _ eq_refl eq_refl) as [H _].
  destruct (H _ _ _ eq_refl eq_refl) as [rd' [H1 [H2 _]]].
  exists rd'. split; assumption.
Defined.


Section MissingFields.

Import Spec GSpec Google Examples.

Variable urlopen : pystr -> result value.

(** The test of line 9 reads only [url] and the target field. *)
Lemma needs_reads target rd rd' :
  dict_get (str "url") rd' = dict_get (str "url") rd ->
  dict_get target rd' = dict_get target rd ->
  Filter.needs target (VDict rd') = Filter.needs target (VDict rd).
Proof.
  intros Hu Ht. unfold Filter.needs, py_get. now rewrite Hu, Ht.
Qed.

Lemma needs_falsy_target target rd rd' t' :
  dict_get (str "url") rd' = dict_get (str "url") rd ->
  dict_get target rd' = Some t' ->
  truthy t' = false ->
  Filter.needs target (VDict rd) = Ok true ->
  Filter.needs target (VDict rd') = Ok true.
Proof.
  intros Hu Ht' Hf. unfold Filter.needs, py_get. rewrite Hu, Ht'.
  cbn [rbind].
  destruct (py_in (str "opentable") _) as [[|]|e]; cbn [rbind];
    try discriminate.
  intros _. now rewrite Hf.
Qed.

(** C10.  Whenever [candidates] is a non-empty list headed by an object,
    the turn counts a hit and assigns all five fields, whatever that first
    match holds: a sub-field it lacks is written as [None].  When it is the
    latitude that is missing, the record's [lat] is [None] after the hit,
    so the record passes the filter again; on the store [Carbone] with a
    match that has no sub-fields, the run counts one hit, writes five
    [None]s, and the filter applied to its result selects [Carbone]
    again. *)
Theorem hit_assigns_missing_as_none total i name st rd dd cd rest ld :
  dict_get name (lookup st) = Some (VDict rd) ->
  fetch urlopen name = Ok (VDict dd) ->
  dict_get (str "candidates") dd = Some (VList (VDict cd :: rest)) ->
  location_of (VDict cd) = Some ld ->
  let st' := iteration urlopen total i name st in
  hits st' = S (hits st) /\
  (exists rd',
     dict_get name (lookup st') = Some (VDict rd') /\
     (forall k, In k five_fields -> exists v, dict_get k rd' = Some v) /\
     (dict_get (str "lat") ld = None ->
      dict_get (str "lat") rd' = Some VNone) /\
     (dict_get (str "lng") ld = None ->
      dict_get (str "lng") rd' = Some VNone) /\
     (dict_get (str "rating") cd = None ->
      dict_get (str "google_rating") rd' = Some VNone) /\
     (dict_get (str "user_ratings_total") cd = None ->
      dict_get (str "google_reviews") rd' = Some VNone) /\
     (dict_get (str "place_id") cd = None ->
      dict_get (str "place_id") rd' = Some VNone) /\
     (dict_get (str "lat") ld = None ->
      Filter.needs (str "lat") (VDict rd) = Ok true ->
      Filter.needs (str "lat") (VDict rd') = Ok true)) /\
  (exists final,
     main bare_fetch carbone_doc = Ok final /\
     hits final = 1 /\ errors final = 0 /\
     lookup final = carbone_bare /\
     filter_loop (lookup final) [] = Ok [str "Carbone"]).
Proof.
  intros Hn Hf Hc Hl st'.
  destruct (iteration_hit urlopen total i name st rd dd cd rest ld Hn Hf Hc Hl)
    as [_ [Hrd' [_ [_ [Hh _]]]]].
  destruct (enriched_fields ld cd rd) as [H1 [H2 [H3 [H4 [H5 Hrest]]]]].
  set (rd' := enriched ld cd rd) in *.
  split; [exact Hh|]. split.
  - exists rd'. split; [exact Hrd'|]. split.
    + intros k Hk. unfold five_fields in Hk. cbn [map In] in Hk.
      destruct Hk as [<- | [<- | [<- | [<- | [<- | []]]]]]; eauto.
    + unfold get_or_none in *.
      repeat split; try (intros E; rewrite E in *; assumption).
      intros E Hneeds. rewrite E in H1.
      apply (needs_falsy_target (str "lat") rd rd' VNone);
        try reflexivity; try assumption.
      apply Hrest. unfold five_fields. cbn [map In].
      intros [E1 | [E1 | [E1 | [E1 | [E1 | []]]]]];
        vm_compute in E1; discriminate.
  - eexists. split; [reflexivity|]. repeat split.
Qed.

End MissingFields.

Lemma hit_assigns_missing_as_none_witness :
  Google.hits (Google.iteration Examples.bare_fetch 1 0 (str "Carbone")
                 (Google.mkState Examples.carbone_doc 0 0 [])) = 1.
Proof.
  exact (proj1 (hit_assigns_missing_as_none Examples.bare_fetch 1 0
                  (str "Carbone") (Google.mkState Examples.carbone_doc 0 0 [])
                  _ _ _ [] [] eq_refl eq_refl eq_refl eq_refl)).
Defined.

(* ================================================================== *)
(** ** Traces *)

Section TraceFacts.

Context {L : Type}.

Lemma requests_app (a b : list (event L)) :
  requests (a ++ b) = requests a ++ requests b.
Proof. apply flat_map_app. Qed.

Lemma reads_app (a b : list (event L)) : reads (a ++ b) = reads a ++ reads b.
Proof. apply flat_map_app. Qed.

Lemma writes_app (a b : list (event L)) :
  writes (a ++ b) = writes a ++ writes b.
Proof. apply flat_map_app. Qed.

End TraceFacts.

Section GoogleTrace.

Import Spec GSpec Google.

Variable urlopen : pystr -> result value.

Lemma turn_events_proj total i name h e m :
  requests (turn_events total i name h e m) = sent name /\
  reads (turn_events total i name h e m) = [] /\
  writes (turn_events total i name h e m) = [].
Proof.
  unfold turn_events, sent.
  destruct (quote (query name)); destruct (Nat.eqb ((i + 1) mod 50) 0);
    now repeat split.
Qed.

(** What a turn appends to the trace, however it ends. *)
Lemma iteration_out total i name st :
  let st' := iteration urlopen total i name st in
  exists m, out st' =
    out st ++ turn_events total i name (hits st') (errors st') m.
Proof.
  cbv zeta.
  destruct (try_body_cases urlopen i total name st)
    as [[e Ha] | [Hb | [dd [cd [rest [ld [rd [Hf [Hc [Hl Hn]]]]]]]]]].
  - exists (Some e). now rewrite (iteration_error urlopen _ _ _ _ _ _ Ha).
  - exists None. unfold iteration. rewrite Hb, progress_eq.
    unfold fetched, emit, turn_events. cbn [lookup hits errors out].
    now rewrite <- !app_assoc.
  - exists None. unfold iteration.
    rewrite (try_body_hit urlopen _ _ _ _ _ _ _ _ _ Hf Hc Hl Hn), progress_eq.
    unfold emit, turn_events. rewrite (fetch_ok_sent urlopen _ _ Hf).
    cbn [lookup hits errors out map].
    now rewrite <- !app_assoc.
Qed.

(** The loop requests, in order, every name whose query line 19 could
    escape, once, and neither reads nor writes a file. *)
Lemma loop_out names : forall total i st,
  exists evs,
    out (loop urlopen total i names st) = out st ++ evs /\
    requests evs = flat_map sent names /\ reads evs = [] /\ writes evs = [].
Proof.
  induction names as [|name names IH]; intros total i st;
    cbn [loop flat_map].
  - exists []. now rewrite app_nil_r.
  - destruct (iteration_out total i name st) as [m Hm].
    destruct (IH total (S i) (iteration urlopen total i name st))
      as [evs [Ho [Hr [Hrd Hw]]]].
    eexists. split; [rewrite Ho, Hm, <- app_assoc; reflexivity|].
    rewrite requests_app, reads_app, writes_app, Hr, Hrd, Hw.
    destruct (turn_events_proj total i name
                (hits (iteration urlopen total i name st))
                (errors (iteration urlopen total i name st)) m)
      as [-> [-> ->]].
    now repeat split.
Qed.

(** The script, unfolded. *)
Lemma main_inv doc final :
  main urlopen doc = Ok final ->
  exists names st1,
    filter_loop doc [] = Ok names /\
    st1 = loop urlopen (List.length names) 0 names
            (mkState doc 0 0 [EvRead path; EvPrint (LNeeding (List.length names))]) /\
    lookup final = lookup st1 /\ hits final = hits st1 /\
    errors final = errors st1 /\
    out final = out st1 ++
      [EvWrite path (VDict (lookup st1)) 2;
       EvPrint (LDone (hits st1) (List.length names));
       EvPrint (LErrors (errors st1)); EvPrint LUpdated].
Proof.
  unfold main. destruct (filter_loop doc []) as [names|e]; [|discriminate].
  cbn [rbind]. intros [= <-]. exists names. eexists.
  split; [reflexivity|]. split; [reflexivity|].
  unfold emit. cbn [lookup hits errors out].
  repeat split. now rewrite <- !app_assoc.
Qed.

End GoogleTrace.

Section InstaTrace.

Import Spec ISpec Insta.

Variable fetch : value -> result pystr.
Variable stdout : N -> bool.

Lemma insta_turn_events_proj slug line :
  requests (turn_events slug line) = [slug] /\
  reads (turn_events slug line) = [] /\
  writes (turn_events slug line) = [].
Proof. unfold turn_events. destruct line; now repeat split. Qed.

(** An exception under [try] comes from the fetch or from the
    extraction, and then leaves only the request in the state, or from
    line 44, and then leaves the hit it has appended as well. *)
Lemma insta_try_body_raise i total r slug st e st1 :
  try_body fetch stdout i total r slug st = (Raise e, st1) ->
  (st1 = emit (EvFetch slug) st /\ outcome_of (fetch slug) = Error) \/
  (exists html ig,
     fetch slug = Ok html /\ extract html = Ok ig /\
     truthy (VStr ig) = true /\ printable stdout r ig = false /\
     e = UnicodeEncodeError /\
     st1 = mkState (lookup st) (hits st ++ [(c_name r, ig)]) (errors st)
             (out st ++ [EvFetch slug])).
Proof.
  unfold try_body, bind, do_fetch, lift, outcome_of.
  destruct (fetch slug) as [html|e'].
  - destruct (extract html) as [ig|e'] eqn:He.
    + destruct (truthy (VStr ig)) eqn:Ht.
      * unfold append_hit, print, modify. cbn [free_text].
        destruct (encodable stdout (c_name r ++ ig)) eqn:Hp; [discriminate|].
        intros [= <- <-]. right. exists html, ig. now repeat split.
      * rewrite insta_every100_eq by reflexivity. discriminate.
    + intros [= _ <-]. now left.
  - intros [= _ <-]. now left.
Qed.

(** When the fetch or the extraction raises, so does the code under
    [try], with nothing but the request done. *)
Lemma insta_try_body_error i total r slug st :
  outcome_of (fetch slug) = Error ->
  exists e,
    try_body fetch stdout i total r slug st = (Raise e, emit (EvFetch slug) st).
Proof.
  unfold try_body, bind, do_fetch, lift, outcome_of.
  destruct (fetch slug) as [html|e]; [|intros _; now exists e].
  destruct (extract html) as [ig|e]; [|intros _; now exists e].
  destruct (truthy (VStr ig)); discriminate.
Qed.

Lemma insta_iteration_out total i r st st' :
  iteration fetch stdout total i r st = Ok st' ->
  exists slug line,
    slug_of r = Ok slug /\ out st' = out st ++ turn_events slug line.
Proof.
  intros Hi. destruct (slug_of r) as [slug|e] eqn:Hs.
  - destruct (insta_iteration_outcome fetch stdout total i r st slug Hs)
      as [st2 [H2 [_ H]]].
    rewrite Hi in H2. injection H2 as <-. exists slug.
    destruct (outcome_of (fetch slug)).
    + destruct H as [html [ig [_ [_ [_ [_ H]]]]]].
      destruct (printable stdout r ig); destruct H as [_ Ho]; eauto.
    + destruct H as [_ [_ Ho]]. eauto.
    + destruct H as [_ [_ Ho]]. eauto.
  - unfold iteration in Hi. rewrite Hs in Hi. discriminate.
Qed.

(** The loop makes one request per candidate, in order, and neither reads
    nor writes a file. *)
Lemma insta_loop_out rs : forall total i st st',
  loop fetch stdout total i rs st = Ok st' ->
  exists evs,
    out st' = out st ++ evs /\
    map Ok (requests evs) = map slug_of rs /\
    reads evs = [] /\ writes evs = [].
Proof.
  induction rs as [|r rs IH]; intros total i st st'; cbn [loop map].
  - intros [= <-]. exists []. now rewrite app_nil_r.
  - destruct (iteration fetch stdout total i r st) as [st1|e] eqn:Hi; [|discriminate].
    cbn [rbind]. intros Hl.
    destruct (insta_iteration_out _ _ _ _ _ Hi) as [slug [line [Hs Ho]]].
    destruct (IH _ _ _ _ Hl) as [evs [Ho' [Hr [Hrd Hw]]]].
    eexists. split; [rewrite Ho', Ho, <- app_assoc; reflexivity|].
    rewrite requests_app, reads_app, writes_app, Hrd, Hw.
    destruct (insta_turn_events_proj slug line) as [-> [-> ->]].
    cbn [app map]. rewrite Hr, Hs. now repeat split.
Qed.

Lemma insta_main_inv doc final :
  main fetch stdout doc = Ok final ->
  exists cands st1,
    filter_loop doc [] = Ok cands /\
    loop fetch stdout (List.length cands) 0 cands
      (mkState doc [] 0 [EvRead path; EvPrint (LNeeding (List.length cands))])
    = Ok st1 /\
    lookup final = lookup st1 /\ hits final = hits st1 /\
    errors final = errors st1 /\
    out final = out st1 ++
      [EvWrite results_path (hits_doc (hits st1)) 2;
       EvPrint (LDone (List.length (hits st1)) (List.length cands));
       EvPrint (LErrors (errors st1)); EvPrint LSaved].
Proof.
  unfold main. destruct (filter_loop doc []) as [cands|e]; [|discriminate].
  cbn [rbind].
  destruct (loop fetch stdout _ 0 cands _) as [st1|e] eqn:Hl; [|discriminate].
  cbn [rbind]. intros [= <-]. exists cands, st1.
  split; [reflexivity|]. split; [exact Hl|].
  unfold emit. cbn [lookup hits errors out].
  repeat split. now rewrite <- !app_assoc.
Qed.

End InstaTrace.

(* ================================================================== *)
(** ** Exceptions and counters *)

Section ErrorsAndCounters.

Import Spec Examples.

(** Both scripts run to the end on a store of the expected shape. *)
Lemma google_main_total urlopen doc :
  store_shape doc = true -> exists final, Google.main urlopen doc = Ok final.
Proof.
  intros Hshape.
  destruct (google_filter_loop_kept doc Hshape) as [kept [_ Hl]].
  unfold Google.main. rewrite (Hl []). cbn [rbind app]. eauto.
Qed.

Lemma insta_main_total fetch stdout doc :
  store_shape doc = true ->
  exists final, Insta.main fetch stdout doc = Ok final.
Proof.
  intros Hshape.
  destruct (insta_filter_loop_kept doc Hshape) as [kept [_ Hl]].
  destruct (Hl []) as [cands [Hc _]]. cbn [app] in Hc.
  unfold Insta.main. rewrite Hc. cbn [rbind].
  assert (Forall ISpec.url_is_str cands) as Hu
    by (apply (insta_filter_loop_urls doc [] cands Hc Hshape); constructor).
  destruct (insta_loop_total fetch stdout cands (List.length cands) 0
              (Insta.mkState doc [] 0
                 [EvRead Insta.path;
                  EvPrint (Insta.LNeeding (List.length cands))]) Hu)
    as [st1 ->].
  cbn [rbind]. eauto.
Qed.

(** C4.  When the code under [try] raises for a candidate of the API
    script, which it does only for an exception of the fetch or of the
    extraction, the turn adds one to the error counter and leaves the hit
    counter and the whole store as they were, both when the exception is
    raised and when the turn ends; the candidate is requested once, or
    not at all when its name holds a surrogate, which makes line 19 raise
    before the request; and the loop goes on with the next candidate.
    The same holds in the scrape script for a candidate whose fetch or
    extraction raises: one more error, the Results List and the store as
    they were when the exception is raised and when the turn ends, one
    request, and the loop goes on.  There the code under [try] raises in
    one more case, when line 44 cannot print the hit that line 43 has
    appended; that turn too adds one to the error counter, leaves the
    store as it was, has made one request and goes on with the next
    candidate, and only the appended hit remains.  On the record
    [Bad Slug] with a fetch that times out, both runs end with one error,
    no hit and the record unchanged. *)
Theorem exception_counts_one_error :
  (forall urlopen total i name rest st e st1,
     Google.try_body urlopen i total name st = (Raise e, st1) ->
     let st' := Google.iteration urlopen total i name st in
     Google.errors st' = S (Google.errors st) /\
     Google.hits st' = Google.hits st /\
     Google.lookup st1 = Google.lookup st /\
     Google.lookup st' = Google.lookup st /\
     requests (Google.out st')
       = requests (Google.out st)
         ++ (if existsb surrogate name then [] else [VStr name]) /\
     Google.loop urlopen total i (name :: rest) st
       = Google.loop urlopen total (S i) rest st') /\
  (forall fetch stdout total i r rest st slug,
     Insta.slug_of r = Ok slug ->
     ISpec.outcome_of (fetch slug) = Error ->
     exists e st1 st',
       Insta.try_body fetch stdout i total r slug st = (Raise e, st1) /\
       Insta.iteration fetch stdout total i r st = Ok st' /\
       Insta.errors st' = S (Insta.errors st) /\
       Insta.hits st1 = Insta.hits st /\
       Insta.hits st' = Insta.hits st /\
       Insta.lookup st1 = Insta.lookup st /\
       Insta.lookup st' = Insta.lookup st /\
       requests (Insta.out st') = requests (Insta.out st) ++ [slug] /\
       Insta.loop fetch stdout total i (r :: rest) st
         = Insta.loop fetch stdout total (S i) rest st') /\
  (forall fetch stdout total i r rest st slug e st1,
     Insta.slug_of r = Ok slug ->
     Insta.try_body fetch stdout i total r slug st = (Raise e, st1) ->
     exists st',
       Insta.iteration fetch stdout total i r st = Ok st' /\
       Insta.errors st' = S (Insta.errors st) /\
       Insta.hits st' = Insta.hits st1 /\
       Insta.lookup st1 = Insta.lookup st /\
       Insta.lookup st' = Insta.lookup st /\
       requests (Insta.out st') = requests (Insta.out st) ++ [slug] /\
       Insta.loop fetch stdout total i (r :: rest) st
         = Insta.loop fetch stdout total (S i) rest st' /\
       (ISpec.outcome_of (fetch slug) = Error /\
        Insta.hits st' = Insta.hits st \/
        exists ig,
          ISpec.outcome_of (fetch slug) = Hit /\
          ISpec.printable stdout r ig = false /\
          Insta.hits st' = Insta.hits st ++ [(Insta.c_name r, ig)])) /\
  (exists final,
     Google.main timeout_fetch_api bad_slug_doc = Ok final /\
     Google.errors final = 1 /\ Google.hits final = 0 /\
     Google.lookup final = bad_slug_doc) /\
  (exists final,
     Insta.main timeout_fetch_page utf8 bad_slug_doc = Ok final /\
     Insta.errors final = 1 /\ Insta.hits final = [] /\
     Insta.lookup final = bad_slug_doc).
Proof.
  split; [|split; [|split; [|split]]].
  - intros urlopen total i name rest st e st1 Hr st'. subst st'.
    rewrite (iteration_error urlopen _ _ _ _ _ _ Hr).
    cbn [Google.errors Google.hits Google.lookup Google.out].
    repeat split.
    + destruct (try_body_cases urlopen i total name st)
        as [[e' Ha] | [Hb | [dd [cd [rs [ld [rd [Hf [Hc [Hl Hn]]]]]]]]]].
      * rewrite Ha in Hr. now injection Hr as _ <-.
      * rewrite Hb, progress_eq in Hr. discriminate.
      * rewrite (try_body_hit urlopen _ _ _ _ _ _ _ _ _ Hf Hc Hl Hn),
          progress_eq in Hr. discriminate.
    + rewrite requests_app, <- sent_eq.
      now destruct (turn_events_proj total i name (Google.hits st)
                      (S (Google.errors st)) (Some e)) as [-> _].
    + cbn [Google.loop]. now rewrite (iteration_error urlopen _ _ _ _ _ _ Hr).
  - intros fetch stdout total i r rest st slug Hs Ho.
    destruct (insta_try_body_error fetch stdout i total r slug st Ho)
      as [e He].
    destruct (insta_iteration_outcome fetch stdout total i r st slug Hs)
      as [st' [Hi [Hlk H]]].
    rewrite Ho in H. destruct H as [Hh [Herr Hout]].
    exists e, (Insta.emit (EvFetch slug) st), st'.
    repeat split; try assumption.
    + rewrite Hout, requests_app.
      now destruct (insta_turn_events_proj slug
        (ISpec.at100 i (Insta.LFoundErrors (i + 1) total
           (List.length (Insta.hits st)) (S (Insta.errors st))))) as [-> _].
    + cbn [Insta.loop]. now rewrite Hi.
  - intros fetch stdout total i r rest st slug e st1 Hs Hr.
    destruct (insta_iteration_outcome fetch stdout total i r st slug Hs)
      as [st' [Hi [Hlk H]]].
    destruct (insta_iteration_out fetch stdout _ _ _ _ _ Hi)
      as [slug' [line [Hs' Hout]]].
    assert (slug' = slug) by congruence. subst slug'.
    assert (requests (Insta.out st') = requests (Insta.out st) ++ [slug])
      as Hreq.
    { rewrite Hout, requests_app.
      now destruct (insta_turn_events_proj slug line) as [-> _]. }
    exists st'. split; [exact Hi|].
    destruct (insta_try_body_raise fetch stdout _ _ _ _ _ _ _ Hr)
      as [[-> Ho] | [html [ig [Hf [He [Ht [Hp [_ ->]]]]]]]].
    + rewrite Ho in H. destruct H as [Hh [Herr _]].
      cbn [Insta.emit Insta.hits Insta.lookup].
      repeat split; try assumption.
      * cbn [Insta.loop]. now rewrite Hi.
      * left. now split.
    + assert (ISpec.outcome_of (fetch slug) = Hit) as Ho
        by (unfold ISpec.outcome_of; now rewrite Hf, He, Ht).
      rewrite Ho in H.
      destruct H as [html' [ig' [Hf' [He' [_ [Hh H]]]]]].
      assert (html' = html) by congruence. subst html'.
      assert (ig' = ig) by congruence. subst ig'.
      rewrite Hp in H. destruct H as [Herr _].
      cbn [Insta.hits Insta.lookup].
      repeat split; try assumption.
      * cbn [Insta.loop]. now rewrite Hi.
      * right. now exists ig.
  - eexists. split; [reflexivity|]. repeat split.
  - eexists. split; [reflexivity|]. repeat split.
Qed.

Lemma exception_counts_one_error_witness :
  Google.errors
    (Google.iteration timeout_fetch_api 1 0 (str "Bad Slug")
       (Google.mkState bad_slug_doc 0 0 [])) = 1 /\
  (exists st',
     Insta.iteration timeout_fetch_page utf8 1 0
       (Insta.mkCand (str "Bad Slug")
          (VStr (str "https://opentable.com/bad-slug")) (VStr []))
       (Insta.mkState bad_slug_doc [] 0 []) = Ok st' /\
     Insta.errors st' = 1 /\ Insta.hits st' = []) /\
  (exists st',
     Insta.iteration (page_fetch page_le_bernardin) utf8 1 0
       (Insta.mkCand [0xD800%N] carbone_url (VStr []))
       (Insta.mkState surrogate_doc [] 0 []) = Ok st' /\
     Insta.errors st' = 1 /\ Insta.lookup st' = surrogate_doc).
Proof.
  split; [|split].
  - exact (proj1 (proj1 exception_counts_one_error timeout_fetch_api 1 0
                    (str "Bad Slug") [] (Google.mkState bad_slug_doc 0 0 [])
                    timeout _ eq_refl)).
  - destruct (proj1 (proj2 exception_counts_one_error) timeout_fetch_page
                utf8 1 0
                (Insta.mkCand (str "Bad Slug")
                   (VStr (str "https://opentable.com/bad-slug")) (VStr []))
                [] (Insta.mkState bad_slug_doc [] 0 [])
                (VStr (str "bad-slug")) eq_refl eq_refl)
      as [e [st1 [st' [_ [Hi [He [_ [Hh _]]]]]]]].
    exists st'. split; [exact Hi|]. split; [exact He | exact Hh].
  - destruct (proj1 (proj2 (proj2 exception_counts_one_error))
                (page_fetch page_le_bernardin) utf8 1 0
                (Insta.mkCand [0xD800%N] carbone_url (VStr []))
                [] (Insta.mkState surrogate_doc [] 0 [])
                (VStr (str "carbone")) UnicodeEncodeError _ eq_refl eq_refl)
      as [st' [Hi [He [_ [_ [Hlk _]]]]]].
    exists st'. split; [exact Hi|]. split; [exact He | exact Hlk].
Defined.

(** C5.  The conservation of the counters fails in the scrape script
    for a hit whose line cannot be printed.  Take the store whose only
    key is a lone surrogate, a page that gives the handle [lebernardin]
    and a standard output in UTF-8.  There is one candidate; line 43
    appends its hit, line 44 raises on the name, and line 49 counts an
    error: the run ends with one entry in the Results List and one
    error, so hits plus errors, two, exceed the number of candidates,
    one, and [hits + (candidates - hits - errors) + errors] is two.  The
    API script, run on the same store, counts the candidate once, as an
    error. *)
Theorem unprintable_hit_counted_twice :
  exists cands final,
    Insta.filter_loop surrogate_doc [] = Ok cands /\
    Insta.main (page_fetch page_le_bernardin) utf8 surrogate_doc = Ok final /\
    List.length cands = 1 /\
    Insta.hits final = [([0xD800%N], str "lebernardin")] /\
    Insta.errors final = 1 /\
    ~ (List.length (Insta.hits final) + Insta.errors final
       <= List.length cands) /\
    List.length (Insta.hits final)
      + (List.length cands - List.length (Insta.hits final)
         - Insta.errors final)
      + Insta.errors final = 2 /\
    exists names final_api,
      Google.filter_loop surrogate_doc [] = Ok names /\
      Google.main carbone_fetch surrogate_doc = Ok final_api /\
      List.length names = 1 /\
      Google.hits final_api = 0 /\ Google.errors final_api = 1.
Proof.
  eexists. eexists. split; [reflexivity|]. split; [reflexivity|].
  split; [reflexivity|]. split; [reflexivity|]. split; [reflexivity|].
  split; [intros H; vm_compute in H; lia|]. split; [reflexivity|].
  eexists. eexists. split; [reflexivity|]. split; [reflexivity|].
  repeat split.
Qed.

(** X13.  What the counters of a run are.  In the API script every candidate
    ends as a hit, a no-hit or an error, one of the three: the hit
    counter is the number of hits, the error counter the number of
    errors, and with the no-hits they add up to the number of candidates.
    In the scrape script the length of the Results List is the number of
    candidates whose page gave a handle and the error counter the number
    of candidates that ended in the [except] clause; neither exceeds the
    number of candidates, and when every hit line can be printed the
    error counter is the number of candidates whose fetch or extraction
    raised, and hits, no-hits and errors add up to the number of
    candidates. *)
Theorem counters_after_a_run urlopen fetch_page stdout doc :
  (forall final, Google.main urlopen doc = Ok final ->
     exists names,
       Google.filter_loop doc [] = Ok names /\
       let os := map (fun n => GSpec.outcome_of (Google.fetch urlopen n))
                     names in
       let total := List.length names in
       Google.hits final = count Hit os /\
       Google.errors final = count Error os /\
       Google.hits final + count NoHit os + Google.errors final = total /\
       Google.hits final + Google.errors final <= total /\
       Google.hits final
         + (total - Google.hits final - Google.errors final)
         + Google.errors final = total) /\
  (forall final, Insta.main fetch_page stdout doc = Ok final ->
     exists cands,
       Insta.filter_loop doc [] = Ok cands /\
       let os := map (ISpec.cand_outcome fetch_page) cands in
       let total := List.length cands in
       let found := List.length (Insta.hits final) in
       found = count Hit os /\
       Insta.errors final
         = List.length (filter (ISpec.caught fetch_page stdout) cands) /\
       found <= total /\ Insta.errors final <= total /\
       ((forall r name ig, In r cands ->
           In (name, ig) (ISpec.hit_of fetch_page r) ->
           ISpec.printable stdout r ig = true) ->
        Insta.errors final = count Error os /\
        found + count NoHit os + Insta.errors final = total /\
        found + Insta.errors final <= total /\
        found + (total - found - Insta.errors final) + Insta.errors final
          = total)).
Proof.
  split.
  - intros final Hm.
    destruct (main_inv urlopen doc final Hm)
      as [names [st1 [Hf [Hst [_ [Hh [He _]]]]]]].
    exists names. split; [assumption|]. cbv zeta.
    pose proof (filter_loop_entries doc names 0 0
                  [EvRead Google.path;
                   EvPrint (Google.LNeeding (List.length names))] Hf) as Hent.
    destruct (loop_counters urlopen names (List.length names) 0 _ Hent)
      as [Hh1 [He1 _]].
    cbv zeta in Hh1, He1. rewrite <- Hst in Hh1, He1.
    cbn [Google.hits Google.errors] in Hh1, He1.
    rewrite Hh, He, Hh1, He1.
    pose proof (count_total
      (map (fun n => GSpec.outcome_of (Google.fetch urlopen n)) names)) as Ht.
    rewrite length_map in Ht. repeat split; lia.
  - intros final Hm.
    destruct (insta_main_inv fetch_page stdout doc final Hm)
      as [cands [st1 [Hf [Hl [_ [Hh [He _]]]]]]].
    exists cands. split; [assumption|]. cbv zeta.
    destruct (insta_loop_counters fetch_page stdout cands _ _ _ _ Hl)
      as [Hh1 [He1 _]].
    cbn [Insta.hits Insta.errors List.length] in Hh1, He1.
    rewrite Hh, He, Hh1, He1.
    pose proof (count_total (map (ISpec.cand_outcome fetch_page) cands)) as Ht.
    rewrite length_map in Ht.
    pose proof (filter_length_le (ISpec.caught fetch_page stdout) cands) as Hle.
    split; [reflexivity|]. split; [reflexivity|].
    split; [lia|]. split; [lia|].
    intros Hprint.
    assert (List.length (filter (ISpec.caught fetch_page stdout) cands)
            = count Error (map (ISpec.cand_outcome fetch_page) cands)) as Hc.
    { pose proof (insta_loop_slugs fetch_page stdout cands _ _ _ _ Hl)
        as Hslugs.
      clear - Hprint Hslugs.
      induction cands as [|r cands IH]; [reflexivity|].
      inversion Hslugs as [|? ? [slug Hs] Hslugs']; subst.
      cbn [filter map]. rewrite count_cons.
      rewrite <- IH;
        [|intros r' name ig Hin; apply Hprint; now right | assumption].
      assert (ISpec.caught fetch_page stdout r
              = outcome_eqb Error (ISpec.cand_outcome fetch_page r)) as ->.
      { pose proof (fun name ig => Hprint r name ig (or_introl eq_refl))
          as Hr.
        clear Hprint IH.
        unfold ISpec.caught, ISpec.cand_outcome, ISpec.outcome_of.
        unfold ISpec.hit_of in Hr. rewrite Hs in *.
        destruct (fetch_page slug) as [html|e]; [|reflexivity].
        destruct (Insta.extract html) as [ig|e]; [|reflexivity].
        destruct (truthy (VStr ig)); [|reflexivity].
        rewrite (Hr (Insta.c_name r) ig) by (now left).
        reflexivity. }
      destruct (outcome_eqb Error (ISpec.cand_outcome fetch_page r));
        reflexivity. }
    rewrite Hc. repeat split; lia.
Qed.

End ErrorsAndCounters.

Lemma counters_after_a_run_witness :
  exists final,
    Insta.main Examples.timeout_fetch_page Examples.utf8 Examples.mixed_doc
      = Ok final /\
    Insta.errors final = 2 /\ Insta.hits final = [].
Proof.
  eexists. split; [reflexivity|].
  destruct (proj2 (counters_after_a_run Examples.carbone_fetch
             Examples.timeout_fetch_page Examples.utf8 Examples.mixed_doc)
             _ eq_refl) as [cands [Hf [Hh [He _]]]].
  injection Hf as <-. split; [exact He|]. reflexivity.
Defined.

(* ================================================================== *)
(** ** Persistence *)

Section Persistence.

Import Spec Examples.

(** C7.  On a store of the expected shape both scripts run to the end.
    A run of the scrape script reads the Record Store file and writes
    exactly one file, once, after the last request: the Results List, as
    name / instagram pairs in the order found, with indent 2, to
    [ot-instagram-results.json], which is not the Record Store file; the
    store in memory is as loaded.  A run of the API script writes exactly
    one file, once, after the last request: the whole store as mutated,
    with indent 2, to [bfull.json], the file it was loaded from.  On the
    store [Carbone] the API script, given the stubbed response, writes the
    enriched store to [bfull.json], and the scrape script, given a page
    with the handle [lebernardin], writes that one pair to its results
    file. *)
Theorem persistence urlopen fetch_page stdout doc :
  (store_shape doc = true ->
   (exists final, Insta.main fetch_page stdout doc = Ok final) /\
   (exists final, Google.main urlopen doc = Ok final)) /\
  (forall final, Insta.main fetch_page stdout doc = Ok final ->
     reads (Insta.out final) = [Insta.path] /\
     writes (Insta.out final)
       = [(Insta.results_path, Insta.hits_doc (Insta.hits final), 2)] /\
     Insta.results_path <> Insta.path /\
     Insta.hits_doc (Insta.hits final)
       = VList (map (fun h => VDict [(str "name", VStr (fst h));
                                     (str "instagram", VStr (snd h))])
                    (Insta.hits final)) /\
     Insta.lookup final = doc /\
     exists before after,
       Insta.out final = before ++
         EvWrite Insta.results_path (Insta.hits_doc (Insta.hits final)) 2
         :: after /\
       writes before = [] /\ requests after = [] /\ writes after = []) /\
  (forall final, Google.main urlopen doc = Ok final ->
     reads (Google.out final) = [Google.path] /\
     writes (Google.out final)
       = [(Google.path, VDict (Google.lookup final), 2)] /\
     exists before after,
       Google.out final = before ++
         EvWrite Google.path (VDict (Google.lookup final)) 2 :: after /\
       writes before = [] /\ requests after = [] /\ writes after = []) /\
  (exists final,
     Google.main carbone_fetch carbone_doc = Ok final /\
     reads (Google.out final) = [str "bfull.json"] /\
     writes (Google.out final)
       = [(str "bfull.json", VDict carbone_enriched, 2)]) /\
  (exists final,
     Insta.main (page_fetch page_le_bernardin) utf8 carbone_doc = Ok final /\
     reads (Insta.out final) = [str "booking_lookup_full.json"] /\
     writes (Insta.out final)
       = [(str "ot-instagram-results.json",
           VList [VDict [(str "name", VStr (str "Carbone"));
                         (str "instagram", VStr (str "lebernardin"))]], 2)]).
Proof.
  split; [|split; [|split; [|split]]].
  - intros Hshape. split.
    + exact (insta_main_total fetch_page stdout doc Hshape).
    + exact (google_main_total urlopen doc Hshape).
  - intros final Hm.
    destruct (insta_main_inv fetch_page stdout doc final Hm)
      as [cands [st1 [Hf [Hl [Hlk [Hh [He Ho]]]]]]].
    destruct (insta_loop_out fetch_page stdout cands _ _ _ _ Hl)
      as [evs [Hevs [_ [Hrd Hw]]]].
    destruct (insta_loop_counters fetch_page stdout cands _ _ _ _ Hl)
      as [_ [_ Hlk1]].
    cbn [Insta.out Insta.lookup] in Hevs, Hlk1.
    rewrite Ho, Hevs, Hh.
    rewrite !reads_app, !writes_app, Hrd, Hw.
    split; [reflexivity|]. split; [reflexivity|].
    split; [intros H; vm_compute in H; discriminate|].
    split; [reflexivity|]. split; [congruence|].
    eexists _, _. split; [reflexivity|].
    rewrite writes_app, Hw. now repeat split.
  - intros final Hm.
    destruct (main_inv urlopen doc final Hm)
      as [names [st1 [Hf [Hst [Hlk [Hh [He Ho]]]]]]].
    destruct (loop_out urlopen names (List.length names) 0
                (Google.mkState doc 0 0
                   [EvRead Google.path;
                    EvPrint (Google.LNeeding (List.length names))]))
      as [evs [Hevs [_ [Hrd Hw]]]].
    rewrite <- Hst in Hevs. cbn [Google.out] in Hevs.
    rewrite Ho, Hevs, Hlk.
    rewrite !reads_app, !writes_app, Hrd, Hw.
    split; [reflexivity|]. split; [reflexivity|].
    eexists _, _. split; [reflexivity|].
    rewrite writes_app, Hw. now repeat split.
  - eexists. split; [reflexivity|]. split; reflexivity.
  - eexists. split; [reflexivity|]. split; reflexivity.
Qed.

Lemma persistence_witness :
  store_shape carbone_doc = true /\
  (exists final,
     Google.main carbone_fetch carbone_doc = Ok final /\
     writes (Google.out final)
       = [(Google.path, VDict (Google.lookup final), 2)] /\
     Google.lookup final = carbone_enriched) /\
  (exists final,
     Insta.main (page_fetch page_le_bernardin) utf8 carbone_doc = Ok final /\
     writes (Insta.out final)
       = [(Insta.results_path, Insta.hits_doc (Insta.hits final), 2)] /\
     Insta.hits final = [(str "Carbone", str "lebernardin")]).
Proof.
  split; [reflexivity|].
  destruct (persistence carbone_fetch (page_fetch page_le_bernardin) utf8
              carbone_doc) as [Htotal [Hscrape [Hapi _]]].
  destruct (Htotal eq_refl) as [[fi Hfi] [fg Hfg]].
  split.
  - exists fg. split; [exact Hfg|].
    split; [exact (proj1 (proj2 (Hapi fg Hfg)))|].
    injection Hfg as <-. reflexivity.
  - exists fi. split; [exact Hfi|].
    split; [exact (proj1 (proj2 (Hscrape fi Hfi)))|].
    injection Hfi as <-. reflexivity.
Defined.

End Persistence.

(* ================================================================== *)
(** ** Progress lines *)

Section Progress.

Import Spec Examples.

Lemma shows_errors_In index total found errs t :
  In (EvPrint (Insta.LFoundErrors index total found errs)) t ->
  existsb ISpec.shows_errors t = true.
Proof.
  intros H. apply existsb_exists. eexists. split; [exact H | reflexivity].
Qed.

(** C8, as stated, fails for the scrape script.  With a standard output
    in UTF-8, in a run over a hundred candidates that are all hits, the
    hundredth prints its hit line and no line of the run shows the error
    counter before the summary; in a run where none is a hit, the
    hundredth prints a line with index, total and hits, without the
    errors. *)
Lemma scrape_progress_counterexample :
  (exists final,
     Insta.main (page_fetch page_le_bernardin) utf8 hundred_doc = Ok final /\
     List.length (Insta.hits final) = 100 /\
     nth_error (Insta.out final) 300
       = Some (EvPrint (Insta.LHit 100 100 (numbered 100) (str "lebernardin"))) /\
     forall index total found errs,
       ~ In (EvPrint (Insta.LFoundErrors index total found errs))
            (Insta.out final)) /\
  (exists final,
     Insta.main (page_fetch []) utf8 hundred_doc = Ok final /\
     Insta.hits final = [] /\
     nth_error (Insta.out final) 201 = Some (EvPrint (Insta.LSoFar 100 100 0)) /\
     forall index total found errs,
       ~ In (EvPrint (Insta.LFoundErrors index total found errs))
            (Insta.out final)).
Proof.
  split.
  - assert (exists final,
              Insta.main (page_fetch page_le_bernardin) utf8 hundred_doc = Ok final)
      as [final E] by (vm_compute; eexists; reflexivity).
    exists final. split; [exact E|].
    assert (match Insta.main (page_fetch page_le_bernardin) utf8 hundred_doc with
            | Ok s => (List.length (Insta.hits s),
                       nth_error (Insta.out s) 300,
                       existsb ISpec.shows_errors (Insta.out s))
            | Raise _ => (0, None, true)
            end = (100,
                   Some (EvPrint (Insta.LHit 100 100 (numbered 100)
                                    (str "lebernardin"))),
                   false)) as H by (vm_compute; reflexivity).
    rewrite E in H. injection H as H1 H2 H3.
    split; [exact H1|]. split; [exact H2|].
    intros index total found errs Hin.
    apply shows_errors_In in Hin. congruence.
  - assert (exists final,
              Insta.main (page_fetch []) utf8 hundred_doc = Ok final)
      as [final E] by (vm_compute; eexists; reflexivity).
    exists final. split; [exact E|].
    assert (match Insta.main (page_fetch []) utf8 hundred_doc with
            | Ok s => (Insta.hits s,
                       nth_error (Insta.out s) 201,
                       existsb ISpec.shows_errors (Insta.out s))
            | Raise _ => ([], None, true)
            end = ([], Some (EvPrint (Insta.LSoFar 100 100 0)), false))
      as H by (vm_compute; reflexivity).
    rewrite E in H. injection H as H1 H2 H3.
    split; [exact H1|]. split; [exact H2|].
    intros index total found errs Hin.
    apply shows_errors_In in Hin. congruence.
Qed.

(** C8, amended.  In the API script every turn whose 1-based index is a
    multiple of 50 prints a progress line with index, total, hits and
    errors, as they stand after the turn, whether the candidate ended as a
    hit, a no-hit or an error, and a turn prints nothing else.  In the
    scrape script a hit whose line standard output can encode prints at
    once a line with index, total, name and the extracted value, and only
    that line; a no-hit prints, when its index is a multiple of 100, a
    line with index, total and hits; a candidate whose fetch or
    extraction raised prints, when its index is a multiple of 100, a line
    with index, total, hits and errors. *)
Theorem progress_lines :
  (forall urlopen total i name st,
     let st' := Google.iteration urlopen total i name st in
     exists m,
       Google.out st' = Google.out st ++
         (if existsb surrogate name then [] else [EvFetch (VStr name)]) ++
         (if Nat.eqb ((i + 1) mod 50) 0
          then [EvPrint (Google.LProgress (i + 1) total (Google.hits st')
                           (Google.errors st') m)]
          else []) ++
         [EvSleep 200] /\
       ((i + 1) mod 50 = 0 ->
        In (EvPrint (Google.LProgress (i + 1) total (Google.hits st')
                       (Google.errors st') m)) (Google.out st'))) /\
  (forall fetch stdout total i r st slug,
     Insta.slug_of r = Ok slug ->
     exists st',
       Insta.iteration fetch stdout total i r st = Ok st' /\
       match ISpec.outcome_of (fetch slug) with
       | Hit =>
           exists ig,
             Insta.hits st' = Insta.hits st ++ [(Insta.c_name r, ig)] /\
             (ISpec.printable stdout r ig = true ->
              Insta.out st' = Insta.out st ++
                [EvFetch slug;
                 EvPrint (Insta.LHit (i + 1) total (Insta.c_name r) ig);
                 EvSleep 500])
       | NoHit =>
           Insta.out st' = Insta.out st ++
             [EvFetch slug] ++
             (if Nat.eqb ((i + 1) mod 100) 0
              then [EvPrint (Insta.LSoFar (i + 1) total
                               (List.length (Insta.hits st')))]
              else []) ++
             [EvSleep 500]
       | Error =>
           Insta.out st' = Insta.out st ++
             [EvFetch slug] ++
             (if Nat.eqb ((i + 1) mod 100) 0
              then [EvPrint (Insta.LFoundErrors (i + 1) total
                               (List.length (Insta.hits st'))
                               (Insta.errors st'))]
              else []) ++
             [EvSleep 500]
       end).
Proof.
  split.
  - intros urlopen total i name st st'.
    destruct (iteration_out urlopen total i name st) as [m Hm].
    fold st' in Hm. exists m. unfold GSpec.turn_events in Hm.
    rewrite sent_eq in Hm.
    assert (map (@EvFetch Google.line)
              (if existsb surrogate name then [] else [VStr name])
            = if existsb surrogate name then [] else [EvFetch (VStr name)])
      as E by (now destruct (existsb surrogate name)).
    rewrite E in Hm. split; [exact Hm|].
    intros Hmod. rewrite Hm. apply Nat.eqb_eq in Hmod. rewrite Hmod.
    apply in_or_app. right. apply in_or_app. right. now left.
  - intros fetch stdout total i r st slug Hs.
    destruct (insta_iteration_outcome fetch stdout total i r st slug Hs)
      as [st' [Hi [_ H]]].
    exists st'. split; [exact Hi|].
    destruct (ISpec.outcome_of (fetch slug)).
    + destruct H as [html [ig [_ [_ [_ [Hh H]]]]]].
      exists ig. split; [exact Hh|].
      intros Hp. rewrite Hp in H. now destruct H as [_ Ho].
    + destruct H as [Hh [_ Ho]]. rewrite Ho, Hh.
      unfold ISpec.turn_events, ISpec.at100.
      now destruct (Nat.eqb ((i + 1) mod 100) 0).
    + destruct H as [Hh [He Ho]]. rewrite Ho, Hh, He.
      unfold ISpec.turn_events, ISpec.at100.
      now destruct (Nat.eqb ((i + 1) mod 100) 0).
Qed.

Lemma progress_lines_witness :
  ((49 + 1) mod 50 = 0 /\
   exists m,
     In (EvPrint (Google.LProgress 50 60 0 1 m))
        (Google.out (Google.iteration timeout_fetch_api 60 49 (str "Bad Slug")
                       (Google.mkState bad_slug_doc 0 0 [])))) /\
  (ISpec.printable utf8 (Insta.mkCand (str "Carbone") carbone_url (VStr []))
     (str "lebernardin") = true /\
   exists st',
     Insta.iteration (page_fetch page_le_bernardin) utf8 1 0
       (Insta.mkCand (str "Carbone") carbone_url (VStr []))
       (Insta.mkState carbone_doc [] 0 []) = Ok st' /\
     Insta.out st'
       = [EvFetch (VStr (str "carbone"));
          EvPrint (Insta.LHit 1 1 (str "Carbone") (str "lebernardin"));
          EvSleep 500]).
Proof.
  split.
  - split; [reflexivity|].
    destruct (proj1 progress_lines timeout_fetch_api 60 49 (str "Bad Slug")
                (Google.mkState bad_slug_doc 0 0 [])) as [m [_ H]].
    exists m. exact (H eq_refl).
  - split; [reflexivity|].
    destruct (proj2 progress_lines (page_fetch page_le_bernardin) utf8 1 0
                (Insta.mkCand (str "Carbone") carbone_url (VStr []))
                (Insta.mkState carbone_doc [] 0 [])
                (VStr (str "carbone")) eq_refl) as [st' [Hi H]].
    exists st'. split; [exact Hi|].
    change (ISpec.outcome_of
              (page_fetch page_le_bernardin (VStr (str "carbone"))))
      with Hit in H.
    destruct H as [ig [Hh Hout]].
    injection Hi as <-. injection Hh as <-.
    exact (Hout eq_refl).
Defined.

End Progress.

(* ================================================================== *)
(** ** [ot_google.py]: a second run *)

Section FilterAsFilter.

Import Spec GSpec Google.

(** The loop of lines 7-10 ends normally exactly when the test raises on
    no entry, and then keeps the keys of the entries that pass it. *)
Lemma google_filter_loop_filter doc : forall acc names,
  filter_loop doc acc = Ok names ->
  names = acc ++ keys (filter sel doc) /\
  Forall (fun kv => exists b, Filter.needs (str "lat") (snd kv) = Ok b) doc.
Proof.
  induction doc as [|[name v] doc IH]; intros acc names; cbn [filter_loop].
  - intros [= <-]. cbn. now rewrite app_nil_r.
  - destruct (Filter.needs (str "lat") v) as [b|e] eqn:Hb; [|discriminate].
    cbn [rbind]. intros Hl. apply IH in Hl. destruct Hl as [-> Hall].
    split.
    + cbn [filter]. unfold sel at 2. cbn [snd]. rewrite Hb.
      destruct b; [|reflexivity]. cbn. now rewrite <- app_assoc.
    + constructor; [|assumption]. cbn [snd]. now exists b.
Qed.

Lemma google_filter_loop_total doc : forall acc,
  Forall (fun kv => exists b, Filter.needs (str "lat") (snd kv) = Ok b) doc ->
  filter_loop doc acc = Ok (acc ++ keys (filter sel doc)).
Proof.
  induction doc as [|[name v] doc IH]; intros acc Hall; cbn [filter_loop].
  - cbn. now rewrite app_nil_r.
  - inversion Hall as [|? ? [b Hb] Hall']; subst. cbn [snd] in Hb.
    rewrite Hb. cbn [rbind]. rewrite IH by assumption.
    cbn [filter]. unfold sel at 2. cbn [snd]. rewrite Hb.
    destruct b; [|reflexivity]. cbn. now rewrite <- app_assoc.
Qed.

Lemma keys_filter_In (f : pystr * value -> bool) doc n :
  In n (keys (filter f doc)) -> exists v, In (n, v) doc /\ f (n, v) = true.
Proof.
  unfold keys. rewrite in_map_iff. intros [[k v] [<- Hin]].
  apply filter_In in Hin. now exists v.
Qed.

Lemma NoDup_keys_filter (f : pystr * value -> bool) doc :
  NoDup (keys doc) -> NoDup (keys (filter f doc)).
Proof.
  induction doc as [|[k v] doc IH]; cbn; [intros; constructor|].
  intros Hnd. inversion Hnd as [|? ? Hnotin Hnd']; subst.
  destruct (f (k, v)); [|now apply IH].
  cbn. constructor; [|now apply IH].
  intros Hin. apply keys_filter_In in Hin. destruct Hin as [v' [Hin _]].
  apply Hnotin. change k with (fst (k, v')). now apply in_map.
Qed.

End FilterAsFilter.

Section SameMatch.

Import Spec GSpec Google.

Variable urlopen : pystr -> result value.

Lemma In_dec_str (n : pystr) (l : list pystr) : In n l \/ ~ In n l.
Proof.
  destruct (in_dec (list_eq_dec N.eq_dec) n l); [now left | now right].
Qed.

(** Enriching twice with the same match is enriching once. *)
Lemma enriched_idem ld cd rd :
  enriched ld cd (enriched ld cd rd) = enriched ld cd rd.
Proof.
  destruct (enriched_fields ld cd rd) as [H1 [H2 [H3 [H4 [H5 _]]]]].
  cbv zeta in *. set (E := enriched ld cd rd) in *.
  unfold enriched at 1.
  now rewrite (dict_set_same _ _ _ H1), (dict_set_same _ _ _ H2),
    (dict_set_same _ _ _ H3), (dict_set_same _ _ _ H4),
    (dict_set_same _ _ _ H5).
Qed.

(** A loop over names whose records are settled leaves the store as it
    is. *)
Lemma loop_on_settled names : forall total i st,
  (forall n, In n names ->
     exists rd, dict_get n (lookup st) = Some (VDict rd) /\ settled (fetch urlopen n) rd) ->
  lookup (loop urlopen total i names st) = lookup st.
Proof.
  induction names as [|name names IH]; intros total i st Hfix; cbn [loop];
    [reflexivity|].
  destruct (Hfix name (or_introl eq_refl)) as [rd [Hrd Hset]].
  assert (lookup (iteration urlopen total i name st) = lookup st) as Hsame.
  { pose proof (iteration_outcome urlopen total i name st rd Hrd) as H.
    cbv zeta in H.
    destruct (outcome_of (fetch urlopen name)).
    - destruct H as [_ [_ [_ [dd [cd [rest [ld [Hf [Hc [Hl ->]]]]]]]]]].
      rewrite (Hset dd cd rest ld Hf Hc Hl). now apply dict_set_same.
    - now destruct H as [-> _].
    - now destruct H as [-> _]. }
  rewrite IH; [assumption|].
  intros n Hn. rewrite Hsame. apply Hfix. now right.
Qed.

(** Line 9 on an enriched record: it does not raise where it did not
    before, and passes only if it passed before and the latitude written
    is falsy. *)
Lemma needs_enriched ld cd rd0 b :
  Filter.needs (str "lat") (VDict rd0) = Ok b ->
  exists b',
    Filter.needs (str "lat") (VDict (enriched ld cd rd0)) = Ok b' /\
    (b' = true -> truthy (get_or_none (str "lat") ld) = false).
Proof.
  destruct (enriched_fields ld cd rd0) as [H1 [_ [_ [_ [_ Hrest]]]]].
  cbv zeta in *. unfold Filter.needs, py_get.
  rewrite H1, Hrest
    by (unfold five_fields; cbn [map In];
        intros [E | [E | [E | [E | [E | []]]]]]; vm_compute in E;
        discriminate).
  cbn [rbind].
  destruct (py_in (str "opentable") _) as [[|]|e]; cbn [rbind];
    try discriminate; intros _; eexists; (split; [reflexivity|]).
  - now rewrite negb_true_iff.
  - discriminate.
Qed.

Section SecondFilter.

(** [doc] is the store the first run read and [lookup1] the store it
    wrote. *)
Variables (doc lookup1 : dict).
Hypothesis Hnd : NoDup (keys doc).
Hypothesis Hok :
  Forall (fun kv => exists b, Filter.needs (str "lat") (snd kv) = Ok b) doc.
Hypothesis H1 : forall n, In n (keys (filter sel doc)) ->
  exists rd0,
    dict_get n doc = Some (VDict rd0) /\
    match outcome_of (fetch urlopen n) with
    | Hit =>
        exists dd cd rest ld,
          fetch urlopen n = Ok (VDict dd) /\
          dict_get (str "candidates") dd = Some (VList (VDict cd :: rest)) /\
          location_of (VDict cd) = Some ld /\
          dict_get n lookup1 = Some (VDict (enriched ld cd rd0))
    | _ => dict_get n lookup1 = Some (VDict rd0)
    end.
Hypothesis H2 : forall n, ~ In n (keys (filter sel doc)) ->
  dict_get n lookup1 = dict_get n doc.
Hypothesis H3 : keys lookup1 = keys doc.

(** An entry of the store after the first run is the enriched record of
    a candidate that got a hit, or a record of the store as loaded, which
    if it passes line 9 is that of a candidate that got no hit. *)
Lemma entry_cases n v' :
  In (n, v') lookup1 ->
  (exists rd0 dd cd rest ld,
     In (n, VDict rd0) doc /\
     fetch urlopen n = Ok (VDict dd) /\
     dict_get (str "candidates") dd = Some (VList (VDict cd :: rest)) /\
     location_of (VDict cd) = Some ld /\
     v' = VDict (enriched ld cd rd0)) \/
  (In (n, v') doc /\
   (sel (n, v') = true ->
    In n (keys (filter sel doc)) /\ outcome_of (fetch urlopen n) <> Hit)).
Proof.
  intros Hin.
  assert (dict_get n lookup1 = Some v') as Hget
    by (apply dict_get_NoDup; [now rewrite H3 | assumption]).
  destruct (In_dec_str n (keys (filter sel doc))) as [Hn | Hn].
  - destruct (H1 n Hn) as [rd0 [Ha Hb]].
    destruct (outcome_of (fetch urlopen n)) eqn:Ho.
    + left. destruct Hb as [dd [cd [rest [ld [Hf [Hc [Hl Hb]]]]]]].
      exists rd0, dd, cd, rest, ld.
      split; [now apply dict_get_In|]. repeat split; try assumption.
      congruence.
    + right. assert (v' = VDict rd0) by congruence. subst v'.
      split; [now apply dict_get_In|]. intros _. split; [assumption|].
      discriminate.
    + right. assert (v' = VDict rd0) by congruence. subst v'.
      split; [now apply dict_get_In|]. intros _. split; [assumption|].
      discriminate.
  - right. rewrite (H2 n Hn) in Hget. apply dict_get_In in Hget.
    split; [assumption|]. intros Hs. exfalso. apply Hn.
    unfold keys. apply in_map_iff.
    exists (n, v'). split; [reflexivity|]. apply filter_In. now split.
Qed.

Lemma second_filter_total :
  Forall (fun kv => exists b, Filter.needs (str "lat") (snd kv) = Ok b)
         lookup1.
Proof.
  rewrite Forall_forall in *. intros [n v'] Hin. cbn [snd].
  destruct (entry_cases n v' Hin)
    as [[rd0 [dd [cd [rest [ld [Hd [_ [_ [_ ->]]]]]]]]] | [Hd _]].
  - destruct (Hok _ Hd) as [b Hb]. cbn [snd] in Hb.
    destruct (needs_enriched ld cd rd0 b Hb) as [b' [Hb' _]]. now exists b'.
  - exact (Hok _ Hd).
Qed.

(** The candidates of the second run hold what a hit would write. *)
Lemma second_filter_settled n :
  In n (keys (filter sel lookup1)) ->
  exists rd', dict_get n lookup1 = Some (VDict rd') /\ settled (fetch urlopen n) rd'.
Proof.
  intros Hn. apply keys_filter_In in Hn. destruct Hn as [v' [Hin Hs]].
  assert (dict_get n lookup1 = Some v') as Hget
    by (apply dict_get_NoDup; [now rewrite H3 | assumption]).
  destruct (entry_cases n v' Hin)
    as [[rd0 [dd [cd [rest [ld [Hd [Hf [Hc [Hl ->]]]]]]]]] | [Hd Hsel]].
  - exists (enriched ld cd rd0). split; [assumption|].
    intros dd' cd' rest' ld' Hf' Hc' Hl'.
    assert (dd' = dd) by congruence. subst dd'.
    assert (cd' = cd) by congruence. subst cd'.
    assert (ld' = ld) by congruence. subst ld'.
    apply enriched_idem.
  - destruct (Hsel Hs) as [_ Hno].
    rewrite Forall_forall in Hok. destruct (Hok _ Hd) as [b Hb].
    cbn [snd] in Hb. destruct (needs_dict _ _ _ Hb) as [rd ->].
    exists rd. split; [assumption|].
    intros dd cd rest ld Hf Hc Hl. exfalso. apply Hno.
    unfold outcome_of. rewrite Hf, Hc.
    cbn [truthy List.length Nat.eqb negb]. now rewrite Hl.
Qed.

(** When every hit writes a truthy latitude, the candidates of the second
    run are the candidates of the first that got no hit. *)
Lemma second_filter_names n :
  (forall dd cd rest ld,
     fetch urlopen n = Ok (VDict dd) ->
     dict_get (str "candidates") dd = Some (VList (VDict cd :: rest)) ->
     location_of (VDict cd) = Some ld ->
     truthy (get_or_none (str "lat") ld) = true) ->
  In n (keys (filter sel lookup1)) <->
  In n (keys (filter sel doc)) /\ outcome_of (fetch urlopen n) <> Hit.
Proof.
  intros Hlat. split.
  - intros Hn. apply keys_filter_In in Hn. destruct Hn as [v' [Hin Hs]].
    destruct (entry_cases n v' Hin)
      as [[rd0 [dd [cd [rest [ld [Hd [Hf [Hc [Hl ->]]]]]]]]] | [Hd Hsel]].
    + exfalso. rewrite Forall_forall in Hok.
      destruct (Hok _ Hd) as [b Hb]. cbn [snd] in Hb.
      destruct (needs_enriched ld cd rd0 b Hb) as [b' [Hb' Hfalsy]].
      unfold sel in Hs. cbn [snd] in Hs. rewrite Hb' in Hs.
      destruct b'; [|discriminate].
      rewrite (Hlat dd cd rest ld Hf Hc Hl) in Hfalsy.
      specialize (Hfalsy eq_refl). discriminate.
    + exact (Hsel Hs).
  - intros [Hn Hno]. destruct (H1 n Hn) as [rd0 [Ha Hb]].
    assert (dict_get n lookup1 = Some (VDict rd0)) as Hget
      by (destruct (outcome_of (fetch urlopen n));
          [now contradiction Hno | assumption | assumption]).
    apply keys_filter_In in Hn. destruct Hn as [v [Hin Hs]].
    assert (v = VDict rd0)
      by (apply (dict_get_NoDup _ _ _ Hnd) in Hin; congruence).
    subst v. unfold keys. apply in_map_iff. exists (n, VDict rd0).
    split; [reflexivity|]. apply filter_In.
    split; [now apply dict_get_In | assumption].
Qed.

End SecondFilter.

Lemma flat_map_nil {A B} (f : A -> list B) l :
  (forall x, In x l -> f x = []) -> flat_map f l = [].
Proof.
  induction l as [|x l IH]; [reflexivity|]. intros H. cbn [flat_map].
  rewrite (H x (or_introl eq_refl)), IH; [reflexivity|].
  intros y Hy. apply H. now right.
Qed.

Lemma count_all o l :
  (forall x, In x l -> x = o) -> count o l = List.length l.
Proof.
  induction l as [|x l IH]; [reflexivity|]. intros H. rewrite count_cons.
  rewrite (H x (or_introl eq_refl)), IH by (intros y Hy; apply H; now right).
  now destruct o.
Qed.

Lemma count_none o l :
  (forall x, In x l -> x <> o) -> count o l = 0.
Proof.
  induction l as [|x l IH]; [reflexivity|]. intros H. rewrite count_cons.
  rewrite IH by (intros y Hy; apply H; now right).
  pose proof (H x (or_introl eq_refl)) as Hx.
  destruct o, x; try reflexivity; now contradiction Hx.
Qed.

(** Running the API script on the store a first run wrote, with the same
    answers from the network, gives back that store. *)
Lemma second_run doc st1 :
  NoDup (keys doc) ->
  main urlopen doc = Ok st1 ->
  exists names1 names2 st2,
    filter_loop doc [] = Ok names1 /\
    filter_loop (lookup st1) [] = Ok names2 /\
    main urlopen (lookup st1) = Ok st2 /\
    lookup st2 = lookup st1 /\
    requests (out st2) = flat_map sent names2 /\
    hits st2
      = count Hit (map (fun n => outcome_of (fetch urlopen n)) names2) /\
    errors st2
      = count Error (map (fun n => outcome_of (fetch urlopen n)) names2) /\
    ((forall n dd cd rest ld,
        fetch urlopen n = Ok (VDict dd) ->
        dict_get (str "candidates") dd = Some (VList (VDict cd :: rest)) ->
        location_of (VDict cd) = Some ld ->
        truthy (get_or_none (str "lat") ld) = true) ->
     forall n, In n names2 <->
               In n names1 /\ outcome_of (fetch urlopen n) <> Hit).
Proof.
  intros Hnd Hm.
  destruct (main_inv urlopen doc st1 Hm)
    as [names [st1' [Hf [Hst [Hlk _]]]]].
  pose proof (filter_loop_entries doc names 0 0
                [EvRead path; EvPrint (LNeeding (List.length names))] Hf)
    as Hent.
  destruct (google_filter_loop_filter doc [] names Hf) as [Hnames Hok].
  cbn [app] in Hnames.
  assert (NoDup names) as Hndn
    by (rewrite Hnames; now apply NoDup_keys_filter).
  destruct (loop_counters urlopen names (List.length names) 0 _ Hent)
    as [_ [_ H3]].
  destruct (loop_final urlopen names (List.length names) 0 _ Hndn Hent)
    as [H1 H2].
  cbv zeta in H1, H2, H3.
  rewrite <- Hst, <- Hlk in H1, H2, H3. cbn [lookup] in H1, H2, H3.
  rewrite Hnames in H1, H2.
  pose proof (second_filter_total doc (lookup st1) Hnd Hok H1 H2 H3) as Hok2.
  pose proof (google_filter_loop_total (lookup st1) [] Hok2) as Hf2.
  cbn [app] in Hf2.
  set (names2 := keys (filter sel (lookup st1))) in *.
  set (st0 := mkState (lookup st1) 0 0
                [EvRead path; EvPrint (LNeeding (List.length names2))]).
  pose proof (filter_loop_entries (lookup st1) names2 0 0
                [EvRead path; EvPrint (LNeeding (List.length names2))] Hf2)
    as Hent2.
  fold st0 in Hent2.
  assert (lookup (loop urlopen (List.length names2) 0 names2 st0)
          = lookup st1) as Hloop2.
  { rewrite loop_on_settled; [reflexivity|].
    intros n Hn. cbn [lookup st0].
    exact (second_filter_settled doc (lookup st1) Hnd Hok H1 H2 H3 n Hn). }
  destruct (loop_counters urlopen names2 (List.length names2) 0 st0 Hent2)
    as [Hh2 [He2 _]].
  destruct (loop_out urlopen names2 (List.length names2) 0 st0)
    as [evs [Hevs [Hreq _]]].
  cbv zeta in Hh2, He2. cbn [hits errors st0] in Hh2, He2.
  exists names, names2. eexists.
  split; [exact Hf|]. split; [exact Hf2|].
  split; [unfold main; rewrite Hf2; cbn [rbind]; reflexivity|].
  fold st0. cbn [emit lookup hits errors out].
  split; [exact Hloop2|].
  split.
  { rewrite !requests_app, Hevs, requests_app, Hreq. cbn [st0 out].
    cbn. now rewrite !app_nil_r. }
  split; [exact Hh2|]. split; [exact He2|].
  intros Hlat n. rewrite Hnames.
  apply (second_filter_names doc (lookup st1) Hnd Hok H1 H2 H3 n).
  exact (Hlat n).
Qed.

End SameMatch.

Section SameMatchStub.

Import Spec GSpec Google.

(** The stub: every request gets the same answer. *)
Variable r : result value.

Lemma outcome_hit_inv :
  outcome_of r = Hit ->
  exists dd cd rest ld,
    r = Ok (VDict dd) /\
    dict_get (str "candidates") dd = Some (VList (VDict cd :: rest)) /\
    location_of (VDict cd) = Some ld.
Proof.
  unfold outcome_of. destruct r as [[| | | | | |dd]|e]; try discriminate.
  destruct (dict_get (str "candidates") dd) as [cs|] eqn:Hc; [|discriminate].
  destruct (truthy cs); [|discriminate].
  destruct cs as [| | | | |[|c rest]|]; try discriminate.
  destruct (location_of c) as [ld|] eqn:Hl; [|discriminate].
  destruct c as [| | | | | |cd]; try discriminate.
  intros _. now exists dd, cd, rest, ld.
Qed.

(** C6.  With a fetch that gives every request the same answer, run the
    API script on a store with distinct keys and then again on the store it
    wrote.  The second run ends normally and writes the store it read:
    every record, enriched by the first run or not, is identical.  When
    the answer is a match whose latitude is truthy, this is because the
    filter of the second run selects no record that the first run
    enriched: no request is made and no hit is counted.  Its candidates
    are the candidates of the first run that line 19 raised on, those
    whose name holds a surrogate; each of them is counted as an error
    again.  So on a store without such names the filter of the second run
    selects nothing and the second run counts no error either. *)
Theorem second_run_changes_nothing doc st1 :
  NoDup (keys doc) ->
  main (fun _ => r) doc = Ok st1 ->
  exists st2,
    main (fun _ => r) (lookup st1) = Ok st2 /\
    lookup st2 = lookup st1 /\
    (forall dd cd rest ld,
       r = Ok (VDict dd) ->
       dict_get (str "candidates") dd = Some (VList (VDict cd :: rest)) ->
       location_of (VDict cd) = Some ld ->
       truthy (get_or_none (str "lat") ld) = true ->
       requests (out st2) = [] /\ hits st2 = 0 /\
       (exists names1 names2,
          filter_loop doc [] = Ok names1 /\
          filter_loop (lookup st1) [] = Ok names2 /\
          (forall n, In n names2 <->
                     In n names1 /\ existsb surrogate n = true) /\
          errors st2 = List.length names2) /\
       ((forall n, In n (keys doc) -> existsb surrogate n = false) ->
        filter_loop (lookup st1) [] = Ok [] /\ errors st2 = 0)).
Proof.
  intros Hnd Hm.
  destruct (second_run (fun _ => r) doc st1 Hnd Hm)
    as [names1 [names2 [st2 [Hf1 [Hf2 [Hm2 [Hlk [Hreq [Hh [He Hiff]]]]]]]]]].
  exists st2. split; [exact Hm2|]. split; [exact Hlk|].
  intros dd cd rest ld Hr Hc Hl Ht.
  assert (forall n, outcome_of (fetch (fun _ => r) n) <> Hit <->
                    existsb surrogate n = true) as Hout.
  { intros n. rewrite fetch_eq.
    destruct (existsb surrogate n).
    - split; [reflexivity | discriminate].
    - unfold outcome_of. rewrite Hr, Hc.
      cbn [truthy List.length Nat.eqb negb]. rewrite Hl.
      split; [intros H; now contradiction H | discriminate]. }
  assert (forall n, In n names2 <->
                    In n names1 /\ existsb surrogate n = true) as Hnames.
  { intros n. rewrite <- Hout. apply Hiff.
    intros n' dd' cd' rest' ld' Hf' Hc' Hl'.
    rewrite fetch_eq in Hf'.
    destruct (existsb surrogate n'); [discriminate|].
    assert (dd' = dd) by congruence. subst dd'.
    assert (cd' = cd) by congruence. subst cd'.
    assert (ld' = ld) by congruence. subst ld'. exact Ht. }
  assert (forall n, In n names2 ->
                    outcome_of (fetch (fun _ => r) n) = Error) as Herr.
  { intros n Hn. apply Hnames in Hn. destruct Hn as [_ Hs].
    rewrite fetch_eq, Hs. reflexivity. }
  assert (requests (out st2) = []) as Hreq0.
  { rewrite Hreq. apply flat_map_nil. intros n Hn.
    apply Hnames in Hn. destruct Hn as [_ Hs]. now rewrite sent_eq, Hs. }
  assert (hits st2 = 0) as Hh0.
  { rewrite Hh. apply count_none. intros o Ho.
    apply in_map_iff in Ho. destruct Ho as [n [<- Hn]].
    rewrite (Herr n Hn). discriminate. }
  assert (errors st2 = List.length names2) as He0.
  { rewrite He, count_all; [apply length_map|].
    intros o Ho. apply in_map_iff in Ho. destruct Ho as [n [<- Hn]].
    exact (Herr n Hn). }
  split; [exact Hreq0|]. split; [exact Hh0|]. split.
  - exists names1, names2. split; [exact Hf1|]. split; [exact Hf2|].
    split; [exact Hnames | exact He0].
  - intros Hclean.
    assert (names2 = []) as Hnil.
    { destruct names2 as [|n l]; [reflexivity|]. exfalso.
      destruct (proj1 (Hnames n) (or_introl eq_refl)) as [Hin Hs].
      destruct (filter_loop_names doc [] names1 Hf1) as [_ Hkeys].
      destruct (Hkeys n Hin) as [[] | Hk].
      rewrite (Hclean n Hk) in Hs. discriminate. }
    rewrite Hnil in Hf2, He0. split; [exact Hf2 | exact He0].
Qed.

End SameMatchStub.

Lemma second_run_changes_nothing_witness :
  NoDup (keys Examples.mixed_doc) /\
  exists st1 st2,
    Google.main Examples.carbone_fetch Examples.mixed_doc = Ok st1 /\
    Google.main Examples.carbone_fetch (Google.lookup st1) = Ok st2 /\
    Google.lookup st2 = Google.lookup st1 /\
    requests (Google.out st2) = [] /\
    Google.filter_loop (Google.lookup st1) [] = Ok [].
Proof.
  assert (NoDup (keys Examples.mixed_doc)) as Hnd.
  { repeat constructor; cbn; intuition discriminate. }
  split; [exact Hnd|].
  eexists.
  destruct (second_run_changes_nothing (Ok Examples.carbone_body)
              Examples.mixed_doc _ Hnd eq_refl) as [st2 [H2 [H3 H4]]].
  exists st2. split; [reflexivity|]. split; [exact H2|].
  split; [exact H3|].
  destruct (H4 _ _ _ _ eq_refl eq_refl eq_refl eq_refl)
    as [Hreq [_ [_ Hclean]]].
  split; [exact Hreq|].
  apply Hclean. intros n Hn. cbn in Hn.
  destruct Hn as [<- | [<- | [<- | [<- | []]]]]; reflexivity.
Defined.

(* ================================================================== *)
(** ** Requests and pauses *)

Section Pacing.

Import Spec Examples.

Lemma sleeps_app {L} (a b : list (event L)) :
  sleeps (a ++ b) = sleeps a ++ sleeps b.
Proof. apply flat_map_app. Qed.

Lemma google_loop_sleeps urlopen names : forall total i st,
  sleeps (Google.out (Google.loop urlopen total i names st))
  = sleeps (Google.out st) ++ repeat 200%N (List.length names).
Proof.
  induction names as [|name names IH]; intros total i st;
    cbn [Google.loop List.length repeat].
  - now rewrite app_nil_r.
  - rewrite IH. destruct (iteration_out urlopen total i name st) as [m ->].
    rewrite sleeps_app, <- app_assoc. f_equal.
    unfold GSpec.turn_events, GSpec.sent.
    destruct (Google.quote (Google.query name));
      now destruct (Nat.eqb ((i + 1) mod 50) 0).
Qed.

(** X1.  A run of the API script makes at most one request per
    candidate, in the order of the candidate list: one for each candidate
    whose name holds no surrogate, and none for a name that does, on
    which line 19 raises before the request.  It pauses 0.2 s after each
    candidate, whatever became of it. *)
Theorem google_one_request_per_candidate urlopen doc final :
  Google.main urlopen doc = Ok final ->
  exists names,
    Google.filter_loop doc [] = Ok names /\
    requests (Google.out final)
      = map VStr (filter (fun n => negb (existsb surrogate n)) names) /\
    sleeps (Google.out final) = repeat 200%N (List.length names).
Proof.
  intros Hm.
  destruct (main_inv urlopen doc final Hm)
    as [names [st1 [Hf [Hst [_ [_ [_ Ho]]]]]]].
  exists names. split; [assumption|].
  rewrite Ho, requests_app, sleeps_app. subst st1.
  rewrite google_loop_sleeps.
  destruct (loop_out urlopen names (List.length names) 0
              (Google.mkState doc 0 0
                 [EvRead Google.path;
                  EvPrint (Google.LNeeding (List.length names))]))
    as [evs [-> [Hr _]]].
  rewrite requests_app, Hr. cbn. rewrite !app_nil_r. split; [|reflexivity].
  clear. induction names as [|n names IH]; [reflexivity|].
  cbn [flat_map filter]. rewrite IH, sent_eq.
  now destruct (existsb surrogate n).
Qed.

Lemma google_one_request_per_candidate_witness :
  exists final,
    Google.main timeout_fetch_api
      (([0xD800%N], VDict [(str "url", carbone_url)]) :: mixed_doc) = Ok final /\
    requests (Google.out final)
      = [VStr (str "Carbone"); VStr (str "Via Carota")] /\
    sleeps (Google.out final) = [200%N; 200%N; 200%N].
Proof.
  eexists. split; [reflexivity|].
  destruct (google_one_request_per_candidate timeout_fetch_api
              (([0xD800%N], VDict [(str "url", carbone_url)]) :: mixed_doc)
              _ eq_refl)
    as [names [H1 [H2 H3]]].
  injection H1 as <-. split; [exact H2 | exact H3].
Defined.

Lemma insta_loop_sleeps fetch stdout rs : forall total i st st',
  Insta.loop fetch stdout total i rs st = Ok st' ->
  sleeps (Insta.out st')
  = sleeps (Insta.out st) ++ repeat 500%N (List.length rs).
Proof.
  induction rs as [|r rs IH]; intros total i st st';
    cbn [Insta.loop List.length repeat].
  - intros [= <-]. now rewrite app_nil_r.
  - destruct (Insta.iteration fetch stdout total i r st) as [st1|e] eqn:Hi;
      [|discriminate].
    cbn [rbind]. intros Hl. rewrite (IH _ _ _ _ Hl).
    destruct (insta_iteration_out fetch stdout _ _ _ _ _ Hi)
      as [slug [line [_ ->]]].
    rewrite sleeps_app, <- app_assoc. f_equal.
    unfold ISpec.turn_events. now destruct line.
Qed.

(** X2.  A run of the scrape script requests one page per candidate, in
    the order of the candidate list, for the slug line 18 gives, and
    pauses 0.5 s after each of them, whatever became of it. *)
Theorem insta_one_request_per_candidate fetch stdout doc final :
  Insta.main fetch stdout doc = Ok final ->
  exists cands,
    Insta.filter_loop doc [] = Ok cands /\
    map Ok (requests (Insta.out final)) = map Insta.slug_of cands /\
    sleeps (Insta.out final) = repeat 500%N (List.length cands).
Proof.
  intros Hm.
  destruct (insta_main_inv fetch stdout doc final Hm)
    as [cands [st1 [Hf [Hl [_ [_ [_ Ho]]]]]]].
  exists cands. split; [assumption|].
  rewrite Ho, requests_app, sleeps_app.
  rewrite (insta_loop_sleeps fetch stdout _ _ _ _ _ Hl).
  destruct (insta_loop_out fetch stdout cands _ _ _ _ Hl) as [evs [-> [Hr _]]].
  rewrite requests_app. cbn. rewrite !app_nil_r. now split.
Qed.

Lemma insta_one_request_per_candidate_witness :
  exists cands,
    Insta.filter_loop mixed_doc [] = Ok cands /\
    exists final,
      map Ok (requests (Insta.out final)) = map Insta.slug_of cands.
Proof.
  destruct (insta_one_request_per_candidate timeout_fetch_page utf8 mixed_doc
              _ eq_refl) as [cands [H1 [H2 _]]].
  exists cands. split; [exact H1|]. eexists. exact H2.
Defined.

End Pacing.

(* ================================================================== *)
(** ** Line 18 of [ot_insta.py]: the slug *)

Section Slug.

Import Spec ISpec Re Insta Examples.

Lemma split_nonempty sep s : split sep s <> [].
Proof.
  destruct s as [|x s]; cbn [split]; [discriminate|].
  destruct (N.eqb x sep); [discriminate|].
  destruct (split sep s); discriminate.
Qed.

Lemma join_cons sep h l :
  l <> [] -> join sep (h :: l) = h ++ sep :: join sep l.
Proof. destruct l; [contradiction | reflexivity]. Qed.

(** Joining the pieces with the separator gives the string back. *)
Lemma join_split sep s : join sep (split sep s) = s.
Proof.
  induction s as [|x s IH]; cbn [split]; [reflexivity|].
  destruct (N.eqb x sep) eqn:E.
  - apply N.eqb_eq in E. subst x.
    rewrite join_cons by apply split_nonempty. now rewrite IH.
  - pose proof (split_nonempty sep s) as Hne.
    destruct (split sep s) as [|h t]; [contradiction|].
    destruct t as [|h' t].
    + cbn in *. now rewrite IH.
    + rewrite join_cons by discriminate.
      rewrite join_cons in IH by discriminate.
      cbn [app]. now rewrite IH.
Qed.

Lemma split_no_sep sep s : Forall (fun seg => ~ In sep seg) (split sep s).
Proof.
  induction s as [|x s IH]; cbn [split].
  - constructor; [intros [] | constructor].
  - destruct (N.eqb x sep) eqn:E.
    + constructor; [intros [] | assumption].
    + destruct (split sep s) as [|h t]; [repeat constructor|].
      * intros [-> | []]. now rewrite N.eqb_refl in E.
      * inversion IH as [|? ? Hh Ht]; subst. constructor; [|assumption].
        intros [-> | Hin]; [now rewrite N.eqb_refl in E | contradiction].
Qed.

Lemma join_last sep l :
  l <> [] ->
  exists before,
    join sep l = before ++ last l [] /\
    (before = [] \/ exists b, before = b ++ [sep]).
Proof.
  induction l as [|h l IH]; [contradiction|]. intros _.
  destruct l as [|h' l].
  - exists []. split; [reflexivity | now left].
  - destruct IH as [before [Hj Hb]]; [discriminate|].
    rewrite join_cons by discriminate. rewrite Hj.
    exists (h ++ sep :: before). split.
    + change (last (h :: h' :: l) []) with (last (h' :: l) []).
      now rewrite <- app_assoc.
    + right. destruct Hb as [-> | [b ->]].
      * exists h. reflexivity.
      * exists (h ++ sep :: b). now rewrite <- app_assoc.
Qed.

(** X3.  Line 18: a truthy [slug] field is used as it is; otherwise the
    slug is what follows the last slash of the [url] string, so it holds
    no slash, it ends the url, and it is empty when the url ends in a
    slash; with a falsy [slug] and a [url] that is not a string the line
    raises AttributeError. *)
Theorem slug_is_last_segment r :
  (truthy (c_slug r) = true -> slug_of r = Ok (c_slug r)) /\
  (truthy (c_slug r) = false ->
   forall u, c_url r = VStr u ->
     exists before seg,
       slug_of r = Ok (VStr seg) /\
       u = before ++ seg /\ ~ In (chr "/") seg /\
       (before = [] \/ exists b, before = b ++ [chr "/"])) /\
  (truthy (c_slug r) = false ->
   (forall u, c_url r <> VStr u) -> slug_of r = Raise AttributeError).
Proof.
  unfold slug_of. split; [|split].
  - now intros ->.
  - intros -> u ->.
    destruct (join_last (chr "/") (split (chr "/") u) (split_nonempty _ _))
      as [before [Hj Hb]].
    rewrite join_split in Hj.
    exists before, (last (split (chr "/") u) []).
    split; [reflexivity|]. split; [exact Hj|]. split; [|exact Hb].
    pose proof (split_no_sep (chr "/") u) as Hall.
    rewrite Forall_forall in Hall. apply Hall.
    pose proof (split_nonempty (chr "/") u) as Hne.
    destruct (split (chr "/") u) as [|h t] eqn:E; [contradiction|].
    rewrite <- E in *.
    destruct (exists_last Hne) as [init [z Hz]]. rewrite Hz.
    rewrite last_last. apply in_or_app. right. now left.
  - intros -> Hu. destruct (c_url r); try reflexivity.
    exfalso. now apply (Hu s).
Qed.

Lemma slug_is_last_segment_witness :
  slug_of (mkCand (str "Carbone") carbone_url (VStr [])) = Ok (VStr (str "carbone")).
Proof.
  destruct (proj1 (proj2 (slug_is_last_segment
              (mkCand (str "Carbone") carbone_url (VStr [])))) eq_refl
              _ eq_refl) as [before [seg [Hs _]]].
  reflexivity.
Defined.

End Slug.

(* ================================================================== *)
(** ** Line 18 of [ot_insta.py] is outside [try] *)

Section Abort.

Import Spec ISpec Examples.

Lemma slug_of_raises r e : Insta.slug_of r = Raise e -> e = AttributeError.
Proof.
  unfold Insta.slug_of. destruct (truthy (Insta.c_slug r)); [discriminate|].
  destruct (Insta.c_url r); try discriminate; now intros [= <-].
Qed.

(** The loop ends normally exactly when line 18 does for every
    candidate; otherwise it ends with the AttributeError of line 18. *)
Lemma insta_loop_result fetch stdout rs : forall total i st,
  (Forall (fun r => exists slug, Insta.slug_of r = Ok slug) rs /\
   exists st', Insta.loop fetch stdout total i rs st = Ok st') \/
  (Exists (fun r => exists e, Insta.slug_of r = Raise e) rs /\
   Insta.loop fetch stdout total i rs st = Raise AttributeError).
Proof.
  induction rs as [|r rs IH]; intros total i st; cbn [Insta.loop].
  - left. split; [constructor | now exists st].
  - destruct (Insta.slug_of r) as [slug|e] eqn:Hs.
    + destruct (insta_iteration_outcome fetch stdout total i r st slug Hs)
        as [st1 [-> _]].
      cbn [rbind].
      destruct (IH total (S i) st1) as [[Hall Hok] | [Hex Hr]].
      * left. split; [|assumption]. constructor; [now exists slug | assumption].
      * right. split; [now apply Exists_cons_tl | assumption].
    + right. split; [apply Exists_cons_hd; now exists e|].
      unfold Insta.iteration. rewrite Hs. cbn [rbind].
      now rewrite (slug_of_raises r e Hs).
Qed.

(** X4.  Line 18 of the scrape script is outside [try].  Once the filter
    has given the candidates, the run ends normally exactly when every
    candidate has a truthy [slug] or a string for [url]; a candidate with
    a falsy [slug] and a [url] that is a list or an object ends the whole
    run with an uncaught AttributeError, whatever the fetches return. *)
Theorem line_18_aborts_the_run fetch stdout doc cands :
  Insta.filter_loop doc [] = Ok cands ->
  ((exists final, Insta.main fetch stdout doc = Ok final) <->
   Forall (fun r => truthy (Insta.c_slug r) = true \/
                    exists u, Insta.c_url r = VStr u) cands) /\
  (Exists (fun r => truthy (Insta.c_slug r) = false /\
                    forall u, Insta.c_url r <> VStr u) cands ->
   Insta.main fetch stdout doc = Raise AttributeError).
Proof.
  intros Hf. unfold Insta.main. rewrite Hf. cbn [rbind].
  set (st0 := Insta.mkState doc [] 0 _).
  assert (forall r, (exists slug, Insta.slug_of r = Ok slug) <->
                    (truthy (Insta.c_slug r) = true \/
                     exists u, Insta.c_url r = VStr u)) as Hslug.
  { intros r. unfold Insta.slug_of. split.
    - intros [slug H]. destruct (truthy (Insta.c_slug r)); [now left|].
      right. destruct (Insta.c_url r); try discriminate. now eexists.
    - intros [-> | [u ->]]; [now eexists|].
      destruct (truthy (Insta.c_slug r)); now eexists. }
  destruct (insta_loop_result fetch stdout cands (List.length cands) 0 st0)
    as [[Hall [st1 Hok]] | [Hex Hr]].
  - rewrite Hok. cbn [rbind]. split.
    + split; [|intros _; now eexists].
      intros _. rewrite Forall_forall in *. intros r Hr.
      apply Hslug. now apply Hall.
    + intros Hex. exfalso. rewrite Exists_exists in Hex.
      destruct Hex as [r [Hin [Hfalsy Hurl]]].
      rewrite Forall_forall in Hall. apply Hall, Hslug in Hin.
      destruct Hin as [Ht | [u Hu]]; [congruence | now apply (Hurl u)].
  - rewrite Hr. cbn [rbind]. split; [|reflexivity]. split.
    + intros [final H]. discriminate.
    + intros Hall. exfalso. rewrite Exists_exists in Hex.
      destruct Hex as [r [Hin [e He]]].
      rewrite Forall_forall in Hall. apply Hall, Hslug in Hin.
      destruct Hin as [slug Hs]. congruence.
Qed.

Lemma line_18_aborts_the_run_witness :
  Insta.main timeout_fetch_page utf8 list_url_doc = Raise AttributeError.
Proof.
  apply (proj2 (line_18_aborts_the_run timeout_fetch_page utf8 list_url_doc
                  [Insta.mkCand (str "Odd") (VList [VStr (str "opentable")])
                     (VStr [])] eq_refl)).
  apply Exists_cons_hd. split; [reflexivity | discriminate].
Defined.

End Abort.

(* ================================================================== *)
(** ** The filter is outside [try] *)

Section FatalFilter.

Import Spec ISpec Examples.

(** Line 9 raises exactly on the records that break the filter. *)
Lemma needs_raises target v :
  breaks_filter v = true <-> exists e, Filter.needs target v = Raise e.
Proof.
  unfold breaks_filter, Filter.needs, py_get.
  destruct v as [| | | | | |rd]; cbn [rbind];
    try (split; [intros _; now eexists | reflexivity]).
  destruct (dict_get (str "url") rd) as [u|]; cbn [rbind py_in].
  - destruct u; cbn [rbind py_in];
      try (split; [intros _; now eexists | reflexivity]);
      (split; [discriminate|]); intros [e H];
      match type of H with
      | (if ?b then _ else _) = _ => destruct b; discriminate
      end.
  - split; [discriminate | intros [e H]; discriminate].
Qed.

Lemma google_filter_loop_result doc : forall acc,
  (forallb (fun kv => negb (breaks_filter (snd kv))) doc = true /\
   exists names, Google.filter_loop doc acc = Ok names) \/
  (existsb (fun kv => breaks_filter (snd kv)) doc = true /\
   exists e, Google.filter_loop doc acc = Raise e).
Proof.
  induction doc as [|[name v] doc IH]; intros acc;
    cbn [Google.filter_loop forallb existsb snd].
  - left. split; [reflexivity | now eexists].
  - destruct (breaks_filter v) eqn:Hb.
    + right. split; [reflexivity|].
      apply (needs_raises (str "lat")) in Hb. destruct Hb as [e ->].
      now exists e.
    + destruct (Filter.needs (str "lat") v) as [b|e] eqn:Hn.
      * cbn [rbind negb andb orb]. apply IH.
      * assert (breaks_filter v = true)
          by (apply (needs_raises (str "lat")); now exists e).
        congruence.
Qed.

Lemma insta_filter_loop_result doc : forall acc,
  (forallb (fun kv => negb (breaks_filter (snd kv))) doc = true /\
   exists cands, Insta.filter_loop doc acc = Ok cands) \/
  (existsb (fun kv => breaks_filter (snd kv)) doc = true /\
   exists e, Insta.filter_loop doc acc = Raise e).
Proof.
  induction doc as [|[name v] doc IH]; intros acc;
    cbn [Insta.filter_loop forallb existsb snd].
  - left. split; [reflexivity | now eexists].
  - destruct (breaks_filter v) eqn:Hb.
    + right. split; [reflexivity|].
      apply (needs_raises (str "instagram")) in Hb. destruct Hb as [e ->].
      now exists e.
    + destruct (Filter.needs (str "instagram") v) as [b|e] eqn:Hn.
      * cbn [rbind negb andb orb]. destruct b; [|apply IH].
        destruct v as [| | | | | |rd]; try discriminate.
        unfold Filter.needs, py_get in Hn. cbn [py_getitem py_get rbind] in *.
        destruct (dict_get (str "url") rd) as [u|]; [|discriminate].
        cbn [rbind]. apply IH.
      * assert (breaks_filter v = true)
          by (apply (needs_raises (str "instagram")); now exists e).
        congruence.
Qed.

(** X5.  The filter of lines 7-10 is outside any [try].  The API script
    runs to the end exactly when no record breaks line 9, that is when
    every record is an object whose [url], if present, is a string, a list
    or an object; one record that is not an object, or whose [url] is
    [None], a boolean or a number, ends either script with an uncaught
    exception before any request is made. *)
Theorem filter_errors_are_fatal urlopen fetch_page stdout doc :
  ((exists final, Google.main urlopen doc = Ok final) <->
   forallb (fun kv => negb (breaks_filter (snd kv))) doc = true) /\
  (forall name v, In (name, v) doc -> breaks_filter v = true ->
     (exists e, Google.main urlopen doc = Raise e) /\
     (exists e, Insta.main fetch_page stdout doc = Raise e)).
Proof.
  assert (forall name v, In (name, v) doc -> breaks_filter v = true ->
            existsb (fun kv => breaks_filter (snd kv)) doc = true) as Hex.
  { intros name v Hin Hb. apply existsb_exists. now exists (name, v). }
  assert (existsb (fun kv => breaks_filter (snd kv)) doc = true ->
          forallb (fun kv => negb (breaks_filter (snd kv))) doc = true ->
          False) as Hexcl.
  { intros He Hf. apply existsb_exists in He. destruct He as [kv [Hin Hb]].
    rewrite forallb_forall in Hf. apply Hf in Hin. rewrite Hb in Hin.
    discriminate. }
  split.
  - unfold Google.main.
    destruct (google_filter_loop_result doc []) as [[Hall [names ->]] | [He [e ->]]];
      cbn [rbind].
    + split; [now intros _ | intros _; now eexists].
    + split; [intros [final H]; discriminate | intros Hf; exfalso; now apply Hexcl].
  - intros name v Hin Hb. pose proof (Hex name v Hin Hb) as He. split.
    + unfold Google.main.
      destruct (google_filter_loop_result doc [])
        as [[Hall _] | [_ [e ->]]];
        [exfalso; now apply Hexcl | now exists e].
    + unfold Insta.main.
      destruct (insta_filter_loop_result doc [])
        as [[Hall _] | [_ [e ->]]];
        [exfalso; now apply Hexcl | now exists e].
Qed.

Lemma filter_errors_are_fatal_witness :
  In (str "Gone", VNone) null_record_doc /\
  exists e, Google.main carbone_fetch null_record_doc = Raise e.
Proof.
  split; [right; now left|].
  exact (proj1 (proj2 (filter_errors_are_fatal carbone_fetch timeout_fetch_page utf8
           null_record_doc) (str "Gone") VNone (or_intror (or_introl eq_refl))
           eq_refl)).
Defined.

End FatalFilter.

(* ================================================================== *)
(** ** [ot_google.py]: responses of the wrong shape *)

Section Malformed.

Import Spec GSpec Google Examples.

Variable urlopen : pystr -> result value.

(** X6.  A response of the wrong shape is an error, not a hit and not a
    no-hit: when the body is not an object, when [candidates] is truthy
    but not a list (a number, [true], a non-empty string or object), when
    the first match is not an object, or when its [geometry], or the
    [location] in it, is present but not an object, the turn adds one to
    the error counter and leaves the hit counter and the store as they
    were. *)
Theorem malformed_response_is_error total i name st rd d :
  dict_get name (lookup st) = Some (VDict rd) ->
  fetch urlopen name = Ok d ->
  (is_dict d = false \/
   (exists dd c,
      d = VDict dd /\ dict_get (str "candidates") dd = Some c /\
      truthy c = true /\ is_list c = false) \/
   (exists dd c rest,
      d = VDict dd /\
      dict_get (str "candidates") dd = Some (VList (c :: rest)) /\
      (is_dict c = false \/
       (exists cd g,
          c = VDict cd /\ dict_get (str "geometry") cd = Some g /\
          (is_dict g = false \/
           exists gd l,
             g = VDict gd /\ dict_get (str "location") gd = Some l /\
             is_dict l = false))))) ->
  let st' := iteration urlopen total i name st in
  errors st' = S (errors st) /\ hits st' = hits st /\ lookup st' = lookup st.
Proof.
  intros Hn Hf Hshape st'.
  assert (outcome_of (fetch urlopen name) = Error) as Ho.
  { rewrite Hf. unfold outcome_of.
    destruct Hshape as [Hd | [[dd [c [-> [Hc [Ht Hl]]]]] | [dd [c [rest [-> [Hc Hbad]]]]]]].
    - destruct d; try reflexivity; discriminate.
    - rewrite Hc, Ht. destruct c as [| | | | |l|]; try reflexivity; discriminate.
    - rewrite Hc. cbn [truthy List.length Nat.eqb negb].
      destruct Hbad as [Hc' | [cd [g [-> [Hg Hbad]]]]].
      + destruct c; try reflexivity; discriminate.
      + cbn [location_of]. rewrite Hg.
        destruct Hbad as [Hg' | [gd [l [-> [Hl Hl']]]]].
        * destruct g; try reflexivity; discriminate.
        * rewrite Hl. destruct l; try reflexivity; discriminate. }
  pose proof (iteration_outcome urlopen total i name st rd Hn) as H.
  cbv zeta in H. rewrite Ho in H. fold st' in H.
  destruct H as [H1 [H2 [H3 _]]]. now repeat split.
Qed.

End Malformed.

Lemma malformed_response_is_error_witness :
  Google.errors
    (Google.iteration (fun _ => Ok (VList [])) 1 0 (str "Carbone")
       (Google.mkState Examples.carbone_doc 0 0 [])) = 1.
Proof.
  exact (proj1 (malformed_response_is_error (fun _ => Ok (VList [])) 1 0
                  (str "Carbone") (Google.mkState Examples.carbone_doc 0 0 [])
                  _ (VList []) eq_refl eq_refl (or_introl eq_refl))).
Defined.

(* ================================================================== *)
(** ** [ot_insta.py]: the Results List *)

Section Results.

Import Spec ISpec Re Insta Examples.

(** A non-empty result of the extraction is an accepted capture. *)
Lemma extract_accepted html ig :
  extract html = Ok ig -> ig = [] \/ accepted ig = true.
Proof.
  intros He.
  destruct (for_patterns_spec html patterns patterns_set_group)
    as [[Hr _] | [bf [p [af [ig' [_ [Hr [_ [Ha _]]]]]]]]];
    unfold extract in He; rewrite Hr in He; injection He as <-;
    [now left | now right].
Qed.

Lemma insta_loop_hits fetch stdout rs : forall total i st st',
  loop fetch stdout total i rs st = Ok st' ->
  hits st' = hits st ++ flat_map (hit_of fetch) rs.
Proof.
  induction rs as [|r rs IH]; intros total i st st'; cbn [loop flat_map].
  - intros [= <-]. now rewrite app_nil_r.
  - destruct (iteration fetch stdout total i r st) as [st1|e] eqn:Hi; [|discriminate].
    cbn [rbind]. intros Hl. rewrite (IH _ _ _ _ Hl).
    rewrite app_assoc. f_equal.
    destruct (slug_of r) as [slug|e] eqn:Hs;
      [|unfold iteration in Hi; rewrite Hs in Hi; discriminate].
    destruct (insta_iteration_outcome fetch stdout total i r st slug Hs)
      as [st1' [Hi' [_ H]]].
    rewrite Hi in Hi'. injection Hi' as <-.
    unfold hit_of. rewrite Hs. unfold outcome_of in H.
    destruct (fetch slug) as [html|e] eqn:Ef.
    + destruct (extract html) as [ig|e] eqn:Ee.
      * destruct (truthy (VStr ig)).
        -- destruct H as [html' [ig' [E1 [E2 [_ [Hh _]]]]]].
           assert (html' = html) by congruence. subst html'.
           assert (ig' = ig) by congruence. subst ig'.
           exact Hh.
        -- destruct H as [-> _]. now rewrite app_nil_r.
      * destruct H as [-> _]. now rewrite app_nil_r.
    + destruct H as [-> _]. now rewrite app_nil_r.
Qed.

(** X7.  The Results List a run of the scrape script writes holds, in
    the order of the candidates, one entry for each candidate whose page
    was fetched and gave a handle, and nothing else: a candidate whose
    fetch raised or whose page gave no handle adds nothing.  Every entry
    carries the name of a candidate and a handle that is not empty and
    not on the blocklist. *)
Theorem results_list_content fetch stdout doc final :
  main fetch stdout doc = Ok final ->
  exists cands,
    filter_loop doc [] = Ok cands /\
    hits final = flat_map (hit_of fetch) cands /\
    (forall name ig, In (name, ig) (hits final) ->
       (exists r, In r cands /\ c_name r = name) /\
       ig <> [] /\ ~ In ig blocklist).
Proof.
  intros Hm.
  destruct (insta_main_inv fetch stdout doc final Hm)
    as [cands [st1 [Hf [Hl [_ [Hh _]]]]]].
  exists cands. split; [assumption|].
  pose proof (insta_loop_hits fetch stdout cands _ _ _ _ Hl) as Hhits.
  cbn [hits app] in Hhits. rewrite Hh, Hhits. split; [reflexivity|].
  intros name ig Hin. apply in_flat_map in Hin.
  destruct Hin as [r [Hr Hin]]. unfold hit_of in Hin.
  destruct (slug_of r) as [slug|]; [|contradiction].
  destruct (fetch slug) as [html|]; [|contradiction].
  destruct (extract html) as [ig'|] eqn:He; [|contradiction].
  destruct (truthy (VStr ig')) eqn:Ht; [|contradiction].
  destruct Hin as [[= <- <-] | []].
  split; [now exists r|].
  destruct (extract_accepted html ig' He) as [-> | Ha]; [discriminate|].
  unfold accepted in Ha. apply andb_true_iff in Ha. destruct Ha as [_ Hb].
  apply negb_true_iff in Hb. split; [intros ->; discriminate|].
  intros Hbl.
  assert (existsb (str_eqb ig') blocklist = true) as E; [|congruence].
  apply existsb_exists. exists ig'. split; [assumption | apply str_eqb_refl].
Qed.

Lemma results_list_content_witness :
  exists final,
    main (page_fetch page_le_bernardin) utf8 mixed_doc = Ok final /\
    hits final = [(str "Carbone", str "lebernardin");
                  (str "Via Carota", str "lebernardin")].
Proof.
  eexists. split; [reflexivity|].
  destruct (results_list_content (page_fetch page_le_bernardin) utf8 mixed_doc _
              eq_refl) as [cands [Hf [Hh _]]].
  rewrite Hh. injection Hf as <-. reflexivity.
Defined.

End Results.

(* ================================================================== *)
(** ** [ot_insta.py]: line 37 *)

Section Cleaning.

Import Spec ISpec Re Insta Examples.

Lemma lstrip_split p s :
  exists t, s = t ++ lstrip p s /\ Forall (fun x => p x = true) t.
Proof.
  induction s as [|x s IH]; cbn [lstrip].
  - exists []. now split.
  - destruct (p x) eqn:E.
    + destruct IH as [t [Hs Ht]]. exists (x :: t). split.
      * cbn. now rewrite <- Hs.
      * now constructor.
    + exists []. now split.
Qed.

Lemma lstrip_head p s x t : lstrip p s = x :: t -> p x = false.
Proof.
  induction s as [|y s IH]; cbn [lstrip]; [discriminate|].
  destruct (p y) eqn:E; [exact IH | now intros [= <- _]].
Qed.

Lemma rstrip_split p s :
  exists t, s = rstrip p s ++ t /\ Forall (fun x => p x = true) t.
Proof.
  unfold rstrip. destruct (lstrip_split p (rev s)) as [t [Hs Ht]].
  exists (rev t). split.
  - rewrite <- rev_app_distr, <- Hs. now rewrite rev_involutive.
  - apply Forall_rev. exact Ht.
Qed.

Lemma rstrip_last p s init z : rstrip p s = init ++ [z] -> p z = false.
Proof.
  unfold rstrip. intros H.
  apply (f_equal (@rev N)) in H. rewrite rev_involutive, rev_app_distr in H.
  cbn in H. now apply lstrip_head in H.
Qed.

(** What [strip()] and then [rstrip('/')] leave of a capture. *)
Lemma cleaned_shape g :
  let c := rstrip (N.eqb (chr "/")) (strip g) in
  (exists ws tail,
     g = ws ++ c ++ tail /\
     Forall (fun x => isspace x = true) ws /\
     Forall (fun x => isspace x = true \/ x = chr "/") tail) /\
  (forall x t, c = x :: t -> isspace x = false) /\
  (forall init z, c = init ++ [z] -> z <> chr "/").
Proof.
  cbv zeta. unfold strip.
  destruct (lstrip_split isspace g) as [ws [Hg Hws]].
  destruct (rstrip_split isspace (lstrip isspace g)) as [t1 [H1 Ht1]].
  destruct (rstrip_split (N.eqb (chr "/"))
              (rstrip isspace (lstrip isspace g))) as [t2 [H2 Ht2]].
  set (c := rstrip (N.eqb (chr "/")) (rstrip isspace (lstrip isspace g))) in *.
  split; [|split].
  - exists ws, (t2 ++ t1). split; [|split; [assumption|]].
    + transitivity (ws ++ lstrip isspace g); [exact Hg|]. f_equal.
      transitivity (rstrip isspace (lstrip isspace g) ++ t1); [exact H1|].
      rewrite app_assoc. f_equal. exact H2.
    + apply Forall_app. split.
      * apply Forall_impl with (2 := Ht2). intros a Ha. right.
        symmetry. now apply N.eqb_eq.
      * apply Forall_impl with (2 := Ht1). intros a Ha. now left.
  - intros x t Hc. rewrite Hc in H2. rewrite H2 in H1. cbn in H1.
    now apply lstrip_head in H1.
  - intros init z Hc. apply rstrip_last in Hc.
    intros ->. now rewrite N.eqb_refl in Hc.
Qed.

(** X8.  What the extraction returns is either empty, no hit, or the
    capture of a pattern after line 37: it is accepted, it does not begin
    with a blank and it does not end with a slash.  Because the blanks are
    stripped before the slashes, it can still end with a blank: the
    capture [a/ /] gives [a/ ]. *)
Theorem extracted_value_shape html ig :
  extract html = Ok ig ->
  (ig = [] \/
   (accepted ig = true /\
    (exists x t, ig = x :: t /\ isspace x = false) /\
    (exists init z, ig = init ++ [z] /\ z <> chr "/"))) /\
  extract page_slash_blank_slash = Ok (str "a/ ").
Proof.
  intros He. split; [|reflexivity].
  destruct (for_patterns_spec html patterns patterns_set_group)
    as [[Hr _] | [bf [p [af [ig' [_ [Hr [Hy [Ha _]]]]]]]]];
    unfold extract in He; rewrite Hr in He; injection He as <-;
    [now left | right].
  split; [exact Ha|].
  unfold yields in Hy.
  destruct (search true p html) as [[g|]|]; try discriminate.
  injection Hy as Hy.
  destruct (cleaned_shape g) as [_ [Hhead Hlast]]. cbv zeta in *.
  assert (ig' <> []) as Hne by (intros ->; discriminate).
  split.
  - destruct ig' as [|x t]; [contradiction|].
    exists x, t. split; [reflexivity | exact (Hhead x t Hy)].
  - destruct (exists_last Hne) as [init [z Hz]].
    exists init, z. split; [exact Hz|]. rewrite Hz in Hy.
    exact (Hlast init z Hy).
Qed.

Lemma extracted_value_shape_witness :
  accepted (str "a/ ") = true.
Proof.
  destruct (extracted_value_shape page_slash_blank_slash (str "a/ ") eq_refl)
    as [[H | [H _]] _]; [discriminate | exact H].
Defined.

End Cleaning.

(* ================================================================== *)
(** ** [ot_google.py]: which latitudes count *)

Section Reselect.

Import Spec GSpec Google Examples.

Variable urlopen : pystr -> result value.

(** X9.  A candidate that gets a hit is a candidate again at the next
    run exactly when the latitude written is falsy: line 9 tests the truth
    value of [lat], so [None], [false], [0], [0.0], an empty string, list
    or object all count as no latitude.  A match on the equator, latitude
    0.0, leaves its record selected. *)
Theorem reselected_iff_falsy_latitude total i name st rd dd cd rest ld :
  dict_get name (lookup st) = Some (VDict rd) ->
  Filter.needs (str "lat") (VDict rd) = Ok true ->
  fetch urlopen name = Ok (VDict dd) ->
  dict_get (str "candidates") dd = Some (VList (VDict cd :: rest)) ->
  location_of (VDict cd) = Some ld ->
  let st' := iteration urlopen total i name st in
  exists rd',
    dict_get name (lookup st') = Some (VDict rd') /\
    Filter.needs (str "lat") (VDict rd')
      = Ok (negb (truthy (get_or_none (str "lat") ld))) /\
    (exists final,
       main (fun _ => Ok equator_body) carbone_doc = Ok final /\
       hits final = 1 /\
       filter_loop (lookup final) [] = Ok [str "Carbone"]).
Proof.
  intros Hn Hneeds Hf Hc Hl st'.
  destruct (iteration_hit urlopen total i name st rd dd cd rest ld Hn Hf Hc Hl)
    as [_ [Hrd' _]].
  exists (enriched ld cd rd). split; [exact Hrd'|]. split.
  - destruct (enriched_fields ld cd rd) as [H1 [_ [_ [_ [_ Hrest]]]]].
    cbv zeta in *. revert Hneeds. unfold Filter.needs, py_get.
    rewrite H1, Hrest
      by (unfold five_fields; cbn [map In];
          intros [E | [E | [E | [E | [E | []]]]]]; vm_compute in E;
          discriminate).
    cbn [rbind].
    destruct (py_in (str "opentable") _) as [[|]|e]; cbn [rbind];
      try discriminate.
    reflexivity.
  - eexists. split; [reflexivity|]. split; reflexivity.
Qed.

End Reselect.

Lemma reselected_iff_falsy_latitude_witness :
  exists rd',
    dict_get (str "Carbone")
      (Google.lookup
         (Google.iteration (fun _ => Ok Examples.equator_body) 1 0
            (str "Carbone") (Google.mkState Examples.carbone_doc 0 0 [])))
      = Some (VDict rd') /\
    Filter.needs (str "lat") (VDict rd') = Ok true.
Proof.
  destruct (reselected_iff_falsy_latitude (fun _ => Ok Examples.equator_body)
              1 0 (str "Carbone") (Google.mkState Examples.carbone_doc 0 0 [])
              _ _ _ [] _ eq_refl eq_refl eq_refl eq_refl eq_refl)
    as [rd' [H1 [H2 _]]].
  exists rd'. split; [exact H1 | exact H2].
Defined.

(* ================================================================== *)
(** ** [ot_google.py]: the store after a run *)

Section WholeRun.

Import Spec GSpec Google Examples.

Variable urlopen : pystr -> result value.

(** X10.  What a run of the API script does to a store with distinct
    keys: the keys and their order stay; a record that is not a candidate
    is written back as it was loaded; a candidate whose response was a hit
    holds, at the end, its own record as loaded with the five fields of
    its own response's first match; a candidate that ended as a no-hit or
    an error is written back as it was loaded. *)
Theorem run_touches_only_hits doc final :
  NoDup (keys doc) ->
  main urlopen doc = Ok final ->
  exists names,
    filter_loop doc [] = Ok names /\
    keys (lookup final) = keys doc /\
    (forall n, ~ In n names -> dict_get n (lookup final) = dict_get n doc) /\
    (forall n, In n names ->
       exists rd0,
         dict_get n doc = Some (VDict rd0) /\
         match outcome_of (fetch urlopen n) with
         | Hit =>
             exists dd cd rest ld,
               fetch urlopen n = Ok (VDict dd) /\
               dict_get (str "candidates") dd
                 = Some (VList (VDict cd :: rest)) /\
               location_of (VDict cd) = Some ld /\
               dict_get n (lookup final)
                 = Some (VDict (enriched ld cd rd0))
         | _ => dict_get n (lookup final) = Some (VDict rd0)
         end).
Proof.
  intros Hnd Hm.
  destruct (main_inv urlopen doc final Hm)
    as [names [st1 [Hf [Hst [Hlk _]]]]].
  exists names. split; [assumption|].
  pose proof (filter_loop_entries doc names 0 0
                [EvRead path; EvPrint (LNeeding (List.length names))] Hf)
    as Hent.
  destruct (google_filter_loop_filter doc [] names Hf) as [Hnames _].
  cbn [app] in Hnames.
  assert (NoDup names) as Hndn
    by (rewrite Hnames; now apply NoDup_keys_filter).
  destruct (loop_counters urlopen names (List.length names) 0 _ Hent)
    as [_ [_ Hkeys]].
  destruct (loop_final urlopen names (List.length names) 0 _ Hndn Hent)
    as [H1 H2].
  cbv zeta in Hkeys, H1, H2. rewrite <- Hst, <- Hlk in Hkeys, H1, H2.
  cbn [lookup] in Hkeys, H1, H2.
  split; [exact Hkeys|]. split; [exact H2 | exact H1].
Qed.

End WholeRun.

Lemma run_touches_only_hits_witness :
  NoDup (keys Examples.mixed_doc) /\
  exists final,
    Google.main Examples.carbone_fetch Examples.mixed_doc = Ok final /\
    keys (Google.lookup final) = keys Examples.mixed_doc.
Proof.
  assert (NoDup (keys Examples.mixed_doc)) as Hnd.
  { repeat constructor; cbn; intuition discriminate. }
  split; [exact Hnd|]. eexists. split; [reflexivity|].
  destruct (run_touches_only_hits Examples.carbone_fetch Examples.mixed_doc _
              Hnd eq_refl) as [names [_ [Hk _]]].
  exact Hk.
Defined.

(* ================================================================== *)
(** ** [ot_google.py]: the order of the fields *)

Section FieldOrder.

Import Spec GSpec Google Examples.

Variable urlopen : pystr -> result value.

(** Assigning to a key keeps the keys in place and puts a new key last. *)
Lemma keys_dict_set k v d :
  keys (dict_set k v d)
  = keys d ++ (if existsb (str_eqb k) (keys d) then [] else [k]).
Proof.
  induction d as [|[k' v'] d IH]; cbn [dict_set keys map existsb fst];
    [reflexivity|].
  destruct (str_eqb k k') eqn:E; cbn [orb map fst].
  - now rewrite app_nil_r.
  - unfold keys in IH. cbn [app]. now rewrite IH.
Qed.

Lemma existsb_str_In k l : existsb (str_eqb k) l = true <-> In k l.
Proof.
  rewrite existsb_exists. split.
  - intros [x [Hin He]]. apply str_eqb_eq in He. now subst.
  - intros Hin. exists k. split; [assumption | apply str_eqb_refl].
Qed.

(** X11.  Lines 29-33 keep the order of the fields of a record: after a
    hit the fields the record had are where they were, with their new
    values if they are among the five, and those of the five it did not
    have follow at the end, in the order [lat], [lng], [google_rating],
    [google_reviews], [place_id]; no field name occurs twice. *)
Theorem hit_keeps_field_order total i name st rd dd cd rest ld :
  dict_get name (lookup st) = Some (VDict rd) ->
  fetch urlopen name = Ok (VDict dd) ->
  dict_get (str "candidates") dd = Some (VList (VDict cd :: rest)) ->
  location_of (VDict cd) = Some ld ->
  NoDup (keys rd) ->
  let st' := iteration urlopen total i name st in
  exists rd',
    dict_get name (lookup st') = Some (VDict rd') /\
    keys rd' = keys rd ++
      filter (fun k => negb (existsb (str_eqb k) (keys rd))) five_fields /\
    NoDup (keys rd').
Proof.
  intros Hn Hf Hc Hl Hnd st'.
  destruct (iteration_hit urlopen total i name st rd dd cd rest ld Hn Hf Hc Hl)
    as [_ [Hrd' _]].
  exists (enriched ld cd rd). split; [exact Hrd'|].
  assert (keys (enriched ld cd rd) = keys rd ++
            filter (fun k => negb (existsb (str_eqb k) (keys rd))) five_fields)
    as Hkeys.
  { unfold enriched. rewrite !keys_dict_set, !existsb_app.
    unfold five_fields. cbn [map filter].
    destruct (existsb (str_eqb (str "lat")) (keys rd));
      destruct (existsb (str_eqb (str "lng")) (keys rd));
      destruct (existsb (str_eqb (str "google_rating")) (keys rd));
      destruct (existsb (str_eqb (str "google_reviews")) (keys rd));
      destruct (existsb (str_eqb (str "place_id")) (keys rd));
      cbn [negb orb existsb app]; rewrite <- ?app_assoc; reflexivity. }
  split; [exact Hkeys|]. rewrite Hkeys.
  apply NoDup_app; [exact Hnd | |].
  - apply NoDup_filter. unfold five_fields.
    repeat constructor; cbn; intuition discriminate.
  - intros k Hin Hf'. apply filter_In in Hf'. destruct Hf' as [_ Hneg].
    apply negb_true_iff in Hneg.
    apply existsb_str_In in Hin. congruence.
Qed.

End FieldOrder.

Lemma hit_keeps_field_order_witness :
  exists rd',
    dict_get (str "Carbone")
      (Google.lookup
         (Google.iteration Examples.carbone_fetch 1 0 (str "Carbone")
            (Google.mkState Examples.carbone_doc 0 0 []))) = Some (VDict rd') /\
    keys rd' = map str ["url"; "lat"; "lng"; "google_rating";
                        "google_reviews"; "place_id"]%string.
Proof.
  destruct (hit_keeps_field_order Examples.carbone_fetch 1 0 (str "Carbone")
              (Google.mkState Examples.carbone_doc 0 0 [])
              _ _ _ [] _ eq_refl eq_refl eq_refl eq_refl)
    as [rd' [H1 [H2 _]]].
  { repeat constructor. intros []. }
  exists rd'. split; [exact H1 | exact H2].
Defined.

(* ================================================================== *)
(** ** [ot_insta.py]: a handle comes from the page *)

Section ExecSound.

Import Re ISpec.

Variable ic : bool.
Variable A : Type.

Lemma repeat_one_sound cs s (k : pystr -> option A) a :
  repeat_one ic A cs s k = Some a ->
  exists w rest,
    s = w ++ rest /\ Forall (fun x => set_match ic cs x = true) w /\
    k rest = Some a.
Proof.
  induction s as [|x s IH]; cbn [repeat_one].
  - intros H. exists [], []. now repeat split.
  - destruct (set_match ic cs x) eqn:E;
      [|intros H; exists [], (x :: s); now repeat split].
    destruct (repeat_one ic A cs s k) as [a'|] eqn:Er.
    + intros [= ->]. destruct (IH eq_refl) as [w [rest [-> [Hw Hk]]]].
      exists (x :: w), rest. repeat split; [now constructor | assumption].
    + intros H. exists [], (x :: s). now repeat split.
Qed.

Lemma firstn_consumed (w rest : pystr) :
  firstn (List.length (w ++ rest) - List.length rest) (w ++ rest) = w.
Proof.
  rewrite length_app.
  replace (List.length w + List.length rest - List.length rest)
    with (List.length w) by lia.
  rewrite firstn_app, Nat.sub_diag, firstn_all. cbn. apply app_nil_r.
Qed.

(** What a successful match consumed, and where group 1 comes from. *)
Lemma exec_sound r : forall s g k a,
  exec ic A r s g k = Some a ->
  exists w rest g',
    s = w ++ rest /\ Matches ic r w /\ k rest g' = Some a /\
    (g' = g \/ exists c, g' = Some c /\ infix c w).
Proof.
  induction r as [|c|cs|cs|cs|r IH|r IH|r1 IH1 r2 IH2]; intros s g k a;
    cbn [exec].
  - intros H. exists [], s, g. repeat split; [constructor | assumption | now left].
  - destruct s as [|x s]; [discriminate|].
    destruct (char_eq ic c x) eqn:E; [|discriminate].
    intros H. exists [x], s, g.
    repeat split; [now constructor | assumption | now left].
  - destruct s as [|x s]; [discriminate|].
    destruct (set_match ic cs x) eqn:E; [|discriminate].
    intros H. exists [x], s, g.
    repeat split; [now constructor | assumption | now left].
  - intros H. apply repeat_one_sound in H.
    destruct H as [w [rest [-> [Hw Hk]]]]. exists w, rest, g.
    repeat split; [now constructor | assumption | now left].
  - destruct s as [|x s]; [discriminate|].
    destruct (set_match ic cs x) eqn:E; [|discriminate].
    intros H. apply repeat_one_sound in H.
    destruct H as [w [rest [-> [Hw Hk]]]]. exists (x :: w), rest, g.
    repeat split; [constructor; now constructor | assumption | now left].
  - destruct (exec ic A r s g k) as [a'|] eqn:E.
    + intros [= ->].
      destruct (IH _ _ _ _ E) as [w [rest [g' [-> [Hm [Hk Hg]]]]]].
      exists w, rest, g'. repeat split; [now apply M_opt_some | assumption..].
    + intros H. exists [], s, g.
      repeat split; [apply M_opt_none | assumption | now left].
  - intros H.
    destruct (IH _ _ _ _ H) as [w [rest [g' [-> [Hm [Hk _]]]]]].
    rewrite firstn_consumed in Hk.
    exists w, rest, (Some w).
    repeat split; [now constructor | assumption|].
    right. exists w. split; [reflexivity|]. exists [], [].
    now rewrite app_nil_r.
  - intros H.
    destruct (IH1 _ _ _ _ H) as [w1 [s1 [g1 [-> [Hm1 [Hk1 Hg1]]]]]].
    destruct (IH2 _ _ _ _ Hk1) as [w2 [s2 [g2 [-> [Hm2 [Hk2 Hg2]]]]]].
    exists (w1 ++ w2), s2, g2.
    repeat split; [now rewrite app_assoc | now constructor | assumption|].
    destruct Hg2 as [-> | [c [-> [b [af ->]]]]].
    + destruct Hg1 as [-> | [c [-> [b [af ->]]]]]; [now left|].
      right. exists c. split; [reflexivity|].
      exists b, (af ++ w2). now rewrite <- !app_assoc.
    + right. exists c. split; [reflexivity|].
      exists (w1 ++ b), af. now rewrite <- !app_assoc.
Qed.

End ExecSound.

Section SearchSound.

Import Re ISpec.

Lemma search_sound ic r s m :
  search ic r s = Some m ->
  exists before w after,
    s = before ++ w ++ after /\ Matches ic r w /\
    (m = None \/ exists c, m = Some c /\ infix c w).
Proof.
  induction s as [|x s IH]; cbn [search].
  - destruct (exec ic match_ r [] None _) as [m'|] eqn:E; [|discriminate].
    intros [= ->]. apply exec_sound in E.
    destruct E as [w [rest [g' [Hs [Hm [[= ->] Hg]]]]]].
    exists [], w, rest. repeat split; assumption.
  - destruct (exec ic match_ r (x :: s) None _) as [m'|] eqn:E.
    + intros [= ->]. apply exec_sound in E.
      destruct E as [w [rest [g' [Hs [Hm [[= ->] Hg]]]]]].
      exists [], w, rest. repeat split; assumption.
    + intros H. destruct (IH H) as [b [w [af [-> [Hm Hg]]]]].
      exists (x :: b), w, af. repeat split; assumption.
Qed.

Lemma Matches_lits ic s w :
  Matches ic (lits s) w ->
  Forall2 (fun c x => char_eq ic c x = true) (str s) w.
Proof.
  unfold lits. generalize (str s) as l. intros l. revert w.
  induction l as [|c l IH]; intros w; cbn [fold_right]; intros H.
  - inversion H. constructor.
  - inversion H as [| | | | | | | |? ? w1 w2 H1 H2]; subst.
    inversion H1; subst. cbn. constructor; [assumption | now apply IH].
Qed.

End SearchSound.

Section FromThePage.

Import Re Insta ISpec Examples.

Lemma infix_trans a b c : infix a b -> infix b c -> infix a c.
Proof.
  intros [p1 [s1 ->]] [p2 [s2 ->]]. exists (p2 ++ p1), (s1 ++ s2).
  now rewrite <- !app_assoc.
Qed.

Lemma mentions_infix word w text :
  mentions word w -> infix w text -> mentions word text.
Proof.
  intros [b [m [af [-> Hm]]]] [p [s ->]].
  exists (p ++ b), m, (af ++ s). split; [now rewrite <- !app_assoc | assumption].
Qed.

Lemma Forall2_mentions (pre word post w : pystr) :
  Forall2 (fun c x => char_eq true c x = true) (pre ++ word ++ post) w ->
  mentions word w.
Proof.
  intros H. apply Forall2_app_inv_l in H.
  destruct H as [w1 [w' [H1 [H' ->]]]].
  apply Forall2_app_inv_l in H'. destruct H' as [m [w3 [Hm [H3 ->]]]].
  now exists w1, m, w3.
Qed.

(** Each of the three patterns consumes the word [instagram]. *)
Lemma patterns_mention p w :
  In p patterns -> Matches true p w -> mentions (str "instagram") w.
Proof.
  unfold patterns. intros [<- | [<- | [<- | []]]] H.
  - inversion H as [| | | | | | | |? ? w1 w2 H1 H2]; subst.
    apply Matches_lits in H1.
    apply mentions_infix with (w := w1);
      [|exists [], w2; reflexivity].
    apply (Forall2_mentions [] (str "instagram") (str ".com/")). exact H1.
  - inversion H as [| | | | | | | |? ? w1 w2 H1 H2]; subst.
    inversion H2 as [| | | | | | | |? ? w3 w4 H3 H4]; subst.
    apply Matches_lits in H3.
    apply mentions_infix with (w := w3);
      [|exists w1, w4; reflexivity].
    apply (Forall2_mentions [] (str "instagram") []).
    cbn [app]. now rewrite app_nil_r.
  - inversion H as [| | | | | | | |? ? w1 w2 H1 H2]; subst.
    inversion H2 as [| | | | | | | |? ? w3 w4 H3 H4]; subst.
    inversion H4 as [| | | | | | | |? ? w5 w6 H5 H6]; subst.
    inversion H6 as [| | | | | | | |? ? w7 w8 H7 H8]; subst.
    apply Matches_lits in H8.
    apply mentions_infix with (w := w8).
    + apply (Forall2_mentions [] (str "instagram") []).
      cbn [app]. now rewrite app_nil_r.
    + exists (w1 ++ w3 ++ w5 ++ w7), []. rewrite app_nil_r.
      now rewrite <- !app_assoc.
Qed.

(** X12.  A handle the extraction returns comes from the page: it occurs
    in the page as it is returned, and the page holds the word
    [instagram], in any mix of upper and lower case.  A page that does
    not mention instagram gives no hit. *)
Theorem handle_comes_from_the_page html ig :
  extract html = Ok ig -> ig <> [] ->
  infix ig html /\ mentions (str "instagram") html.
Proof.
  intros He Hne.
  destruct (for_patterns_spec html patterns patterns_set_group)
    as [[Hr _] | [bf [p [af [ig' [Hps [Hr [Hy _]]]]]]]];
    unfold extract in He; rewrite Hr in He; injection He as <-;
    [contradiction|].
  assert (In p patterns) as Hin by (rewrite Hps; apply in_elt).
  unfold yields in Hy.
  destruct (search true p html) as [[g|]|] eqn:Es; try discriminate.
  injection Hy as Hy.
  destruct (search_sound true p html (Some g) Es)
    as [before [w [after [Hhtml [Hm Hg]]]]].
  destruct Hg as [Hg | [c [[= <-] Hinf]]]; [discriminate|].
  assert (infix w html) as Hw by (now exists before, after).
  split.
  - apply infix_trans with (b := g); [|now apply infix_trans with (b := w)].
    destruct (cleaned_shape g) as [[ws [tail [Hgs _]]] _]. cbv zeta in Hgs.
    exists ws, tail. rewrite <- Hy. exact Hgs.
  - apply mentions_infix with (w := w); [|exact Hw].
    now apply (patterns_mention p).
Qed.

Lemma handle_comes_from_the_page_witness :
  infix (str "lebernardin") page_explore_then_json.
Proof.
  apply (handle_comes_from_the_page page_explore_then_json (str "lebernardin")
           eq_refl).
  discriminate.
Defined.

End FromThePage.
